(** * snapshot.cmd.by.VTSTech.py: a shallow embedding and its properties

    The program supervises a Minecraft server process: it reads the
    server's output line by line, recognises chat commands and position
    reports with two regular expressions, keeps homes, warps and teleport
    requests in dictionaries and answers through the server's console.

    Modelling choices, all local to this file:
    - a Python [str] is a [string] whose characters are the code points
      0..255 (the Latin-1 range of Unicode); the classes [\s], [\d], [\w] and
      [str.lower] are Python's on that range;
    - a [dict] is an insertion-ordered association list (Python iterates
      dicts in insertion order, and the order is observable in the CSV files
      and in the order of the messages sent);
    - the coroutines are run one at a time to completion, with the state of
      [CommandHandler] threaded explicitly and every effect (a console
      command, a log record, a sleep) appended to one chronological trace;
    - [time.time()] readings are binary64 numbers, held as the rationals
      they denote and subtracted with rounding; the clock advances while a
      task sleeps, by the time asked and by a lag the state provides;
      [random.randint] draws from a list of numbers kept in the state;
    - a CSV file is the list of the rows written to it; reading it in text
      mode turns a carriage return inside a field into a line feed and may
      end in an exception, which the state provides; writing does not fail;
    - a read of the server's output gives a line of text or raises; the
      server process is up, so that [execute] always reaches its console. *)

From Stdlib Require Import List Bool Arith Lia ZArith QArith Qpower Qabs Lqa.
From Stdlib Require Import Strings.Ascii Strings.String Numbers.DecimalString.
Import ListNotations.

Local Open Scope list_scope.
Local Open Scope string_scope.

(* ================================================================= *)
(** ** Characters and strings *)

Module Str.

Definition code (c : ascii) : nat := nat_of_ascii c.

Definition between (lo hi : nat) (c : ascii) : bool :=
  (lo <=? code c)%nat && (code c <=? hi)%nat.

(** [str.isspace] on one character: the class behind [\s], [str.strip]
    and [str.split]. *)
Definition is_space (c : ascii) : bool :=
  between 9 13 c || between 28 32 c
  || (code c =? 133)%nat || (code c =? 160)%nat.

(** [\d]: the decimal digits. *)
Definition is_digit (c : ascii) : bool := between 48 57 c.

(** [str.isalnum] on one character. *)
Definition is_alnum (c : ascii) : bool :=
  is_digit c || between 65 90 c || between 97 122 c
  || (code c =? 170)%nat || between 178 179 c || (code c =? 181)%nat
  || between 185 186 c || between 188 190 c
  || between 192 214 c || between 216 246 c || between 248 255 c.

(** [\w]: alphanumeric or underscore. *)
Definition is_word (c : ascii) : bool := is_alnum c || (code c =? 95)%nat.

(** [.] without DOTALL: anything but a line feed. *)
Definition is_dot (c : ascii) : bool := negb (code c =? 10)%nat.

(** [[^>]] *)
Definition not_gt (c : ascii) : bool := negb (code c =? 62)%nat.

Definition lower_char (c : ascii) : ascii :=
  if between 65 90 c || between 192 214 c || between 216 222 c
  then ascii_of_nat (code c + 32) else c.

(** [str.lower] *)
Fixpoint lower (s : string) : string :=
  match s with
  | EmptyString => EmptyString
  | String c s' => String (lower_char c) (lower s')
  end.

Definition is_empty (s : string) : bool :=
  match s with EmptyString => true | String _ _ => false end.

Fixpoint all_chars (p : ascii -> bool) (s : string) : bool :=
  match s with
  | EmptyString => true
  | String c s' => p c && all_chars p s'
  end.

(** The first character of [s], if any, fails [p]. *)
Definition stops (p : ascii -> bool) (s : string) : bool :=
  match s with
  | EmptyString => true
  | String c _ => negb (p c)
  end.

(** The longest prefix of [s] made of characters of the class [p], and
    what follows it. *)
Fixpoint take_while (p : ascii -> bool) (s : string) : string :=
  match s with
  | EmptyString => EmptyString
  | String c s' => if p c then String c (take_while p s') else EmptyString
  end.

Fixpoint drop_while (p : ascii -> bool) (s : string) : string :=
  match s with
  | EmptyString => EmptyString
  | String c s' => if p c then drop_while p s' else s
  end.

Definition lstrip (s : string) : string := drop_while is_space s.

Fixpoint rstrip (s : string) : string :=
  match s with
  | EmptyString => EmptyString
  | String c s' =>
      match rstrip s' with
      | EmptyString => if is_space c then EmptyString else String c EmptyString
      | r => String c r
      end
  end.

(** [str.strip()] *)
Definition strip (s : string) : string := rstrip (lstrip s).

(** [str.split()] without arguments: the maximal runs of non-space
    characters, in order. *)
Fixpoint split (s : string) : list string :=
  match s with
  | EmptyString => []
  | String c s' =>
      if is_space c then split s'
      else if stops (fun c' => negb (is_space c')) s'
           then String c EmptyString :: split s'
           else match split s' with
                | t :: ts => String c t :: ts
                | [] => [String c EmptyString]
                end
  end.

(** [sep.join(parts)] *)
Fixpoint join (sep : string) (parts : list string) : string :=
  match parts with
  | [] => EmptyString
  | [p] => p
  | p :: ps => p ++ sep ++ join sep ps
  end.

(** The part of [s] consumed when [rest] is what is left of it. *)
Fixpoint take (n : nat) (s : string) : string :=
  match n, s with
  | S n', String c s' => String c (take n' s')
  | _, _ => EmptyString
  end.

Definition consumed (s rest : string) : string :=
  take (length s - length rest) s.

(** [str(n)] for an integer. *)
Definition of_Z (z : Z) : string := NilEmpty.string_of_int (Z.to_int z).
Definition of_nat (n : nat) : string := NilEmpty.string_of_uint (Nat.to_uint n).

(** What reading in text mode makes of the ends of line inside a text:
    with [open(path, 'r')], a carriage return followed by a line feed, and
    a carriage return alone, are both read as one line feed. *)
Fixpoint universal_newlines (s : string) : string :=
  match s with
  | EmptyString => EmptyString
  | String c s' =>
      if (code c =? 13)%nat
      then String (ascii_of_nat 10)
             match s' with
             | String c' s'' =>
                 if (code c' =? 10)%nat then universal_newlines s''
                 else universal_newlines s'
             | EmptyString => EmptyString
             end
      else String c (universal_newlines s')
  end.

Definition dquote : string := String (ascii_of_nat 34) EmptyString.
Definition squote : string := String (ascii_of_nat 39) EmptyString.
(** The section sign that introduces a colour code in Minecraft text. *)
Definition sect : string := String (ascii_of_nat 167) EmptyString.

End Str.

(* ================================================================= *)
(** ** Regular expressions, as Python's [re] runs them

    A backtracking matcher in continuation-passing style: alternatives are
    tried in Python's priority order (greedy repetition tries the longest
    run first, an optional part is tried before it is skipped) and the first
    success is the match.  Only the constructs of the two patterns of
    [handle_output] are present; every repetition in them ranges over one
    character class. *)

Module Re.

Inductive regex : Type :=
| Lit (l : string)                 (* literal text *)
| Plus (p : ascii -> bool)         (* [c+] for a class [c] *)
| Star (p : ascii -> bool)         (* [c*] *)
| Opt (r : regex)                  (* [r?] *)
| Cat (r1 r2 : regex)
| Group (n : nat) (r : regex).     (* capturing group number [n] *)

Definition captures := list (nat * string).

Fixpoint lit (l s : string) : option string :=
  match l, s with
  | EmptyString, _ => Some s
  | String a l', String b s' => if Ascii.eqb a b then lit l' s' else None
  | String _ _, EmptyString => None
  end.

Fixpoint rep {R : Type} (p : ascii -> bool) (s : string)
         (k : string -> option R) : option R :=
  match s with
  | String c s' =>
      if p c
      then match rep p s' k with
           | Some r => Some r
           | None => k s
           end
      else k s
  | EmptyString => k s
  end.

Fixpoint run (r : regex) (s : string) (g : captures)
         (k : string -> captures -> option captures) : option captures :=
  match r with
  | Lit l =>
      match lit l s with
      | Some s' => k s' g
      | None => None
      end
  | Plus p =>
      match s with
      | String c s' => if p c then rep p s' (fun s'' => k s'' g) else None
      | EmptyString => None
      end
  | Star p => rep p s (fun s' => k s' g)
  | Opt r' =>
      match run r' s g k with
      | Some g' => Some g'
      | None => k s g
      end
  | Cat r1 r2 => run r1 s g (fun s' g' => run r2 s' g' k)
  | Group n r' =>
      run r' s g (fun s' g' => k s' ((n, Str.consumed s s') :: g'))
  end.

(** [re.match]: the pattern anchored at the start of [s]. *)
Definition match_here (r : regex) (s : string) : option captures :=
  run r s [] (fun _ g => Some g).

(** [re.search]: the leftmost position where the pattern matches. *)
Fixpoint search (r : regex) (s : string) : option captures :=
  match match_here r s with
  | Some g => Some g
  | None =>
      match s with
      | String _ s' => search r s'
      | EmptyString => None
      end
  end.

(** [match.group(n)]: [None] when the group took no part in the match. *)
Fixpoint group (n : nat) (g : captures) : option string :=
  match g with
  | [] => None
  | (m, v) :: g' => if (n =? m)%nat then Some v else group n g'
  end.

Declare Scope regex_scope.
Delimit Scope regex_scope with re.
Infix "^^" := Cat (at level 60, right associativity) : regex_scope.

End Re.

Import Re.

(** The chat pattern of [handle_output]: [<], group 1 [[^>]+], [> \.],
    group 2 [\w+], then an optional non-capturing part made of [\s+] and
    group 3 [.*]. *)
Definition chat_re : regex :=
  (Lit "<" ^^ Group 1 (Plus Str.not_gt) ^^ Lit "> ." ^^
   Group 2 (Plus Str.is_word) ^^
   Opt (Plus Str.is_space ^^ Group 3 (Star Str.is_dot)))%re.

(** [-?\d+\.?\d*] *)
Definition number_re : regex :=
  (Opt (Lit "-") ^^ Plus Str.is_digit ^^ Opt (Lit ".") ^^ Star Str.is_digit)%re.

(** [r'(\w+) has the following entity data: \[(N)d, (N)d, (N)d\]'], where
    [N] stands for the number pattern above. *)
Definition position_re : regex :=
  (Group 1 (Plus Str.is_word) ^^ Lit " has the following entity data: [" ^^
   Group 2 number_re ^^ Lit "d, " ^^ Group 3 number_re ^^ Lit "d, " ^^
   Group 4 number_re ^^ Lit "d]")%re.

(* ================================================================= *)
(** ** Python containers *)

(** A [dict] with [str] keys: the bindings in insertion order.  Lookup takes
    the first binding of a key; the operations keep keys unique ([wf]). *)
Module Dict.

Section WithValues.
Context {V : Type}.

Definition t : Type := list (string * V).

Definition keys (d : t) : list string := map fst d.

(** [d.get(k)] *)
Fixpoint get (k : string) (d : t) : option V :=
  match d with
  | [] => None
  | (k', v) :: d' => if k =? k' then Some v else get k d'
  end.

(** [k in d] *)
Definition mem (k : string) (d : t) : bool :=
  match get k d with Some _ => true | None => false end.

(** [d[k] = v]: an existing key keeps its place, a new one goes last. *)
Fixpoint set (k : string) (v : V) (d : t) : t :=
  match d with
  | [] => [(k, v)]
  | (k', v') :: d' =>
      if k =? k' then (k', v) :: d' else (k', v') :: set k v d'
  end.

(** [del d[k]] *)
Definition remove (k : string) (d : t) : t :=
  filter (fun kv => negb (k =? fst kv)) d.

Definition wf (d : t) : Prop := NoDup (keys d).

End WithValues.

Arguments t : clear implicits.

End Dict.

(** A [set] of [str], never iterated by the program. *)
Module StrSet.

Definition t : Type := list string.

Definition mem (x : string) (s : t) : bool :=
  existsb (String.eqb x) s.

Definition add (x : string) (s : t) : t :=
  if mem x s then s else x :: s.

Definition remove (x : string) (s : t) : t :=
  filter (fun y => negb (x =? y)) s.

End StrSet.

(* ================================================================= *)
(** ** Binary floating point

    [time.time()] returns a binary64 number, and the age of a request is the
    difference of two of them, rounded as IEEE 754 says: to the nearest
    number with a significand of 53 binary digits, a tie going to the one
    whose last digit is even.  A binary64 number is held as the rational it
    denotes.  The exponent is not bounded here; on two binary64 numbers the
    rounded difference, where it is in range, is the one the machine
    computes, and its comparison with the timeout is the machine's in every
    case.  Nothing below needs the readings of the clock to be binary64
    numbers: what is proved of all rationals is proved of them. *)

Module Float.

Local Open Scope Q_scope.

(** [a / b], for [b > 0], rounded to the nearest integer, a tie going to
    the even one. *)
Definition nearest_even (a b : Z) : Z :=
  let q := (a / b)%Z in
  match (2 * (a mod b) ?= b)%Z with
  | Lt => q
  | Gt => (q + 1)%Z
  | Eq => if Z.even q then q else (q + 1)%Z
  end.

Definition nearest (y : Q) : Z := nearest_even (Qnum y) (Zpos (Qden y)).

(** The binary exponent of [x > 0]: the [e] with [2^e <= x < 2^(e+1)]. *)
Definition exponent (x : Q) : Z :=
  let k := (Z.log2 (Qnum x) - Z.log2 (Zpos (Qden x)))%Z in
  if Qle_bool (2 ^ k) x then k else (k - 1)%Z.

(** The unit in the last place of a binary64 number of the size of [x]. *)
Definition ulp (x : Q) : Q := 2 ^ (exponent (Qabs x) - 52).

Definition round (x : Q) : Q :=
  if Qeq_bool x 0 then 0
  else inject_Z (nearest (x / ulp x)) * ulp x.

(** [a - b] on two [float]s. *)
Definition sub (a b : Q) : Q := round (a - b).

End Float.

(* ================================================================= *)
(** ** The world: handler state, files, console, clock *)

(** [x < y] on rationals, as a test. *)
Definition Qltb (x y : Q) : bool := negb (Qle_bool y x).

(** The exceptions the program can raise, with the text of [str(e)] as
    CPython 3.10 to 3.13 words it. *)
Inductive exn : Type :=
| TypeError (msg : string)
| ValueError (msg : string)
| KeyError (key : string)
| UnicodeDecodeError (msg : string)   (* bytes that are not text *)
| CsvError (msg : string)             (* [csv.Error] *)
| OSError (msg : string).             (* a file that cannot be opened or read *)

(** [str(e)].  A [KeyError] shows the [repr] of its key, which for a key
    without quotes, backslashes or control characters is the key between
    single quotes. *)
Definition str_exn (e : exn) : string :=
  match e with
  | TypeError msg => msg
  | ValueError msg => msg
  | KeyError key => Str.squote ++ key ++ Str.squote
  | UnicodeDecodeError msg => msg
  | CsvError msg => msg
  | OSError msg => msg
  end.

Inductive level : Type := DEBUG | INFO | ERROR.

(** A log record keeps the values its format string is filled with. *)
Inductive record : Type :=
| ServerLine (line : string)
| ProcessingCommand (player command : string) (args : list string)
| CommandError (e : exn)
| LoadedHomes (count : nat)
| LoadedWarps (count : nat)
| ErrorLoadingHomes (e : exn)
| ErrorLoadingWarps (e : exn)
| ErrorSavingHomes (e : exn)
| ErrorSavingWarps (e : exn).

Inductive effect : Type :=
| Exec (command : string)          (* [MinecraftServer.execute(command)] *)
| Log (lvl : level) (r : record)   (* a call of the logger *)
| Sleep (seconds : Q).             (* [asyncio.sleep(seconds)] *)

Definition row : Type := list string.

Record state : Type := mkState {
  homes : Dict.t string;
  warps : Dict.t string;
  pending_homes : StrSet.t;
  pending_warps : Dict.t string;
  tpa_requests : Dict.t (string * Q);
  homes_file : option (list row);      (* homes.csv, [None] when absent *)
  warps_file : option (list row);      (* warps.csv *)
  homes_fault : option exn;            (* what ends the reading of homes.csv *)
  warps_fault : option exn;            (* what ends the reading of warps.csv *)
  clock : Q;                           (* what [time.time()] returns *)
  lags : list Q;                       (* what the sleeps to come will add *)
  dice : list Z;                       (* what the random source will draw *)
  trace : list effect                  (* the effects so far, oldest first *)
}.

(** A [with_] function gives the state with one field replaced.  The two
    that replace a file stand for the program writing it anew: what made the
    old file unreadable is gone with it. *)
Definition with_homes (v : Dict.t string) (s : state) : state :=
  mkState v (warps s) (pending_homes s) (pending_warps s) (tpa_requests s)
          (homes_file s) (warps_file s) (homes_fault s) (warps_fault s)
          (clock s) (lags s) (dice s) (trace s).
Definition with_warps (v : Dict.t string) (s : state) : state :=
  mkState (homes s) v (pending_homes s) (pending_warps s) (tpa_requests s)
          (homes_file s) (warps_file s) (homes_fault s) (warps_fault s)
          (clock s) (lags s) (dice s) (trace s).
Definition with_pending_homes (v : StrSet.t) (s : state) : state :=
  mkState (homes s) (warps s) v (pending_warps s) (tpa_requests s)
          (homes_file s) (warps_file s) (homes_fault s) (warps_fault s)
          (clock s) (lags s) (dice s) (trace s).
Definition with_pending_warps (v : Dict.t string) (s : state) : state :=
  mkState (homes s) (warps s) (pending_homes s) v (tpa_requests s)
          (homes_file s) (warps_file s) (homes_fault s) (warps_fault s)
          (clock s) (lags s) (dice s) (trace s).
Definition with_tpa_requests (v : Dict.t (string * Q)) (s : state) : state :=
  mkState (homes s) (warps s) (pending_homes s) (pending_warps s) v
          (homes_file s) (warps_file s) (homes_fault s) (warps_fault s)
          (clock s) (lags s) (dice s) (trace s).
Definition with_homes_file (v : option (list row)) (s : state) : state :=
  mkState (homes s) (warps s) (pending_homes s) (pending_warps s)
          (tpa_requests s) v (warps_file s) None (warps_fault s) (clock s)
          (lags s) (dice s) (trace s).
Definition with_warps_file (v : option (list row)) (s : state) : state :=
  mkState (homes s) (warps s) (pending_homes s) (pending_warps s)
          (tpa_requests s) (homes_file s) v (homes_fault s) None (clock s)
          (lags s) (dice s) (trace s).
Definition with_homes_fault (v : option exn) (s : state) : state :=
  mkState (homes s) (warps s) (pending_homes s) (pending_warps s)
          (tpa_requests s) (homes_file s) (warps_file s) v (warps_fault s)
          (clock s) (lags s) (dice s) (trace s).
Definition with_warps_fault (v : option exn) (s : state) : state :=
  mkState (homes s) (warps s) (pending_homes s) (pending_warps s)
          (tpa_requests s) (homes_file s) (warps_file s) (homes_fault s) v
          (clock s) (lags s) (dice s) (trace s).
Definition with_clock (v : Q) (s : state) : state :=
  mkState (homes s) (warps s) (pending_homes s) (pending_warps s)
          (tpa_requests s) (homes_file s) (warps_file s) (homes_fault s)
          (warps_fault s) v (lags s) (dice s) (trace s).
Definition with_lags (v : list Q) (s : state) : state :=
  mkState (homes s) (warps s) (pending_homes s) (pending_warps s)
          (tpa_requests s) (homes_file s) (warps_file s) (homes_fault s)
          (warps_fault s) (clock s) v (dice s) (trace s).
Definition with_dice (v : list Z) (s : state) : state :=
  mkState (homes s) (warps s) (pending_homes s) (pending_warps s)
          (tpa_requests s) (homes_file s) (warps_file s) (homes_fault s)
          (warps_fault s) (clock s) (lags s) v (trace s).
Definition with_trace (v : list effect) (s : state) : state :=
  mkState (homes s) (warps s) (pending_homes s) (pending_warps s)
          (tpa_requests s) (homes_file s) (warps_file s) (homes_fault s)
          (warps_fault s) (clock s) (lags s) (dice s) v.

(** *** A state monad with exceptions

    A raised exception skips the rest of the computation; what was done to
    the state before it stays done, as in Python. *)

Inductive result (A : Type) : Type :=
| Val (a : A)
| Raise (e : exn).
Arguments Val {A} a.
Arguments Raise {A} e.

Definition M (A : Type) : Type := state -> result A * state.

Definition ret {A} (a : A) : M A := fun s => (Val a, s).

Definition bind {A B} (m : M A) (k : A -> M B) : M B :=
  fun s => match m s with
           | (Val a, s') => k a s'
           | (Raise e, s') => (Raise e, s')
           end.

Definition raise {A} (e : exn) : M A := fun s => (Raise e, s).

(** [try: m  except Exception as e: h e] *)
Definition try_except {A} (m : M A) (h : exn -> M A) : M A :=
  fun s => match m s with
           | (Val a, s') => (Val a, s')
           | (Raise e, s') => h e s'
           end.

Definition gets {A} (f : state -> A) : M A := fun s => (Val (f s), s).
Definition modify (f : state -> state) : M unit := fun s => (Val tt, f s).
Definition emit (e : effect) : M unit :=
  modify (fun s => with_trace (trace s ++ [e])%list s).

Declare Scope monad_scope.
Delimit Scope monad_scope with monad.
Notation "x <- m ;; k" := (bind m (fun x => k))
  (at level 61, m at next level, right associativity) : monad_scope.
Notation "' pat <- m ;; k" := (bind m (fun x => match x with pat => k end))
  (at level 61, pat pattern, m at next level, right associativity) : monad_scope.
Notation "m ;; k" := (bind m (fun _ => k))
  (at level 61, right associativity) : monad_scope.
Local Open Scope monad_scope.

(** [for x in xs: body x] *)
Fixpoint for_each {A} (xs : list A) (body : A -> M unit) : M unit :=
  match xs with
  | [] => ret tt
  | x :: xs' => body x ;; for_each xs' body
  end.

(** The final state of a computation. *)
Definition exec {A} (m : M A) (s : state) : state := snd (m s).

(* ================================================================= *)
(** ** The program *)

(** [CONFIG] *)
Definition spawn_point : string := "0 64 -3".
Definition rtp_radius : Z := 35000.
Definition tpa_timeout : Q := 30.

Definition sect : string := Str.sect.

(** [MinecraftServer.execute]: the command goes to the server's console
    (the [Exec] effect also stands for the debug record of the command). *)
Definition execute (command : string) : M unit := emit (Exec command).

(** The console command of [send_message]: [tellraw], the player and a JSON
    text component holding the message. *)
Definition tellraw (player message : string) : string :=
  "tellraw " ++ player ++ " {" ++ Str.dquote ++ "text" ++ Str.dquote
  ++ ":" ++ Str.dquote ++ message ++ Str.dquote ++ "}".

(** [CommandHandler.send_message] *)
Definition send_message (player message : string) : M unit :=
  execute (tellraw player message).

Definition log (lvl : level) (r : record) : M unit := emit (Log lvl r).

(** [time.time()] *)
Definition time : M Q := gets clock.

(** [asyncio.sleep(seconds)]: the clock moves on while the task sleeps, by
    the seconds asked and by a lag that is not the program's to choose (the
    event loop is busy with the other tasks, the wall clock is set anew);
    the lags are taken from the state in turn, and are 0 once it has none
    left. *)
Definition sleep (seconds : Q) : M unit :=
  emit (Sleep seconds) ;;
  modify (fun s =>
    with_lags (tl (lags s)) (with_clock (clock s + seconds + hd 0 (lags s))%Q s)).

(** [random.randint(lo, hi)]: the next draw, brought into [lo..hi]. *)
Definition randint (lo hi : Z) : M Z :=
  fun s => match dice s with
           | [] => (Val lo, s)
           | d :: ds => (Val (lo + d mod (hi - lo + 1))%Z, with_dice ds s)
           end.

(** The [ValueError] of [x, y, z = parts] when [parts] has not 3 items. *)
Definition unpack3_error (n : nat) : exn :=
  ValueError (if (n <? 3)%nat
              then "not enough values to unpack (expected 3, got "
                   ++ Str.of_nat n ++ ")"
              else "too many values to unpack (expected 3)").

(** [f"{x} {y} {z}"] *)
Definition coords (x y z : string) : string := x ++ " " ++ y ++ " " ++ z.

(** *** Expiry of teleport requests *)

(** [current_time - timestamp > CONFIG["tpa_timeout"]], the difference
    being the one of two [float]s. *)
Definition tpa_expired (current_time : Q) (entry : string * (string * Q)) : bool :=
  let '(_, (_, timestamp)) := entry in
  Qltb tpa_timeout (Float.sub current_time timestamp).

(** [self.tpa_requests.pop(target)] *)
Definition pop_tpa_request (target : string) : M (string * Q) :=
  reqs <- gets tpa_requests ;;
  match Dict.get target reqs with
  | Some v =>
      modify (fun s => with_tpa_requests (Dict.remove target (tpa_requests s)) s) ;;
      ret v
  | None => raise (KeyError target)
  end.

(** One turn of the loop of [check_tpa_timeouts]. *)
Definition check_tpa_timeouts_turn : M unit :=
  sleep 10 ;;
  current_time <- time ;;
  reqs <- gets tpa_requests ;;
  let expired := Dict.keys (filter (tpa_expired current_time) reqs) in
  for_each expired (fun target =>
    '(requester, _) <- pop_tpa_request target ;;
    send_message requester
      (sect ++ "cYour TPA request to " ++ target ++ " has expired.") ;;
    send_message target
      (sect ++ "cTPA request from " ++ requester ++ " has expired.")).

(** [check_tpa_timeouts], stopped after [turns] turns of its endless loop. *)
Fixpoint check_tpa_timeouts (turns : nat) : M unit :=
  match turns with
  | O => ret tt
  | S n => check_tpa_timeouts_turn ;; check_tpa_timeouts n
  end.

(** *** The CSV files *)

(** The loop of [load_homes] over the rows of the file. *)
Fixpoint read_homes (rows : list row) (h : Dict.t string) : Dict.t string :=
  match rows with
  | [] => h
  | r :: rest =>
      read_homes rest
        match r with
        | [player; x; y; z] => Dict.set player (coords x y z) h
        | _ => h
        end
  end.

(** The rows [csv.reader] yields for a file opened with [open(path, 'r')]
    that holds [rows]: the fields are the ones written, but for the ends of
    line inside them. *)
Definition text_mode (rows : list row) : list row :=
  map (map Str.universal_newlines) rows.

(** The end of the reading of a file: the exception it meets, if any. *)
Definition end_of_file (fault : option exn) : M unit :=
  match fault with
  | Some e => raise e
  | None => ret tt
  end.

(** [load_homes(self)]: nothing to do when the file is absent; an exception
    met while reading is logged, and the homes read before it stay. *)
Definition load_homes : M unit :=
  try_except
    (file <- gets homes_file ;;
     match file with
     | Some rows =>
         modify (fun s => with_homes (read_homes (text_mode rows) (homes s)) s) ;;
         fault <- gets homes_fault ;;
         end_of_file fault ;;
         h <- gets homes ;;
         log INFO (LoadedHomes (List.length h))
     | None => ret tt
     end)
    (fun e => log ERROR (ErrorLoadingHomes e)).

(** The loop of [save_homes]: the rows written, and the exception that
    stopped the writing, if any. *)
Fixpoint write_homes (items : Dict.t string) : list row * option exn :=
  match items with
  | [] => ([], None)
  | (player, pos) :: rest =>
      match Str.split pos with
      | [x; y; z] =>
          let '(rows, e) := write_homes rest in ([player; x; y; z] :: rows, e)
      | parts => ([], Some (unpack3_error (List.length parts)))
      end
  end.

(** [save_homes(self)]: the file is rewritten; a [ValueError] stops the writing
    and is logged. *)
Definition save_homes : M unit :=
  h <- gets homes ;;
  let '(rows, e) := write_homes h in
  modify (with_homes_file (Some rows)) ;;
  match e with
  | Some e => log ERROR (ErrorSavingHomes e)
  | None => ret tt
  end.

(** The loop of [load_warps] over the rows of the file. *)
Fixpoint read_warps (rows : list row) (w : Dict.t string) : Dict.t string :=
  match rows with
  | [] => w
  | r :: rest =>
      read_warps rest
        match r with
        | [name; x; y; z] => Dict.set (Str.lower name) (coords x y z) w
        | _ => w
        end
  end.

(** [load_warps(self)]: names are lower-cased, and [spawn] gets the configured
    default when no row gave it; all of it stands in one [try], so that an
    exception met while reading is logged and [spawn] is left as it is. *)
Definition load_warps : M unit :=
  try_except
    (file <- gets warps_file ;;
     match file with
     | Some rows =>
         modify (fun s => with_warps (read_warps (text_mode rows) (warps s)) s) ;;
         fault <- gets warps_fault ;;
         end_of_file fault ;;
         w <- gets warps ;;
         log INFO (LoadedWarps (List.length w))
     | None => ret tt
     end ;;
     w <- gets warps ;;
     if Dict.mem "spawn" w then ret tt
     else modify (with_warps (Dict.set "spawn" spawn_point w)))
    (fun e => log ERROR (ErrorLoadingWarps e)).

(** The loop of [save_warps]. *)
Fixpoint write_warps (items : Dict.t string) : list row * option exn :=
  match items with
  | [] => ([], None)
  | (name, pos) :: rest =>
      if (name =? "spawn") && (pos =? spawn_point) then write_warps rest
      else
        match Str.split pos with
        | [x; y; z] =>
            let '(rows, e) := write_warps rest in ([name; x; y; z] :: rows, e)
        | parts => ([], Some (unpack3_error (List.length parts)))
        end
  end.

(** [save_warps(self)] *)
Definition save_warps : M unit :=
  w <- gets warps ;;
  let '(rows, e) := write_warps w in
  modify (with_warps_file (Some rows)) ;;
  match e with
  | Some e => log ERROR (ErrorSavingWarps e)
  | None => ret tt
  end.

(** *** The commands *)

(** [cmd_tpa(self, player, *args)] *)
Definition cmd_tpa (player : string) (args : list string) : M unit :=
  match args with
  | [] => send_message player (sect ++ "cUsage: .tpa <player>")
  | target :: _ =>
      if target =? player
      then send_message player (sect ++ "cYou cannot teleport to yourself!")
      else
        reqs <- gets tpa_requests ;;
        let duplicate :=
          match Dict.get target reqs with
          | Some (existing_requester, _) => existing_requester =? player
          | None => false
          end in
        if duplicate
        then send_message player
               (sect ++ "cYou already have a pending request to " ++ target ++ "!")
        else
          now <- time ;;
          modify (fun s =>
            with_tpa_requests (Dict.set target (player, now) (tpa_requests s)) s) ;;
          send_message player
            (sect ++ "aTeleport request sent to " ++ target ++ "!") ;;
          send_message target
            (sect ++ "e" ++ player ++ " " ++ sect
             ++ "ahas requested to teleport to you. Use " ++ sect
             ++ "e.tpaccept " ++ sect ++ "aor " ++ sect ++ "e.tpdeny")
  end.

(** [cmd_tpaccept(self, player)] *)
Definition cmd_tpaccept (player : string) : M unit :=
  reqs <- gets tpa_requests ;;
  if negb (Dict.mem player reqs)
  then send_message player (sect ++ "cNo pending teleport requests!")
  else
    '(requester, _) <- pop_tpa_request player ;;
    execute ("tp " ++ requester ++ " " ++ player) ;;
    send_message player
      (sect ++ "aAccepted " ++ requester ++ "'s teleport request!") ;;
    send_message requester
      (sect ++ "e" ++ player ++ " " ++ sect
       ++ "ahas accepted your teleport request!").

(** [cmd_tpdeny(self, player)] *)
Definition cmd_tpdeny (player : string) : M unit :=
  reqs <- gets tpa_requests ;;
  if negb (Dict.mem player reqs)
  then send_message player (sect ++ "cNo pending teleport requests!")
  else
    '(requester, _) <- pop_tpa_request player ;;
    send_message player
      (sect ++ "cDenied " ++ requester ++ "'s teleport request!") ;;
    send_message requester
      (sect ++ "e" ++ player ++ " " ++ sect
       ++ "cdenied your teleport request!").

(** [cmd_sethome(self, player)] *)
Definition cmd_sethome (player : string) : M unit :=
  execute ("data get entity " ++ player ++ " Pos") ;;
  modify (fun s => with_pending_homes (StrSet.add player (pending_homes s)) s) ;;
  send_message player (sect ++ "aScanning your position...").

(** [cmd_home(self, player)] *)
Definition cmd_home (player : string) : M unit :=
  h <- gets homes ;;
  match Dict.get player h with
  | Some pos =>
      execute ("tp " ++ player ++ " " ++ pos) ;;
      send_message player (sect ++ "aTeleported to home!")
  | None => send_message player (sect ++ "cHome not set! Use .sethome")
  end.

(** [cmd_setwarp(self, player, *args)] *)
Definition cmd_setwarp (player : string) (args : list string) : M unit :=
  match args with
  | [] => send_message player (sect ++ "cUsage: .setwarp <name>")
  | name :: _ =>
      let warp_name := Str.lower name in
      execute ("data get entity " ++ player ++ " Pos") ;;
      modify (fun s =>
        with_pending_warps (Dict.set player warp_name (pending_warps s)) s) ;;
      send_message player
        (sect ++ "aScanning position for warp '" ++ warp_name ++ "'...")
  end.

(** [cmd_warp(self, player, *args)] *)
Definition cmd_warp (player : string) (args : list string) : M unit :=
  match args with
  | [] => send_message player (sect ++ "cUsage: .warp <name>")
  | name :: _ =>
      let warp_name := Str.lower name in
      w <- gets warps ;;
      match Dict.get warp_name w with
      | Some pos =>
          execute ("tp " ++ player ++ " " ++ pos) ;;
          send_message player
            (sect ++ "aTeleported to warp '" ++ warp_name ++ "'!")
      | None =>
          send_message player (sect ++ "cWarp '" ++ warp_name ++ "' not found!")
      end
  end.

(** [cmd_warps(self, player)] *)
Definition cmd_warps (player : string) : M unit :=
  w <- gets warps ;;
  let warp_list := Str.join ", " (Dict.keys w) in
  send_message player
    (sect ++ "aAvailable warps: " ++ sect ++ "e" ++ warp_list).

(** [cmd_spawn(self, player)]: [self.warps['spawn']] raises [KeyError]
    when the entry is missing. *)
Definition cmd_spawn (player : string) : M unit :=
  w <- gets warps ;;
  match Dict.get "spawn" w with
  | Some pos =>
      execute ("tp " ++ player ++ " " ++ pos) ;;
      send_message player (sect ++ "aTeleported to spawn!")
  | None => raise (KeyError "spawn")
  end.

(** [cmd_rtp(self, player)] *)
Definition cmd_rtp (player : string) : M unit :=
  let radius := rtp_radius in
  x <- randint (- radius) radius ;;
  z <- randint (- radius) radius ;;
  execute ("spreadplayers " ++ Str.of_Z x ++ " " ++ Str.of_Z z
           ++ " 0 100 false " ++ player) ;;
  send_message player
    (sect ++ "aRandom teleported! " ++ sect ++ "e(X: " ++ Str.of_Z x
     ++ ", Z: " ++ Str.of_Z z ++ ")").

(** [cmd_help(self, player)] *)
Definition cmd_help (player : string) : M unit :=
  let help_msg :=
    Str.dquote ++ "=== Server Commands ===, "
    ++ ".spawn - Teleport to spawn, "
    ++ ".sethome - Set home, "
    ++ ".home - Teleport home, "
    ++ ".setwarp <name> - Set warp, "
    ++ ".warp <name> - Teleport to warp, "
    ++ ".warps - List warps, "
    ++ ".rtp - Random teleport, "
    ++ ".tpa <player> - Request teleport, "
    ++ ".tpaccept - Accept teleport request, "
    ++ ".tpdeny - Deny teleport request, "
    ++ ".help - Show this menu" ++ Str.dquote in
  execute ("tell " ++ player ++ " " ++ help_msg).

(** *** The dispatcher *)

Definition handler : Type := string -> list string -> M unit.

(** A method [def name(self, player)] called as [name(player, *args)]: any
    extra argument makes the call itself raise [TypeError]. *)
Definition player_only (name : string) (body : string -> M unit) : handler :=
  fun player args =>
    match args with
    | [] => body player
    | _ :: _ =>
        raise (TypeError ("CommandHandler." ++ name
                          ++ "() takes 2 positional arguments but "
                          ++ Str.of_nat (2 + List.length args) ++ " were given"))
    end.

(** The attributes of a [CommandHandler] whose name starts with [cmd_]. *)
Definition cmd_methods : list (string * handler) :=
  [ ("cmd_tpa", cmd_tpa);
    ("cmd_tpaccept", player_only "cmd_tpaccept" cmd_tpaccept);
    ("cmd_tpdeny", player_only "cmd_tpdeny" cmd_tpdeny);
    ("cmd_sethome", player_only "cmd_sethome" cmd_sethome);
    ("cmd_home", player_only "cmd_home" cmd_home);
    ("cmd_setwarp", cmd_setwarp);
    ("cmd_warp", cmd_warp);
    ("cmd_warps", player_only "cmd_warps" cmd_warps);
    ("cmd_spawn", player_only "cmd_spawn" cmd_spawn);
    ("cmd_rtp", player_only "cmd_rtp" cmd_rtp);
    ("cmd_help", player_only "cmd_help" cmd_help) ].

(** [getattr(self, name, None)] for a name that starts with [cmd_]. *)
Definition getattr_cmd (name : string) : option handler :=
  Dict.get name cmd_methods.

(** [handle_command(self, player, command, args)] *)
Definition handle_command (player command : string) (args : list string) : M unit :=
  match getattr_cmd ("cmd_" ++ command) with
  | Some handler =>
      try_except (handler player args)
        (fun e =>
           send_message player (sect ++ "cError: " ++ str_exn e) ;;
           log ERROR (CommandError e))
  | None => send_message player (sect ++ "cUnknown command: ." ++ command)
  end.

(** *** Reading the server's output *)

(** [match.groups()] of a chat match: groups 1 and 2 take part in every
    match of [chat_re], group 3 only when an argument text is present. *)
Definition chat_match (line : string) : option (string * string * option string) :=
  match search chat_re line with
  | Some m =>
      match group 1 m, group 2 m with
      | Some player, Some command => Some (player, command, group 3 m)
      | _, _ => None
      end
  | None => None
  end.

(** Groups 1 to 4 of a position match; all four take part in every match. *)
Definition position_match (line : string) : option (string * string * string * string) :=
  match search position_re line with
  | Some m =>
      match group 1 m, group 2 m, group 3 m, group 4 m with
      | Some player, Some x, Some y, Some z => Some (player, x, y, z)
      | _, _, _, _ => None
      end
  | None => None
  end.

(** [args_str.split() if args_str else []] *)
Definition split_args (args_str : option string) : list string :=
  match args_str with
  | Some a => if Str.is_empty a then [] else Str.split a
  | None => []
  end.

(** The body of [if match := re.search(position pattern, line)]. *)
Definition handle_position (player x y z : string) : M unit :=
  ph <- gets pending_homes ;;
  if StrSet.mem player ph then
    modify (fun s => with_homes (Dict.set player (coords x y z) (homes s)) s) ;;
    modify (fun s => with_pending_homes (StrSet.remove player (pending_homes s)) s) ;;
    save_homes ;;
    send_message player
      (sect ++ "aHome set at " ++ sect ++ "eX:" ++ x ++ " " ++ sect ++ "aY:" ++ y
       ++ " " ++ sect ++ "aZ:" ++ z)
  else
    pw <- gets pending_warps ;;
    match Dict.get player pw with
    | Some warp_name =>
        modify (fun s => with_pending_warps (Dict.remove player (pending_warps s)) s) ;;
        modify (fun s => with_warps (Dict.set warp_name (coords x y z) (warps s)) s) ;;
        save_warps ;;
        send_message player
          (sect ++ "aWarp '" ++ warp_name ++ "' set at " ++ sect ++ "eX:" ++ x
           ++ " " ++ sect ++ "aY:" ++ y ++ " " ++ sect ++ "aZ:" ++ z)
    | None => ret tt
    end.

(** One turn of the loop of [handle_output], for the line [raw] as decoded
    from the server's standard output. *)
Definition handle_line (raw : string) : M unit :=
  let line := Str.strip raw in
  if Str.is_empty line then ret tt
  else
    log INFO (ServerLine line) ;;
    match chat_match line with
    | Some (player, command, args_str) =>
        let args := split_args args_str in
        log INFO (ProcessingCommand player command args) ;;
        handle_command player command args
    | None => ret tt
    end ;;
    match position_match line with
    | Some (player, x, y, z) => handle_position player x y z
    | None => ret tt
    end.

(** [(await self.process.stdout.readline()).decode()], for what the read
    comes to: the line as text, or the exception of [readline] (a line
    longer than the limit of the stream) or of [decode] (bytes that are not
    UTF-8). *)
Definition readline_decode (read : result string) : M string :=
  fun s => (read, s).

(** [handle_output] over the reads of the server's standard output before
    its end of file.  Nothing catches the exception of a read: it ends the
    loop. *)
Definition handle_output (reads : list (result string)) : M unit :=
  for_each reads (fun read =>
    raw <- readline_decode read ;;
    handle_line raw).

(** The state [CommandHandler.__init__] sets up, in a given world. *)
Definition init (homes_csv warps_csv : option (list row)) (now : Q)
           (draws : list Z) : state :=
  mkState [] [] [] [] [] homes_csv warps_csv None None now [] draws [].

(* ================================================================= *)
(** ** The vocabulary of the properties *)

(** *** States and messages *)

(** The state after the effects [es] have been added to the trace.  The
    [msg_] texts below are the messages as the commands word them. *)
Definition said (es : list effect) (s : state) : state :=
  with_trace (trace s ++ es)%list s.

(** What the server's console must be sent for [addressee] to be shown
    [text]: the command [tellraw], the addressee, and the text as a JSON
    text component. *)
Definition notice (addressee text : string) : string :=
  "tellraw " ++ addressee ++ " {" ++ Str.dquote ++ "text" ++ Str.dquote ++ ":"
  ++ Str.dquote ++ text ++ Str.dquote ++ "}".

Definition msg_self : string := sect ++ "cYou cannot teleport to yourself!".
Definition msg_duplicate (target : string) : string :=
  sect ++ "cYou already have a pending request to " ++ target ++ "!".
Definition msg_sent (target : string) : string :=
  sect ++ "aTeleport request sent to " ++ target ++ "!".
Definition msg_requested (player : string) : string :=
  sect ++ "e" ++ player ++ " " ++ sect
  ++ "ahas requested to teleport to you. Use " ++ sect
  ++ "e.tpaccept " ++ sect ++ "aor " ++ sect ++ "e.tpdeny".
Definition msg_no_pending : string := sect ++ "cNo pending teleport requests!".

Definition msg_accepted (requester : string) : string :=
  sect ++ "aAccepted " ++ requester ++ "'s teleport request!".
Definition msg_was_accepted (target : string) : string :=
  sect ++ "e" ++ target ++ " " ++ sect ++ "ahas accepted your teleport request!".
Definition msg_denied (requester : string) : string :=
  sect ++ "cDenied " ++ requester ++ "'s teleport request!".
Definition msg_was_denied (target : string) : string :=
  sect ++ "e" ++ target ++ " " ++ sect ++ "cdenied your teleport request!".

Definition msg_unknown (command : string) : string :=
  sect ++ "cUnknown command: ." ++ command.
Definition msg_error (e : exn) : string := sect ++ "cError: " ++ str_exn e.

Definition msg_expired_to (target : string) : string :=
  sect ++ "cYour TPA request to " ++ target ++ " has expired.".
Definition msg_expired_from (requester : string) : string :=
  sect ++ "cTPA request from " ++ requester ++ " has expired.".

Definition msg_home_set (x y z : string) : string :=
  sect ++ "aHome set at " ++ sect ++ "eX:" ++ x ++ " " ++ sect ++ "aY:" ++ y
  ++ " " ++ sect ++ "aZ:" ++ z.
Definition msg_warp_set (warp_name x y z : string) : string :=
  sect ++ "aWarp '" ++ warp_name ++ "' set at " ++ sect ++ "eX:" ++ x
  ++ " " ++ sect ++ "aY:" ++ y ++ " " ++ sect ++ "aZ:" ++ z.
Definition msg_warped (warp_name : string) : string :=
  sect ++ "aTeleported to warp '" ++ warp_name ++ "'!".

(** What the sweep sends for one expired request. *)
Definition expiry_notices (entry : string * (string * Q)) : list effect :=
  let '(target, (requester, _)) := entry in
  [Exec (notice requester (msg_expired_to target));
   Exec (notice target (msg_expired_from requester))].

(** What [save_homes] and [save_warps] log: the error that stopped them. *)
Definition save_log (make : exn -> record) (e : option exn) : list effect :=
  match e with
  | Some e => [Log ERROR (make e)]
  | None => []
  end.

(** The commands sent to the console so far. *)
Definition console (s : state) : list string :=
  flat_map (fun e => match e with Exec c => [c] | _ => [] end) (trace s).

(** *** The dispatcher *)

(** The commands whose method takes the player and nothing else. *)
Definition player_only_commands : list string :=
  ["home"; "sethome"; "tpaccept"; "tpdeny"; "warps"; "spawn"; "rtp"; "help"].

Definition too_many_arguments (command : string) (args : list string) : exn :=
  TypeError ("CommandHandler.cmd_" ++ command
             ++ "() takes 2 positional arguments but "
             ++ Str.of_nat (2 + List.length args) ++ " were given").

(** The method behind a player-only command. *)
Definition player_only_body (command : string) : string -> M unit :=
  match command with
  | "home" => cmd_home
  | "sethome" => cmd_sethome
  | "tpaccept" => cmd_tpaccept
  | "tpdeny" => cmd_tpdeny
  | "warps" => cmd_warps
  | "spawn" => cmd_spawn
  | "rtp" => cmd_rtp
  | _ => cmd_help
  end.

(** *** The sweep *)

(** [del d[k]] for each key of [ks] in turn. *)
Definition remove_keys {V : Type} (ks : list string) (d : Dict.t V) : Dict.t V :=
  fold_left (fun d k => Dict.remove k d) ks d.

(** The time the sweep reads when it wakes up in [s]. *)
Definition wake_up (s : state) : Q := (clock s + 10 + hd 0 (lags s))%Q.

(** The state one turn of the sweep leaves: the requests that are expired
    when it wakes up are gone, in one go, and the notices are sent. *)
Definition swept (s : state) : state :=
  let now := wake_up s in
  said (Sleep 10 :: flat_map expiry_notices (filter (tpa_expired now) (tpa_requests s)))
       (with_tpa_requests
          (filter (fun e => negb (tpa_expired now e)) (tpa_requests s))
          (with_lags (tl (lags s)) (with_clock now s))).


(** The seconds of the sleeps of a trace, oldest first. *)
Definition sleeps (es : list effect) : list Q :=
  flat_map (fun e => match e with Sleep seconds => [seconds] | _ => [] end) es.

(** *** The data model of the warps *)

(** A part of a coordinate string or an argument: some text without white
    space. *)
Definition is_token (t : string) : bool :=
  negb (Str.is_empty t) && Str.all_chars (fun c => negb (Str.is_space c)) t.

(** A coordinate string: three parts without white space, joined by single
    spaces, as [handle_output] and [load_warps] build them. *)
Definition is_coord (pos : string) : bool :=
  match Str.split pos with
  | [x; y; z] => pos =? coords x y z
  | _ => false
  end.

(** The entries [save_warps] writes: all but a [spawn] at its default. *)
Definition persisted (entry : string * string) : bool :=
  negb ((fst entry =? "spawn") && (snd entry =? spawn_point)).

(** The row of an entry. *)
Definition row_of (entry : string * string) : row :=
  fst entry :: Str.split (snd entry).

Definition well_formed_warps (w : Dict.t string) : Prop :=
  Dict.wf w
  /\ forall name pos, In (name, pos) w ->
       Str.lower name = name /\ is_coord pos = true.

(** A text without carriage return: one that a file read in text mode gives
    back as it was written. *)
Definition no_cr (t : string) : bool :=
  Str.all_chars (fun c => negb (Str.code c =? 13)%nat) t.

(** The warp mappings that a file gives back: of the data model, and with
    no carriage return in a name. *)
Definition storable_warps (w : Dict.t string) : Prop :=
  well_formed_warps w /\ forall name, In name (Dict.keys w) -> no_cr name = true.

(** The reads that give the lines [texts], one after the other. *)
Definition as_read (texts : list string) : list (result string) := map Val texts.

(** The lines read before the first read that fails, and the exception of
    that read, if there is one. *)
Fixpoint lines_read (reads : list (result string)) : list string :=
  match reads with
  | Val raw :: rest => raw :: lines_read rest
  | _ => []
  end.

Fixpoint first_failure (reads : list (result string)) : option exn :=
  match reads with
  | [] => None
  | Val _ :: rest => first_failure rest
  | Raise e :: _ => Some e
  end.

(** A read that gives a line of white space only. *)
Definition blank_read (read : result string) : bool :=
  match read with
  | Val raw => Str.all_chars Str.is_space raw
  | Raise _ => false
  end.

(** The state a new process starts in, in the world that [s] leaves. *)
Definition restart (s : state) : state :=
  mkState [] [] [] [] [] (homes_file s) (warps_file s) (homes_fault s)
          (warps_fault s) (clock s) (lags s) (dice s) [].

(** What [save_homes] needs to write every home: each splits into three
    parts. *)
Definition homes_writable (h : Dict.t string) : Prop :=
  forall player pos, In (player, pos) h -> List.length (Str.split pos) = 3%nat.

(** A homes.csv written by hand: the second field of its row holds two
    numbers. *)
Definition hand_made_homes : list row := [["Amy"; "1 2"; "3"; "4"]].

(** A warps.csv written by hand: the second field of its first row holds
    two numbers. *)
Definition hand_made_warps : list row :=
  [["hub"; "1 2"; "3"; "4"]; ["late"; "7"; "8"; "9"]].

(** The rows of a warp file that load into coordinates. *)
Definition good_row (r : row) : Prop :=
  match r with
  | [_; x; y; z] => is_token x = true /\ is_token y = true /\ is_token z = true
  | _ => True
  end.

(** The invariant: every dict is a dict, and the warps, stored or pending,
    are of the data model. *)
Definition data_model (s : state) : Prop :=
  Dict.wf (homes s)
  /\ well_formed_warps (warps s)
  /\ Dict.wf (pending_warps s)
  /\ (forall player name, In (player, name) (pending_warps s) ->
        Str.lower name = name)
  /\ Dict.wf (tpa_requests s).

(** *** Events *)

(** What a line of the server's output can stand for. *)
Inductive event : Type :=
| ChatCommand (player name : string) (args : list string)
| PositionResponse (player x y z : string).

Definition is_chat_command (e : event) : bool :=
  match e with ChatCommand _ _ _ => true | PositionResponse _ _ _ _ => false end.

(** The events [handle_output] acts on for one stripped line: the two [if]s
    of its loop, in their order. *)
Definition classify (line : string) : list event :=
  (match chat_match line with
   | Some (player, command, args_str) =>
       [ChatCommand player command (split_args args_str)]
   | None => []
   end
   ++
   match position_match line with
   | Some (player, x, y, z) => [PositionResponse player x y z]
   | None => []
   end)%list.

(** The body of the [if] that recognised the event. *)
Definition handle_event (e : event) : M unit :=
  match e with
  | ChatCommand player command args =>
      log INFO (ProcessingCommand player command args) ;;
      handle_command player command args
  | PositionResponse player x y z => handle_position player x y z
  end.

(** *** Patterns *)

Definition not_lt (c : ascii) : bool := negb (Ascii.eqb c "<").

(** Group 3 on the text [tail] that follows the command word. *)
Definition argument_text (tail : string) : option string :=
  if Str.stops Str.is_space tail then None
  else Some (Str.take_while Str.is_dot (Str.lstrip tail)).

Module Groups.

(** The groups of [r] outside every optional part. *)
Fixpoint sure (r : regex) : list nat :=
  match r with
  | Lit _ | Plus _ | Star _ | Opt _ => []
  | Cat r1 r2 => (sure r1 ++ sure r2)%list
  | Group n r' => n :: sure r'
  end.

Definition bound (n : nat) (g : captures) : Prop := group n g <> None.

End Groups.

Module Alphabet.

Fixpoint mem_char (c : ascii) (l : string) : bool :=
  match l with
  | EmptyString => false
  | String a l' => Ascii.eqb a c || mem_char c l'
  end.

(** The characters a match of [r] can be made of. *)
Fixpoint alphabet (r : regex) (c : ascii) : bool :=
  match r with
  | Lit l => mem_char c l
  | Plus p | Star p => p c
  | Opt r' | Group _ r' => alphabet r' c
  | Cat r1 r2 => alphabet r1 c || alphabet r2 c
  end.

(** [r] matches no empty text. *)
Fixpoint never_empty (r : regex) : bool :=
  match r with
  | Lit l => negb (Str.is_empty l)
  | Plus _ => true
  | Star _ | Opt _ => false
  | Cat r1 r2 => never_empty r1 || never_empty r2
  | Group _ r' => never_empty r'
  end.

(** The groups of [r], each with its pattern. *)
Fixpoint groups (r : regex) : list (nat * regex) :=
  match r with
  | Lit _ | Plus _ | Star _ => []
  | Opt r' => groups r'
  | Cat r1 r2 => (groups r1 ++ groups r2)%list
  | Group n r' => (n, r') :: groups r'
  end.

Definition fits (r : regex) (w : string) : Prop :=
  Str.all_chars (alphabet r) w = true /\ (never_empty r = true -> w <> EmptyString).

(** Every binding holds a text that fits its group of [R]. *)
Definition good (R : regex) (g : captures) : Prop :=
  forall n v, In (n, v) g -> exists r', In (n, r') (groups R) /\ fits r' v.

End Alphabet.

(** *** Concrete lines and states *)

(** A line that is a chat command and a position report at once. *)
Definition chat_and_position_line : string :=
  "<Bob> .warp spawn Bob has the following entity data: [1d, 2d, 3d]".

(** A chat line as the server prints it, with the line's end. *)
Definition tpa_line : string :=
  "[12:00:01] [Server thread/INFO]: <Bob> .tpa Amy   now " ++ String (ascii_of_nat 10) EmptyString.

(** A world without files, at time 100. *)
Definition fresh : state := init None None 100 [].

(** Bob waits for a home and for the warp [hub]. *)
Definition bob_waits_twice : state :=
  with_pending_warps [("Bob", "hub")] (with_pending_homes ["Bob"] fresh).

(** Bob owes an answer to Cid, who asked at time 90. *)
Definition cid_asked_bob : state :=
  with_tpa_requests [("Bob", ("Cid", 90%Q))] fresh.

(** At time 25, Amy's request to Bob dates from time 0 and Dan's request to
    Cid from time 25; the sweep wakes up at time 35. *)
Definition two_requests : state :=
  with_tpa_requests [("Bob", ("Amy", 0%Q)); ("Cid", ("Dan", 25%Q))]
                    (init None None 25 []).

(** A spawn at its default and a town. *)
Definition some_warps : Dict.t string :=
  [("spawn", "0 64 -3"); ("town", "1.5 64.0 -3.25")].

(** *** What a command can touch *)

(** The most a command sent by [player] changes between [s] and [s']: the
    trace and the random draws freely; the pending sets and the requests by
    one entry of the player; the homes, the warps, the files and the clock
    not at all. *)
Definition footprint (player : string) (s s' : state) : Prop :=
  homes s' = homes s /\ warps s' = warps s
  /\ homes_file s' = homes_file s /\ warps_file s' = warps_file s
  /\ clock s' = clock s
  /\ (pending_homes s' = pending_homes s
      \/ pending_homes s' = StrSet.add player (pending_homes s))
  /\ (pending_warps s' = pending_warps s
      \/ exists name,
           pending_warps s' = Dict.set player (Str.lower name) (pending_warps s))
  /\ (tpa_requests s' = tpa_requests s
      \/ tpa_requests s' = Dict.remove player (tpa_requests s)
      \/ exists target,
           target <> player
           /\ tpa_requests s'
              = Dict.set target (player, clock s) (tpa_requests s)).

(** The commands that only look things up. *)
Definition lookup_commands : list string :=
  ["home"; "warp"; "warps"; "spawn"; "help"].

(** No request was made by the player it is stored for. *)
Definition no_self_request (s : state) : Prop :=
  forall target requester stamp,
    In (target, (requester, stamp)) (tpa_requests s) -> requester <> target.

(** The characters of a number of a position report. *)
Definition is_number_char (c : ascii) : bool :=
  Str.is_digit c || Ascii.eqb c "-" || Ascii.eqb c ".".

(** A row of four fields, the only kind the loaders read. *)
Definition four_fields (r : row) : bool := (List.length r =? 4)%nat.

(** Homes of which two are three parts and one, in the middle, is not. *)
Definition homes_with_a_bad_one : Dict.t string :=
  [("Amy", "1 2 3"); ("Bob", "1 2"); ("Cid", "4 5 6")].

(** Every home and every warp of [s] is still one of [s']. *)
Definition keeps_records (s s' : state) : Prop :=
  (forall player, Dict.mem player (homes s) = true ->
                  Dict.mem player (homes s') = true)
  /\ (forall name, Dict.mem name (warps s) = true ->
                   Dict.mem name (warps s') = true).

(** *** The journal of a run *)

(** The effects other than the two records that [handle_output] itself
    writes for a line: the line, and the command found in it. *)
Definition unmarked (e : effect) : Prop :=
  match e with
  | Log _ (ServerLine _) | Log _ (ProcessingCommand _ _ _) => False
  | _ => True
  end.

(** The records of the lines read and of the commands found, oldest
    first. *)
Definition journal (es : list effect) : list record :=
  flat_map (fun e => match e with
                     | Log _ (ServerLine l) => [ServerLine l]
                     | Log _ (ProcessingCommand p c a) => [ProcessingCommand p c a]
                     | _ => []
                     end) es.

(** What one line adds to the journal. *)
Definition line_journal (raw : string) : list record :=
  let line := Str.strip raw in
  if Str.is_empty line then []
  else ServerLine line
       :: match chat_match line with
          | Some (player, command, args_str) =>
              [ProcessingCommand player command (split_args args_str)]
          | None => []
          end.

(** A computation that only adds unmarked effects to the trace. *)
Definition quiet {A} (m : M A) : Prop :=
  forall s, exists es,
    trace (snd (m s)) = (trace s ++ es)%list /\ Forall unmarked es.

(* ================================================================= *)
(** ** Properties of the containers *)

Module DictFacts.
Import Dict.

Section WithValues.
Context {V : Type}.
Implicit Types (d : Dict.t V) (k : string) (v : V).

Lemma get_set_eq k v d : get k (set k v d) = Some v.
Proof.
  induction d as [|[k' v'] d IH]; simpl.
  - now rewrite String.eqb_refl.
  - destruct (k =? k') eqn:E; simpl; rewrite ?E; auto.
Qed.

Lemma get_set_neq k k' v d : k <> k' -> get k' (set k v d) = get k' d.
Proof.
  intros N. induction d as [|[k0 v0] d IH]; simpl.
  - apply String.eqb_neq in N. rewrite String.eqb_sym in N. now rewrite N.
  - destruct (k =? k0) eqn:E; simpl; rewrite ?IH; auto.
    apply String.eqb_eq in E. subst k0.
    assert ((k' =? k) = false) as -> by (apply String.eqb_neq; congruence).
    reflexivity.
Qed.

Lemma get_remove_eq k d : get k (remove k d) = None.
Proof.
  induction d as [|[k' v'] d IH]; simpl; auto.
  destruct (k =? k') eqn:E; simpl; rewrite ?E; auto.
Qed.

Lemma get_remove_neq k k' d : k <> k' -> get k' (remove k d) = get k' d.
Proof.
  intros N. induction d as [|[k0 v0] d IH]; simpl; auto.
  destruct (k =? k0) eqn:E; simpl; rewrite ?IH; auto.
  apply String.eqb_eq in E. subst k0.
  assert ((k' =? k) = false) as -> by (apply String.eqb_neq; congruence).
  reflexivity.
Qed.

Lemma mem_get k d : mem k d = true <-> exists v, get k d = Some v.
Proof.
  unfold mem. destruct (get k d); split; eauto; try discriminate.
  intros [v H]; discriminate.
Qed.

Lemma get_None_notin k d : get k d = None <-> ~ In k (keys d).
Proof.
  induction d as [|[k' v'] d IH]; simpl.
  - tauto.
  - destruct (k =? k') eqn:E.
    + apply String.eqb_eq in E. subst. split; [discriminate | tauto].
    + apply String.eqb_neq in E. rewrite IH. intuition congruence.
Qed.

Lemma get_In k v d : get k d = Some v -> In (k, v) d.
Proof.
  induction d as [|[k' v'] d IH]; simpl; [discriminate|].
  destruct (k =? k') eqn:E; auto.
  apply String.eqb_eq in E. subst. intros [= ->]. now left.
Qed.

(** In a well-formed dict every binding is the one lookup finds. *)
Lemma In_get k v d : wf d -> In (k, v) d -> get k d = Some v.
Proof.
  unfold wf. induction d as [|[k' v'] d IH]; simpl; [tauto|].
  intros W [E | I].
  - injection E as -> ->. now rewrite String.eqb_refl.
  - inversion W as [|? ? N W']; subst.
    destruct (k =? k') eqn:E; auto.
    apply String.eqb_eq in E. subst k'. exfalso. apply N.
    change k with (fst (k, v)). now apply in_map.
Qed.

Lemma keys_set_new k v d :
  get k d = None -> keys (set k v d) = (keys d ++ [k])%list.
Proof.
  induction d as [|[k' v'] d IH]; simpl; auto.
  destruct (k =? k'); [discriminate|]. intros H. simpl. now rewrite IH.
Qed.

Lemma keys_set_old k v v0 d :
  get k d = Some v0 -> keys (set k v d) = keys d.
Proof.
  induction d as [|[k' v'] d IH]; simpl; [discriminate|].
  destruct (k =? k') eqn:E; simpl; auto. intros H. now rewrite IH.
Qed.

(** The invariant of a Python dict, kept by every operation. *)
Lemma wf_set k v d : wf d -> wf (set k v d).
Proof.
  unfold wf. intros W. destruct (get k d) as [v0|] eqn:G.
  - now rewrite (keys_set_old _ _ _ _ G).
  - rewrite (keys_set_new _ _ _ G).
    apply get_None_notin in G. apply NoDup_app.
    + assumption.
    + constructor; [simpl; tauto | constructor].
    + intros x I [<- | []]. contradiction.
Qed.

Lemma wf_filter (f : string * V -> bool) d : wf d -> wf (filter f d).
Proof.
  unfold wf. induction d as [|kv d IH]; simpl; auto.
  intros W. inversion W as [|? ? N W']; subst.
  destruct (f kv); simpl; auto. constructor; auto.
  intros I. apply N. unfold keys in *. apply in_map_iff in I.
  destruct I as [x [E I]]. apply filter_In in I. rewrite <- E.
  apply in_map. tauto.
Qed.

Lemma wf_remove k d : wf d -> wf (remove k d).
Proof. apply wf_filter. Qed.

End WithValues.
End DictFacts.

Module StrSetFacts.
Import StrSet.

Lemma mem_remove_eq x s : mem x (remove x s) = false.
Proof.
  unfold mem, remove. induction s as [|y s IH]; simpl; auto.
  destruct (x =? y) eqn:E; simpl; rewrite ?E; auto.
Qed.

Lemma mem_remove_neq x y s : x <> y -> mem y (remove x s) = mem y s.
Proof.
  intros N. unfold mem, remove. induction s as [|z s IH]; simpl; auto.
  destruct (x =? z) eqn:E; simpl; rewrite IH; auto.
  apply String.eqb_eq in E. subst z.
  assert ((y =? x) = false) as -> by (apply String.eqb_neq; congruence).
  reflexivity.
Qed.

Lemma mem_add_eq x s : mem x (add x s) = true.
Proof.
  unfold add. destruct (mem x s) eqn:E; auto.
  unfold mem. simpl. now rewrite String.eqb_refl.
Qed.

End StrSetFacts.

(* ================================================================= *)
(** ** The teleport-consent commands *)

Lemma said_nil s : said [] s = s.
Proof. unfold said. rewrite app_nil_r. now destruct s. Qed.

Lemma said_said es1 es2 s : said es2 (said es1 s) = said (es1 ++ es2)%list s.
Proof. unfold said, with_trace. simpl. now rewrite app_assoc. Qed.

Ltac run_m :=
  unfold time, sleep, send_message, execute, log, emit, modify, gets, bind, ret,
    raise.

Ltac state_eq :=
  unfold said, with_homes, with_warps, with_pending_homes, with_pending_warps,
    with_tpa_requests, with_homes_file, with_warps_file, with_homes_fault,
    with_warps_fault, with_clock, with_lags, with_dice, with_trace;
  cbn [homes warps pending_homes pending_warps tpa_requests homes_file
       warps_file homes_fault warps_fault clock lags dice trace];
  rewrite <- ?app_assoc; reflexivity.

Lemma send_message_run player message s :
  send_message player message s = (Val tt, said [Exec (tellraw player message)] s).
Proof. reflexivity. Qed.

Lemma execute_run command s : execute command s = (Val tt, said [Exec command] s).
Proof. reflexivity. Qed.

Lemma log_run lvl r s : log lvl r s = (Val tt, said [Log lvl r] s).
Proof. reflexivity. Qed.

Lemma bind_run {A B} (m : M A) (k : A -> M B) s a s' :
  m s = (Val a, s') -> bind m k s = k a s'.
Proof. unfold bind. now intros ->. Qed.

Lemma bind_raise {A B} (m : M A) (k : A -> M B) s e s' :
  m s = (Raise e, s') -> bind m k s = (Raise e, s').
Proof. unfold bind. now intros ->. Qed.

(** C3. A teleport request from [requester] to [target]: refused with a
    message to the requester, the state otherwise untouched, when the two
    are the same player or when [target] already holds a request from
    [requester]; in every other case the request [(requester, now)] is
    stored under [target], taking the place of a request from anybody else,
    and both players are told: the console is sent the [tellraw] command
    that shows the requester that the request is sent, then the one that
    shows the target who asks and how to answer. *)
Theorem tpa_request_cases (requester target : string) (more : list string) (s : state) :
  (target = requester ->
     cmd_tpa requester (target :: more) s
     = (Val tt, said [Exec (notice requester msg_self)] s))
  /\ (target <> requester ->
      forall stamp, Dict.get target (tpa_requests s) = Some (requester, stamp) ->
      cmd_tpa requester (target :: more) s
      = (Val tt, said [Exec (notice requester (msg_duplicate target))] s))
  /\ (target <> requester ->
      (forall stamp, Dict.get target (tpa_requests s) <> Some (requester, stamp)) ->
      let s' := said [Exec (notice requester (msg_sent target));
                      Exec (notice target (msg_requested requester))]
                  (with_tpa_requests
                     (Dict.set target (requester, clock s) (tpa_requests s)) s) in
      cmd_tpa requester (target :: more) s = (Val tt, s')
      /\ Dict.get target (tpa_requests s') = Some (requester, clock s)
      /\ (forall other, other <> target ->
            Dict.get other (tpa_requests s') = Dict.get other (tpa_requests s))).
Proof.
  split; [|split].
  - intros ->. unfold cmd_tpa. now rewrite String.eqb_refl.
  - intros N stamp G. unfold cmd_tpa.
    apply String.eqb_neq in N. rewrite N.
    unfold bind, gets. rewrite G. now rewrite String.eqb_refl.
  - intros N Fresh s'. split; [|split].
    + unfold cmd_tpa. apply String.eqb_neq in N. rewrite N.
      unfold bind, gets.
      assert (D : match Dict.get target (tpa_requests s) with
                  | Some (existing_requester, _) => existing_requester =? requester
                  | None => false
                  end = false).
      { destruct (Dict.get target (tpa_requests s)) as [[r t]|] eqn:G; auto.
        apply String.eqb_neq. intros ->. now apply (Fresh t). }
      rewrite D. subst s'. run_m. state_eq.
    + apply DictFacts.get_set_eq.
    + intros other O. apply DictFacts.get_set_neq. congruence.
Qed.

Lemma said_inj es1 es2 s1 s2 :
  trace s1 = trace s2 -> said es1 s1 = said es2 s2 -> es1 = es2.
Proof.
  intros T E. apply (f_equal trace) in E. unfold said in E. simpl in E.
  rewrite T in E. now apply app_inv_head in E.
Qed.

Lemma pop_tpa_request_run target v s :
  Dict.get target (tpa_requests s) = Some v ->
  pop_tpa_request target s
  = (Val v, with_tpa_requests (Dict.remove target (tpa_requests s)) s).
Proof. intros G. unfold pop_tpa_request. run_m. now rewrite G. Qed.

Lemma cmd_tpaccept_missing target s :
  Dict.get target (tpa_requests s) = None ->
  cmd_tpaccept target s = (Val tt, said [Exec (tellraw target msg_no_pending)] s).
Proof. intros G. unfold cmd_tpaccept, Dict.mem. run_m. now rewrite G. Qed.

Lemma cmd_tpdeny_missing target s :
  Dict.get target (tpa_requests s) = None ->
  cmd_tpdeny target s = (Val tt, said [Exec (tellraw target msg_no_pending)] s).
Proof. intros G. unfold cmd_tpdeny, Dict.mem. run_m. now rewrite G. Qed.

Lemma cmd_tpaccept_run target requester stamp s :
  Dict.get target (tpa_requests s) = Some (requester, stamp) ->
  cmd_tpaccept target s
  = (Val tt,
     said [Exec ("tp " ++ requester ++ " " ++ target);
           Exec (tellraw target (msg_accepted requester));
           Exec (tellraw requester (msg_was_accepted target))]
          (with_tpa_requests (Dict.remove target (tpa_requests s)) s)).
Proof.
  intros G. unfold cmd_tpaccept, Dict.mem, pop_tpa_request. run_m.
  repeat first [rewrite G | progress cbv beta iota delta [negb]].
  f_equal. state_eq.
Qed.

Lemma cmd_tpdeny_run target requester stamp s :
  Dict.get target (tpa_requests s) = Some (requester, stamp) ->
  cmd_tpdeny target s
  = (Val tt,
     said [Exec (tellraw target (msg_denied requester));
           Exec (tellraw requester (msg_was_denied target))]
          (with_tpa_requests (Dict.remove target (tpa_requests s)) s)).
Proof.
  intros G. unfold cmd_tpdeny, Dict.mem, pop_tpa_request. run_m.
  repeat first [rewrite G | progress cbv beta iota delta [negb]].
  f_equal. state_eq.
Qed.

(** C4. Answering a teleport request.  With no request stored for
    [target], accepting and denying only tell [target] that nothing is
    pending.  With a request from [requester] stored, both remove it and
    tell the two players, each with a [tellraw] command of their own sent to
    the console, the target first; accepting first sends the teleport of
    [requester] to [target]; the outcome is then never the one of the
    failure. *)
Theorem tpa_answer_cases (target : string) (s : state) :
  let failed := said [Exec (notice target msg_no_pending)] s in
  (Dict.get target (tpa_requests s) = None ->
     cmd_tpaccept target s = (Val tt, failed)
     /\ cmd_tpdeny target s = (Val tt, failed))
  /\ (forall requester stamp,
        Dict.get target (tpa_requests s) = Some (requester, stamp) ->
        let s' := with_tpa_requests (Dict.remove target (tpa_requests s)) s in
        let accepted :=
          said [Exec ("tp " ++ requester ++ " " ++ target);
                Exec (notice target (msg_accepted requester));
                Exec (notice requester (msg_was_accepted target))] s' in
        let denied :=
          said [Exec (notice target (msg_denied requester));
                Exec (notice requester (msg_was_denied target))] s' in
        cmd_tpaccept target s = (Val tt, accepted)
        /\ cmd_tpdeny target s = (Val tt, denied)
        /\ Dict.get target (tpa_requests s') = None
        /\ (forall other, other <> target ->
              Dict.get other (tpa_requests s') = Dict.get other (tpa_requests s))
        /\ accepted <> failed /\ denied <> failed).
Proof.
  intros failed. split.
  - intros G. split.
    + now apply cmd_tpaccept_missing.
    + now apply cmd_tpdeny_missing.
  - intros requester stamp G s' accepted denied.
    split; [|split; [|split; [|split; [|split]]]].
    + now apply (cmd_tpaccept_run target requester stamp).
    + now apply (cmd_tpdeny_run target requester stamp).
    + apply DictFacts.get_remove_eq.
    + intros other O. apply DictFacts.get_remove_neq. congruence.
    + intros E. apply said_inj in E; [discriminate | reflexivity].
    + intros E. apply said_inj in E; [discriminate | reflexivity].
Qed.

(* ================================================================= *)
(** ** The dispatcher *)

Lemma handle_command_unknown player command args s :
  getattr_cmd ("cmd_" ++ command) = None ->
  handle_command player command args s
  = (Val tt, said [Exec (tellraw player (msg_unknown command))] s).
Proof. unfold handle_command. now intros ->. Qed.

Lemma handle_command_raised player command args s h e s1 :
  getattr_cmd ("cmd_" ++ command) = Some h ->
  h player args s = (Raise e, s1) ->
  handle_command player command args s
  = (Val tt, said [Exec (tellraw player (msg_error e));
                   Log ERROR (CommandError e)] s1).
Proof.
  unfold handle_command. intros -> R. unfold try_except. rewrite R.
  run_m. f_equal. state_eq.
Qed.

Lemma handle_command_returned player command args s h s1 :
  getattr_cmd ("cmd_" ++ command) = Some h ->
  h player args s = (Val tt, s1) ->
  handle_command player command args s = (Val tt, s1).
Proof.
  unfold handle_command. intros -> R. unfold try_except. now rewrite R.
Qed.

Lemma handle_command_total player command args s :
  fst (handle_command player command args s) = Val tt.
Proof.
  unfold handle_command.
  destruct (getattr_cmd ("cmd_" ++ command)) as [h|]; [|reflexivity].
  unfold try_except. destruct (h player args s) as [[[]|e] s1]; reflexivity.
Qed.

(** C8. The dispatcher always returns normally.  For a command without
    handler the player is told so and nothing else happens; when the
    handler raises [e], having brought the state to [s1], the player is sent
    the error message and the error is logged, on top of [s1]. *)
Theorem handle_command_contains_failures
        (player command : string) (args : list string) (s : state) :
  fst (handle_command player command args s) = Val tt
  /\ (getattr_cmd ("cmd_" ++ command) = None ->
      handle_command player command args s
      = (Val tt, said [Exec (tellraw player (msg_unknown command))] s))
  /\ (forall h e s1,
        getattr_cmd ("cmd_" ++ command) = Some h ->
        h player args s = (Raise e, s1) ->
        handle_command player command args s
        = (Val tt, said [Exec (tellraw player (msg_error e));
                         Log ERROR (CommandError e)] s1)).
Proof.
  split; [|split].
  - apply handle_command_total.
  - apply handle_command_unknown.
  - intros h e s1. apply handle_command_raised.
Qed.

Lemma player_only_getattr command :
  In command player_only_commands ->
  getattr_cmd ("cmd_" ++ command)
  = Some (player_only ("cmd_" ++ command) (player_only_body command)).
Proof.
  intros I. simpl in I.
  repeat (destruct I as [<- | I]; [reflexivity|]). destruct I.
Qed.

(** C10. A command whose method takes only the player, called with at
    least one argument: the call raises [TypeError] before the method runs,
    the dispatcher sends the error message and logs it, and the state keeps
    its homes, warps, pending sets and requests (all but the trace). *)
Theorem player_only_command_with_arguments
        (player command : string) (args : list string) (s : state) :
  In command player_only_commands ->
  args <> [] ->
  let e := too_many_arguments command args in
  let s' := said [Exec (tellraw player (msg_error e)); Log ERROR (CommandError e)] s in
  player_only ("cmd_" ++ command) (player_only_body command) player args s
  = (Raise e, s)
  /\ handle_command player command args s = (Val tt, s')
  /\ homes s' = homes s /\ warps s' = warps s
  /\ pending_homes s' = pending_homes s /\ pending_warps s' = pending_warps s
  /\ tpa_requests s' = tpa_requests s.
Proof.
  intros I A e s'. destruct args as [|a args]; [congruence|].
  split; [reflexivity|]. split; [|repeat split].
  apply handle_command_raised
    with (h := player_only ("cmd_" ++ command) (player_only_body command)).
  - now apply player_only_getattr.
  - reflexivity.
Qed.

(* ================================================================= *)
(** ** Rounding *)

Module FloatFacts.
Import Float.
Local Open Scope Q_scope.

















End FloatFacts.

(* ================================================================= *)
(** ** The expiry sweep *)

Lemma Qltb_lt x y : Qltb x y = true <-> (x < y)%Q.
Proof.
  unfold Qltb. rewrite negb_true_iff. split.
  - intros H. apply Qnot_le_lt. intros L. apply Qle_bool_iff in L. congruence.
  - intros L. destruct (Qle_bool y x) eqn:E; auto.
    apply Qle_bool_iff in E. now apply Qlt_not_le in L.
Qed.

Section Sweep.
Import Dict DictFacts.
Context {V : Type}.
Implicit Types (d : Dict.t V) (f : string * V -> bool).

Lemma filter_filter (f g : string * V -> bool) d :
  filter g (filter f d) = filter (fun kv => f kv && g kv) d.
Proof.
  induction d as [|kv d IH]; simpl; auto.
  destruct (f kv); simpl; rewrite IH; reflexivity.
Qed.

Lemma remove_keys_filter ks d :
  remove_keys ks d
  = filter (fun kv => negb (existsb (fun k => k =? fst kv) ks)) d.
Proof.
  revert d. induction ks as [|k ks IH]; intros d; simpl.
  - induction d as [|kv d IHd]; simpl; congruence.
  - rewrite IH. unfold remove. rewrite filter_filter.
    apply filter_ext. intros kv. now rewrite negb_orb.
Qed.

Lemma wf_unique d k v v' : wf d -> In (k, v) d -> In (k, v') d -> v = v'.
Proof.
  intros W I I'. apply (In_get _ _ _ W) in I. apply (In_get _ _ _ W) in I'.
  congruence.
Qed.

Lemma key_of_filter f d kv :
  wf d -> In kv d ->
  existsb (fun k => k =? fst kv) (keys (filter f d)) = f kv.
Proof.
  intros W I. destruct (f kv) eqn:F.
  - apply existsb_exists. exists (fst kv). split; [|apply String.eqb_refl].
    apply in_map. apply filter_In. tauto.
  - destruct (existsb _ _) eqn:E; auto. exfalso.
    apply existsb_exists in E. destruct E as [k [K E]].
    apply String.eqb_eq in E. apply in_map_iff in K.
    destruct K as [[k' v'] [E' K]]. apply filter_In in K. simpl in E'.
    destruct kv as [k0 v0]. simpl in E. subst k' k.
    destruct K as [K F']. rewrite (wf_unique d k0 v' v0 W K I) in F'.
    congruence.
Qed.

(** Deleting the keys selected by [f] leaves what [f] rejects. *)
Lemma remove_selected f d :
  wf d -> remove_keys (keys (filter f d)) d = filter (fun kv => negb (f kv)) d.
Proof.
  intros W. rewrite remove_keys_filter. apply filter_ext_in.
  intros kv I. now rewrite key_of_filter.
Qed.

Lemma get_filter f d k :
  wf d ->
  get k (filter f d)
  = match get k d with
    | Some v => if f (k, v) then Some v else None
    | None => None
    end.
Proof.
  unfold wf. induction d as [|[k' v'] d IH]; simpl; auto.
  intros W. inversion W as [|? ? N W']; subst.
  destruct (k =? k') eqn:E.
  - apply String.eqb_eq in E. subst k'.
    destruct (f (k, v')); simpl.
    + now rewrite String.eqb_refl.
    + apply get_None_notin. intros I. apply N. unfold keys in *.
      apply in_map_iff in I. destruct I as [x [Ex I]].
      apply filter_In in I. rewrite <- Ex. apply in_map. tauto.
  - destruct (f (k', v')); simpl; rewrite ?E; auto.
Qed.

End Sweep.

(** The second loop of the sweep, over the bindings [expired] it has
    selected: each is still in the dict when its turn comes. *)
Lemma expire_each (expired : Dict.t (string * Q)) (s : state) :
  Dict.wf expired ->
  (forall k v, In (k, v) expired -> Dict.get k (tpa_requests s) = Some v) ->
  for_each (Dict.keys expired) (fun target =>
    '(requester, _) <- pop_tpa_request target ;;
    send_message requester (sect ++ "cYour TPA request to " ++ target ++ " has expired.") ;;
    send_message target (sect ++ "cTPA request from " ++ requester ++ " has expired.")) s
  = (Val tt,
     said (flat_map expiry_notices expired)
          (with_tpa_requests (remove_keys (Dict.keys expired) (tpa_requests s)) s)).
Proof.
  revert s. induction expired as [|[target [requester stamp]] expired IH];
    intros s W G.
  - simpl. unfold ret. f_equal. destruct s. unfold said. simpl.
    now rewrite app_nil_r.
  - inversion W as [|? ? N W']; subst.
    simpl for_each. unfold bind at 1. unfold bind at 1.
    rewrite (pop_tpa_request_run target (requester, stamp) s)
      by (apply G; now left).
    run_m. cbv beta iota. rewrite IH; auto.
    + f_equal. simpl. state_eq.
    + intros k v I. simpl. rewrite DictFacts.get_remove_neq.
      * apply G. now right.
      * intros <-. apply N. change target with (fst (target, v)).
        now apply in_map.
Qed.

Lemma check_tpa_timeouts_turn_run (s : state) :
  Dict.wf (tpa_requests s) -> check_tpa_timeouts_turn s = (Val tt, swept s).
Proof.
  intros W. unfold check_tpa_timeouts_turn. run_m. cbv beta iota.
  rewrite expire_each.
  - f_equal. simpl tpa_requests. rewrite remove_selected by assumption.
    unfold swept. state_eq.
  - apply DictFacts.wf_filter, W.
  - intros k v I. apply filter_In in I. simpl.
    apply DictFacts.In_get; tauto.
Qed.

Lemma swept_wf s : Dict.wf (tpa_requests s) -> Dict.wf (tpa_requests (swept s)).
Proof. intros W. simpl. now apply DictFacts.wf_filter. Qed.

Lemma sweeps_wf turns s :
  Dict.wf (tpa_requests s) -> Dict.wf (tpa_requests (Nat.iter turns swept s)).
Proof.
  intros W. induction turns as [|n IH]; [exact W|].
  simpl Nat.iter. now apply swept_wf.
Qed.

(** The loop never stops on an exception: [turns] turns are [turns]
    sweeps. *)
Lemma check_tpa_timeouts_run (turns : nat) (s : state) :
  Dict.wf (tpa_requests s) ->
  check_tpa_timeouts turns s = (Val tt, Nat.iter turns swept s).
Proof.
  revert s. induction turns as [|n IH]; intros s W; [reflexivity|].
  rewrite Nat.iter_succ_r. simpl check_tpa_timeouts. unfold bind.
  rewrite check_tpa_timeouts_turn_run by assumption.
  apply IH. now apply swept_wf.
Qed.

Lemma get_swept target s :
  Dict.wf (tpa_requests s) ->
  Dict.get target (tpa_requests (swept s))
  = match Dict.get target (tpa_requests s) with
    | Some v => if tpa_expired (wake_up s) (target, v) then None else Some v
    | None => None
    end.
Proof.
  intros W. unfold swept. cbn [tpa_requests said with_trace with_tpa_requests].
  rewrite get_filter by assumption.
  destruct (Dict.get target (tpa_requests s)) as [v|]; auto.
  now destruct (tpa_expired _ _).
Qed.

(** The sleeps of a trace, oldest first. *)
Lemma sleeps_app es1 es2 : sleeps (es1 ++ es2) = (sleeps es1 ++ sleeps es2)%list.
Proof. unfold sleeps. apply flat_map_app. Qed.

Lemma sleeps_notices expired : sleeps (flat_map expiry_notices expired) = [].
Proof.
  induction expired as [|[target [requester stamp]] expired IH]; auto.
Qed.

Lemma sleeps_swept s : sleeps (trace (swept s)) = (sleeps (trace s) ++ [10%Q])%list.
Proof.
  unfold swept. simpl trace. rewrite sleeps_app. f_equal.
  change (Sleep 10 :: ?l) with ([Sleep 10] ++ l)%list.
  cbn [sleeps flat_map app]. now rewrite sleeps_notices.
Qed.

(** C5. One turn of the sweep, in a state whose request dict is a dict
    (no key twice).  The task sleeps 10 time units, reads the time [now], and
    then exactly the requests whose age exceeds the timeout of 30 are gone
    (strictly: [30 < now - stamp], the difference being the one the machine
    computes on the two readings of the clock), requester and target of
    each having been sent the expiry notice; the others stay as they were,
    in their order.  The loop goes on for ever: after [turns] turns it has
    slept [turns] times 10 time units and swept as many times, a request
    that a sweep took out stays out, and one that the last sweep finds
    expired is gone after it. *)
Theorem sweep_removes_expired (s : state) :
  Dict.wf (tpa_requests s) ->
  let now := (clock s + 10 + hd 0 (lags s))%Q in
  let expired := filter (tpa_expired now) (tpa_requests s) in
  let kept := filter (fun e => negb (tpa_expired now e)) (tpa_requests s) in
  let s' := said (Sleep 10 :: flat_map expiry_notices expired)
              (with_tpa_requests kept
                 (with_lags (tl (lags s)) (with_clock now s))) in
  check_tpa_timeouts_turn s = (Val tt, s')
  /\ tpa_timeout = 30%Q
  /\ (forall target requester stamp,
        Dict.get target (tpa_requests s) = Some (requester, stamp) ->
        ((tpa_timeout < Float.sub now stamp)%Q ->
           Dict.get target (tpa_requests s') = None
           /\ In (Exec (notice requester (msg_expired_to target))) (trace s')
           /\ In (Exec (notice target (msg_expired_from requester))) (trace s'))
        /\ (~ (tpa_timeout < Float.sub now stamp)%Q ->
            Dict.get target (tpa_requests s') = Some (requester, stamp)))
  /\ (forall target,
        Dict.get target (tpa_requests s) = None ->
        Dict.get target (tpa_requests s') = None)
  /\ (forall turns,
        let s_n := Nat.iter turns swept s in
        check_tpa_timeouts turns s = (Val tt, s_n)
        /\ check_tpa_timeouts (S turns) s = (Val tt, swept s_n)
        /\ sleeps (trace s_n) = (sleeps (trace s) ++ repeat 10%Q turns)%list
        /\ (forall target,
              Dict.get target (tpa_requests s_n) = None ->
              Dict.get target (tpa_requests (swept s_n)) = None)
        /\ (forall target requester stamp,
              Dict.get target (tpa_requests s_n) = Some (requester, stamp) ->
              (tpa_timeout < Float.sub (wake_up s_n) stamp)%Q ->
              Dict.get target (tpa_requests (swept s_n)) = None)).
Proof.
  intros W now expired kept s'.
  split; [|split; [reflexivity|split; [|split; [|]]]].
  - now apply check_tpa_timeouts_turn_run.
  - intros target requester stamp G.
    assert (K : Dict.get target kept
                = if tpa_expired now (target, (requester, stamp))
                  then None else Some (requester, stamp)).
    { subst kept. rewrite get_filter by assumption. rewrite G.
      now destruct (tpa_expired _ _). }
    simpl tpa_requests. rewrite K. unfold tpa_expired.
    split.
    + intros L. apply Qltb_lt in L. rewrite L. split; [reflexivity|].
      assert (I : In (target, (requester, stamp)) expired).
      { apply filter_In. split; [now apply DictFacts.get_In | exact L]. }
      simpl trace.
      split; apply in_or_app; right; right; apply in_flat_map;
        exists (target, (requester, stamp)); (split; [exact I | simpl; tauto]).
    + intros L. destruct (Qltb _ _) eqn:E; auto.
      apply Qltb_lt in E. contradiction.
  - intros target G. simpl tpa_requests. subst kept.
    rewrite get_filter by assumption. now rewrite G.
  - intros turns s_n.
    assert (Wn : Dict.wf (tpa_requests s_n)) by now apply sweeps_wf.
    split; [now apply check_tpa_timeouts_run|].
    split; [now apply (check_tpa_timeouts_run (S turns))|].
    split; [|split].
    + subst s_n. clear. induction turns as [|n IH].
      * simpl. now rewrite app_nil_r.
      * simpl Nat.iter. rewrite sleeps_swept, IH, <- app_assoc. f_equal.
        change [10%Q] with (repeat 10%Q 1). rewrite <- repeat_app.
        f_equal. lia.
    + intros target G. now rewrite get_swept, G.
    + intros target requester stamp G L. rewrite get_swept, G by assumption.
      apply Qltb_lt in L. unfold tpa_expired. now rewrite L.
Qed.

(* ================================================================= *)
(** ** Saving and loading the warps *)

Lemma is_coord_split pos :
  is_coord pos = true ->
  exists x y z, Str.split pos = [x; y; z] /\ pos = coords x y z.
Proof.
  unfold is_coord.
  destruct (Str.split pos) as [|x [|y [|z [|]]]]; try discriminate.
  intros E. apply String.eqb_eq in E. now exists x, y, z.
Qed.

Lemma write_warps_rows w :
  (forall name pos, In (name, pos) w -> is_coord pos = true) ->
  write_warps w = (map row_of (filter persisted w), None).
Proof.
  induction w as [|[name pos] w IH]; intros C; simpl; auto.
  unfold persisted at 1. simpl fst. simpl snd.
  destruct ((name =? "spawn") && (pos =? spawn_point)); simpl.
  - apply IH. intros n p I. apply (C n p). now right.
  - destruct (is_coord_split pos) as [x [y [z [S _]]]].
    { apply (C name pos). now left. }
    unfold row_of at 1. simpl fst. simpl snd. rewrite S.
    rewrite IH; auto. intros n p I. apply (C n p). now right.
Qed.

Lemma read_warps_rows (l acc : Dict.t string) :
  well_formed_warps l ->
  forall k, Dict.get k (read_warps (map row_of l) acc)
            = match Dict.get k l with
              | Some v => Some v
              | None => Dict.get k acc
              end.
Proof.
  revert acc. induction l as [|[name pos] l IH]; intros acc [W C] k; simpl; auto.
  inversion W as [|? ? N W']; subst.
  destruct (C name pos) as [L P]; [now left|].
  destruct (is_coord_split pos P) as [x [y [z [S E]]]].
  unfold row_of at 1. simpl fst. simpl snd. rewrite S, L, <- E.
  rewrite IH.
  - destruct (k =? name) eqn:K.
    + apply String.eqb_eq in K. subst k.
      assert (Dict.get name l = None) as -> by now apply DictFacts.get_None_notin.
      apply DictFacts.get_set_eq.
    + destruct (Dict.get k l); auto.
      apply DictFacts.get_set_neq. apply String.eqb_neq in K. congruence.
  - split; auto. intros n p I. apply C. now right.
Qed.

Lemma well_formed_filter f w :
  well_formed_warps w -> well_formed_warps (filter f w).
Proof.
  intros [W C]. split; [now apply DictFacts.wf_filter|].
  intros n p I. apply filter_In in I. apply C. tauto.
Qed.

(** What a restart finds after [save_warps]: the saved rows read into an
    empty dict. *)
Lemma saved_then_read w k :
  well_formed_warps w ->
  Dict.get k (read_warps (fst (write_warps w)) [])
  = match Dict.get k w with
    | Some pos => if persisted (k, pos) then Some pos else None
    | None => None
    end.
Proof.
  intros WF. rewrite write_warps_rows by (intros n p I; now apply (proj2 WF n p)).
  simpl fst. rewrite read_warps_rows by now apply well_formed_filter.
  rewrite get_filter by apply (proj1 WF).
  destruct (Dict.get k w) as [pos|]; auto. now destruct (persisted (k, pos)).
Qed.

Lemma save_warps_run s :
  (forall name pos, In (name, pos) (warps s) -> is_coord pos = true) ->
  save_warps s
  = (Val tt, with_warps_file (Some (map row_of (filter persisted (warps s)))) s).
Proof.
  intros C. unfold save_warps. run_m. now rewrite write_warps_rows.
Qed.

Lemma not_space_not_cr c : Str.is_space c = false -> (Str.code c =? 13)%nat = false.
Proof.
  intros S. destruct (Str.code c =? 13)%nat eqn:E; auto.
  apply Nat.eqb_eq in E. unfold Str.is_space, Str.between in S.
  rewrite E in S. discriminate.
Qed.

Lemma universal_newlines_id t : no_cr t = true -> Str.universal_newlines t = t.
Proof.
  unfold no_cr. induction t as [|c t IH]; simpl; auto.
  intros H. apply andb_true_iff in H. destruct H as [C H].
  apply negb_true_iff in C. rewrite C. now rewrite IH.
Qed.

(** The parts of a split hold no carriage return. *)
Lemma split_no_cr pos : Forall (fun t => no_cr t = true) (Str.split pos).
Proof.
  assert (one : forall c, Str.is_space c = false ->
                          no_cr (String c EmptyString) = true).
  { intros c C. unfold no_cr. simpl. now rewrite (not_space_not_cr c C). }
  assert (more : forall c t, Str.is_space c = false -> no_cr t = true ->
                             no_cr (String c t) = true).
  { intros c t C T. unfold no_cr in *. simpl.
    now rewrite (not_space_not_cr c C), T. }
  induction pos as [|c pos IH]; simpl; [constructor|].
  destruct (Str.is_space c) eqn:C; auto.
  destruct (Str.stops _ pos).
  - constructor; auto.
  - destruct (Str.split pos) as [|t ts].
    + constructor; auto.
    + inversion IH; subst. constructor; auto.
Qed.

(** The rows of entries without carriage return in their names are read as
    they were written. *)
Lemma text_mode_rows (l : Dict.t string) :
  (forall name, In name (Dict.keys l) -> no_cr name = true) ->
  text_mode (map row_of l) = map row_of l.
Proof.
  unfold text_mode. induction l as [|[name pos] l IH]; intros C; auto.
  cbn [map]. rewrite IH by (intros n I; apply C; now right).
  unfold row_of at 1 3. cbn [fst snd map].
  rewrite universal_newlines_id by (apply C; now left).
  assert (P : map Str.universal_newlines (Str.split pos) = Str.split pos).
  { pose proof (split_no_cr pos) as F.
    induction F as [|t ts T F IHF]; simpl; auto.
    now rewrite (universal_newlines_id t T), IHF. }
  now rewrite P.
Qed.

Lemma storable_filter f w : storable_warps w -> storable_warps (filter f w).
Proof.
  intros [WF C]. split; [now apply well_formed_filter|].
  intros name I. apply C. unfold Dict.keys in *.
  apply in_map_iff in I. destruct I as [kv [E I]]. apply filter_In in I.
  apply in_map_iff. exists kv. tauto.
Qed.

(** [load_warps] when the file reads to its end. *)
Lemma load_warps_run s :
  warps_fault s = None ->
  load_warps s
  = (Val tt,
     match warps_file s with
     | Some rows =>
         let w := read_warps (text_mode rows) (warps s) in
         said [Log INFO (LoadedWarps (List.length w))]
              (with_warps (if Dict.mem "spawn" w then w
                           else Dict.set "spawn" spawn_point w) s)
     | None =>
         if Dict.mem "spawn" (warps s) then s
         else with_warps (Dict.set "spawn" spawn_point (warps s)) s
     end).
Proof.
  intros F. unfold load_warps, try_except, end_of_file. run_m.
  destruct (warps_file s) as [rows|].
  - cbn [warps_fault with_warps]. rewrite F. cbn [warps with_trace with_warps].
    destruct (Dict.mem "spawn" (read_warps (text_mode rows) (warps s)));
      f_equal; state_eq.
  - destruct (Dict.mem "spawn" (warps s)); reflexivity.
Qed.

(** [load_warps] when the reading meets [e]: the rows read stay, the error
    is logged, and the default of [spawn] is not looked after. *)
Lemma load_warps_fault s rows e :
  warps_file s = Some rows -> warps_fault s = Some e ->
  load_warps s
  = (Val tt, said [Log ERROR (ErrorLoadingWarps e)]
                  (with_warps (read_warps (text_mode rows) (warps s)) s)).
Proof.
  intros R F. unfold load_warps, try_except, end_of_file. run_m.
  rewrite R. cbn [warps_fault with_warps]. rewrite F. f_equal.
Qed.

(** [load_homes] when the file reads to its end, and when the reading
    meets [e]. *)
Lemma load_homes_run s :
  homes_fault s = None ->
  load_homes s
  = (Val tt,
     match homes_file s with
     | Some rows =>
         let h := read_homes (text_mode rows) (homes s) in
         said [Log INFO (LoadedHomes (List.length h))] (with_homes h s)
     | None => s
     end).
Proof.
  intros F. unfold load_homes, try_except, end_of_file. run_m.
  destruct (homes_file s) as [rows|]; [|reflexivity].
  cbn [homes_fault with_homes]. now rewrite F.
Qed.

Lemma load_homes_fault s rows e :
  homes_file s = Some rows -> homes_fault s = Some e ->
  load_homes s
  = (Val tt, said [Log ERROR (ErrorLoadingHomes e)]
                  (with_homes (read_homes (text_mode rows) (homes s)) s)).
Proof.
  intros R F. unfold load_homes, try_except, end_of_file. run_m.
  rewrite R. cbn [homes_fault with_homes]. rewrite F. f_equal.
Qed.

(** Both loaders return, whatever the files. *)
Lemma load_homes_cases s :
  load_homes s = (Val tt, s)
  \/ exists rows es,
       homes_file s = Some rows
       /\ load_homes s
          = (Val tt, said es (with_homes (read_homes (text_mode rows) (homes s)) s)).
Proof.
  destruct (homes_file s) as [rows|] eqn:R.
  - right. exists rows. destruct (homes_fault s) as [e|] eqn:F.
    + eexists. split; [reflexivity|]. exact (load_homes_fault s rows e R F).
    + eexists. split; [reflexivity|]. rewrite load_homes_run, R by assumption.
      reflexivity.
  - left. unfold load_homes, try_except. run_m. now rewrite R.
Qed.

Lemma load_warps_cases s :
  exists w es,
    load_warps s = (Val tt, said es (with_warps w s))
    /\ (w = warps s \/ w = Dict.set "spawn" spawn_point (warps s)
        \/ exists rows,
             warps_file s = Some rows
             /\ (w = read_warps (text_mode rows) (warps s)
                 \/ w = Dict.set "spawn" spawn_point
                          (read_warps (text_mode rows) (warps s)))).
Proof.
  destruct (warps_fault s) as [e|] eqn:F; destruct (warps_file s) as [rows|] eqn:R.
  - exists (read_warps (text_mode rows) (warps s)). eexists.
    split; [exact (load_warps_fault s rows e R F)|]. right. right. exists rows. auto.
  - unfold load_warps, try_except. run_m. rewrite R.
    destruct (Dict.mem "spawn" (warps s)).
    + exists (warps s), []. split; [|auto]. f_equal. rewrite said_nil.
      now destruct s.
    + exists (Dict.set "spawn" spawn_point (warps s)), []. split; [|auto].
      f_equal. now rewrite said_nil.
  - rewrite load_warps_run, R by assumption. cbv zeta.
    destruct (Dict.mem "spawn" (read_warps (text_mode rows) (warps s)));
      eexists; eexists; (split; [reflexivity|]); right; right; exists rows; auto.
  - rewrite load_warps_run, R by assumption.
    destruct (Dict.mem "spawn" (warps s)).
    + exists (warps s), []. split; [|auto]. f_equal. rewrite said_nil.
      now destruct s.
    + exists (Dict.set "spawn" spawn_point (warps s)), []. split; [|auto].
      f_equal. now rewrite said_nil.
Qed.

(** C6, as it does not hold: a warps.csv written by hand loads into two
    warps, of which the first has a coordinate of four parts; [save_warps]
    stops at it with an empty file, and the warp [late], which was fine, is
    gone at the next start. *)
Theorem round_trip_loses_a_warp :
  let s := exec load_warps (init None (Some hand_made_warps) 0 []) in
  let saved := exec save_warps s in
  let restarted := exec load_warps (restart saved) in
  warps s = [("hub", "1 2 3 4"); ("late", "7 8 9"); ("spawn", spawn_point)]
  /\ save_warps s
     = (Val tt, said [Log ERROR (ErrorSavingWarps
                                  (ValueError "too many values to unpack (expected 3)"))]
                    (with_warps_file (Some []) s))
  /\ Dict.get "late" (warps s) = Some "7 8 9"
  /\ Dict.get "late" (warps restarted) = None
  /\ warps restarted = [("spawn", spawn_point)].
Proof. vm_compute. repeat split. Qed.

(** C6. Saving the warps and loading them again at the next start, for a
    warp dict of the data model (names in lower case, coordinates of three
    parts without white space joined by single spaces) whose names hold no
    carriage return.  The file holds a row for every entry but a [spawn] at
    the default; after loading, every name has the coordinate it had, and
    [spawn], when it was absent or not written, has the default. *)
Theorem warps_round_trip (s : state) :
  storable_warps (warps s) ->
  let saved := exec save_warps s in
  let restarted := exec load_warps (restart saved) in
  save_warps s = (Val tt, saved)
  /\ warps_file saved = Some (map row_of (filter persisted (warps s)))
  /\ fst (load_warps (restart saved)) = Val tt
  /\ (forall name, name <> "spawn" ->
        Dict.get name (warps restarted) = Dict.get name (warps s))
  /\ Dict.get "spawn" (warps restarted)
     = Some match Dict.get "spawn" (warps s) with
            | Some pos => pos
            | None => spawn_point
            end.
Proof.
  intros [WF NC] saved restarted.
  assert (S : save_warps s
              = (Val tt, with_warps_file
                           (Some (map row_of (filter persisted (warps s)))) s)).
  { apply save_warps_run. intros n p I. now apply (proj2 WF n p). }
  assert (R : forall k,
             Dict.get k (read_warps (map row_of (filter persisted (warps s))) [])
             = match Dict.get k (warps s) with
               | Some pos => if persisted (k, pos) then Some pos else None
               | None => None
               end).
  { intros k. rewrite <- (saved_then_read _ _ WF).
    rewrite write_warps_rows by (intros n p I; now apply (proj2 WF n p)).
    reflexivity. }
  subst restarted saved. unfold exec. rewrite S. cbn [snd].
  split; [reflexivity|]. split; [reflexivity|].
  rewrite load_warps_run by reflexivity.
  cbn [warps_file restart with_warps_file warps fst snd].
  rewrite text_mode_rows by (apply (storable_filter persisted (warps s)); now split).
  set (w := read_warps (map row_of (filter persisted (warps s))) []) in *.
  split; [reflexivity|]. unfold Dict.mem.
  destruct (Dict.get "spawn" w) eqn:G; cbn [warps said with_trace with_warps].
  - split.
    + intros name N. rewrite R.
      destruct (Dict.get name (warps s)) as [pos|]; auto.
      unfold persisted. simpl fst.
      apply String.eqb_neq in N. now rewrite N.
    + rewrite G. rewrite R in G.
      destruct (Dict.get "spawn" (warps s)) as [pos|]; [|discriminate].
      destruct (persisted ("spawn", pos)); congruence.
  - split.
    + intros name N. rewrite DictFacts.get_set_neq by congruence. rewrite R.
      destruct (Dict.get name (warps s)) as [pos|]; auto.
      unfold persisted. simpl fst.
      apply String.eqb_neq in N. now rewrite N.
    + rewrite DictFacts.get_set_eq. rewrite R in G.
      destruct (Dict.get "spawn" (warps s)) as [pos|]; auto.
      unfold persisted in G. simpl in G.
      destruct (pos =? spawn_point) eqn:E; [|discriminate].
      apply String.eqb_eq in E. now subst.
Qed.

(* ================================================================= *)
(** ** Position reports: the home track and the warp track *)

Lemma save_homes_run s :
  save_homes s
  = (Val tt, said (save_log ErrorSavingHomes (snd (write_homes (homes s))))
                  (with_homes_file (Some (fst (write_homes (homes s)))) s)).
Proof.
  unfold save_homes. run_m. destruct (write_homes (homes s)) as [rows [e|]]; simpl.
  - f_equal.
  - now rewrite said_nil.
Qed.

Lemma save_warps_run_any s :
  save_warps s
  = (Val tt, said (save_log ErrorSavingWarps (snd (write_warps (warps s))))
                  (with_warps_file (Some (fst (write_warps (warps s)))) s)).
Proof.
  unfold save_warps. run_m. destruct (write_warps (warps s)) as [rows [e|]]; simpl.
  - f_equal.
  - now rewrite said_nil.
Qed.

(** The home track takes the report. *)
Lemma handle_position_home player x y z s :
  StrSet.mem player (pending_homes s) = true ->
  let h := Dict.set player (coords x y z) (homes s) in
  handle_position player x y z s
  = (Val tt,
     said (save_log ErrorSavingHomes (snd (write_homes h))
           ++ [Exec (tellraw player (msg_home_set x y z))])%list
          (with_homes_file (Some (fst (write_homes h)))
             (with_pending_homes (StrSet.remove player (pending_homes s))
                (with_homes h s)))).
Proof.
  intros P h. unfold handle_position. unfold bind at 1. unfold gets at 1.
  rewrite P. unfold bind at 1. unfold modify at 1. unfold bind at 1.
  unfold modify at 1. unfold bind. rewrite save_homes_run.
  rewrite send_message_run. f_equal. rewrite said_said. reflexivity.
Qed.

(** The warp track takes the report when the home track is idle. *)
Lemma handle_position_warp player warp_name x y z s :
  StrSet.mem player (pending_homes s) = false ->
  Dict.get player (pending_warps s) = Some warp_name ->
  let w := Dict.set warp_name (coords x y z) (warps s) in
  handle_position player x y z s
  = (Val tt,
     said (save_log ErrorSavingWarps (snd (write_warps w))
           ++ [Exec (tellraw player (msg_warp_set warp_name x y z))])%list
          (with_warps_file (Some (fst (write_warps w)))
             (with_warps w
                (with_pending_warps (Dict.remove player (pending_warps s)) s)))).
Proof.
  intros P G w. unfold handle_position. unfold bind at 1. unfold gets at 1.
  rewrite P. unfold bind at 1. unfold gets at 1. rewrite G.
  unfold bind at 1. unfold modify at 1. unfold bind at 1.
  unfold modify at 1. unfold bind. rewrite save_warps_run_any.
  rewrite send_message_run. f_equal. rewrite said_said. reflexivity.
Qed.

(* ================================================================= *)
(** ** Warp names *)

Lemma cmd_setwarp_run player name more s :
  cmd_setwarp player (name :: more) s
  = (Val tt,
     said [Exec ("data get entity " ++ player ++ " Pos");
           Exec (tellraw player (sect ++ "aScanning position for warp '"
                                 ++ Str.lower name ++ "'..."))]
          (with_pending_warps
             (Dict.set player (Str.lower name) (pending_warps s)) s)).
Proof. unfold cmd_setwarp. run_m. f_equal. state_eq. Qed.

Lemma cmd_warp_found player name more pos s :
  Dict.get (Str.lower name) (warps s) = Some pos ->
  cmd_warp player (name :: more) s
  = (Val tt, said [Exec ("tp " ++ player ++ " " ++ pos);
                   Exec (tellraw player (msg_warped (Str.lower name)))] s).
Proof. intros G. unfold cmd_warp. run_m. rewrite G. f_equal. state_eq. Qed.

(** C7. Warp names ignore case.  [setwarp name] records the lower-cased
    name for the player; the position report that the warp track takes
    stores the coordinate under it; [warp name'], for any [name'] with the
    same lower-cased form, then teleports the visitor to that coordinate, and
    so it does in every later state that still holds a coordinate under the
    lower-cased name. *)
Theorem warp_names_ignore_case
        (player visitor name name' x y z : string) (more more' : list string)
        (s : state) :
  StrSet.mem player (pending_homes s) = false ->
  Str.lower name' = Str.lower name ->
  let s1 := exec (cmd_setwarp player (name :: more)) s in
  let s2 := exec (handle_position player x y z) s1 in
  Dict.get player (pending_warps s1) = Some (Str.lower name)
  /\ Dict.get (Str.lower name) (warps s2) = Some (coords x y z)
  /\ cmd_warp visitor (name' :: more') s2
     = (Val tt, said [Exec ("tp " ++ visitor ++ " " ++ coords x y z);
                      Exec (tellraw visitor (msg_warped (Str.lower name)))] s2)
  /\ (forall later pos,
        Dict.get (Str.lower name) (warps later) = Some pos ->
        cmd_warp visitor (name' :: more') later
        = (Val tt, said [Exec ("tp " ++ visitor ++ " " ++ pos);
                         Exec (tellraw visitor (msg_warped (Str.lower name)))]
                     later)).
Proof.
  intros P L s1 s2.
  assert (G1 : Dict.get player (pending_warps s1) = Some (Str.lower name)).
  { subst s1. unfold exec. rewrite cmd_setwarp_run. simpl.
    apply DictFacts.get_set_eq. }
  assert (G2 : Dict.get (Str.lower name) (warps s2) = Some (coords x y z)).
  { subst s2. unfold exec.
    rewrite (handle_position_warp player (Str.lower name) x y z s1); auto.
    simpl. apply DictFacts.get_set_eq. }
  assert (W : forall later pos,
             Dict.get (Str.lower name) (warps later) = Some pos ->
             cmd_warp visitor (name' :: more') later
             = (Val tt, said [Exec ("tp " ++ visitor ++ " " ++ pos);
                              Exec (tellraw visitor (msg_warped (Str.lower name)))]
                          later)).
  { intros later pos G. rewrite <- L in G |- *. now apply cmd_warp_found. }
  split; [exact G1|]. split; [exact G2|]. split; [now apply W | exact W].
Qed.

(* ================================================================= *)
(** ** The two patterns at work *)

Module StrFacts.
Import Str.

Lemma append_nil_r s : s ++ EmptyString = s.
Proof. induction s; simpl; congruence. Qed.

Lemma append_assoc s1 s2 s3 : (s1 ++ s2) ++ s3 = s1 ++ s2 ++ s3.
Proof. induction s1; simpl; congruence. Qed.

Lemma length_append s1 s2 : length (s1 ++ s2) = (length s1 + length s2)%nat.
Proof. induction s1; simpl; congruence. Qed.

Lemma take_append w rest : take (length w) (w ++ rest) = w.
Proof. induction w; simpl; [now destruct rest | congruence]. Qed.

Lemma consumed_append w rest : consumed (w ++ rest) rest = w.
Proof.
  unfold consumed. rewrite length_append.
  replace (length w + length rest - length rest)%nat with (length w) by lia.
  apply take_append.
Qed.

Lemma span_append p s : take_while p s ++ drop_while p s = s.
Proof. induction s as [|c s IH]; simpl; auto. destruct (p c); simpl; congruence. Qed.

Lemma take_while_all p s : all_chars p (take_while p s) = true.
Proof.
  induction s as [|c s IH]; simpl; auto.
  destruct (p c) eqn:E; simpl; auto. now rewrite E.
Qed.

Lemma drop_while_stops p s : stops p (drop_while p s) = true.
Proof.
  induction s as [|c s IH]; simpl; auto.
  destruct (p c) eqn:E; simpl; auto. now rewrite E.
Qed.

Lemma take_while_id p s : all_chars p s = true -> take_while p s = s.
Proof.
  induction s as [|c s IH]; simpl; auto.
  destruct (p c); simpl; [|discriminate]. intros H. now rewrite IH.
Qed.

Lemma all_chars_drop_while p q s :
  all_chars p s = true -> all_chars p (drop_while q s) = true.
Proof.
  induction s as [|c s IH]; simpl; auto.
  intros H. apply andb_true_iff in H. destruct H as [H1 H2].
  destruct (q c); simpl; auto. now rewrite H1, H2.
Qed.

Lemma split_lstrip s : split (lstrip s) = split s.
Proof.
  unfold lstrip. induction s as [|c s IH]; simpl; auto.
  destruct (is_space c) eqn:E; auto. simpl. now rewrite E.
Qed.

(** No character is both white space and a word character. *)
Lemma space_not_word c : is_space c = true -> is_word c = false.
Proof.
  destruct c as [[] [] [] [] [] [] [] []]; vm_compute;
    first [reflexivity | discriminate].
Qed.

End StrFacts.

Module ReFacts.
Import Str StrFacts.

Lemma lit_append l s : lit l (l ++ s) = Some s.
Proof. induction l; simpl; auto. now rewrite Ascii.eqb_refl. Qed.

Lemma rep_stops {R} p rest (k : string -> option R) :
  stops p rest = true -> rep p rest k = k rest.
Proof.
  destruct rest as [|c rest]; simpl; auto.
  destruct (p c); [discriminate | reflexivity].
Qed.

(** A greedy repetition takes the whole run when what follows succeeds
    after it. *)
Lemma rep_run {R} p w rest (k : string -> option R) r :
  all_chars p w = true -> stops p rest = true -> k rest = Some r ->
  rep p (w ++ rest) k = Some r.
Proof.
  intros A S K. induction w as [|c w IH]; simpl in *.
  - now rewrite rep_stops.
  - apply andb_true_iff in A. destruct A as [A1 A2].
    rewrite A1. now rewrite IH.
Qed.

Lemma plus_run p w rest g k r :
  w <> EmptyString -> all_chars p w = true -> stops p rest = true ->
  k rest g = Some r ->
  run (Plus p) (w ++ rest) g k = Some r.
Proof.
  intros N A S K. destruct w as [|c w]; [congruence|]. simpl in *.
  apply andb_true_iff in A. destruct A as [A1 A2]. rewrite A1.
  now apply rep_run.
Qed.

Lemma plus_stops p s g k : stops p s = true -> run (Plus p) s g k = None.
Proof.
  destruct s as [|c s]; simpl; auto. now destruct (p c).
Qed.

(** The equations of [run], one for each construct. *)
Lemma run_cat r1 r2 s g k :
  run (Cat r1 r2) s g k = run r1 s g (fun s' g' => run r2 s' g' k).
Proof. reflexivity. Qed.

Lemma run_group n r s g k :
  run (Group n r) s g k
  = run r s g (fun s' g' => k s' ((n, consumed s s') :: g')).
Proof. reflexivity. Qed.

Lemma run_opt r s g k :
  run (Opt r) s g k
  = match run r s g k with Some g' => Some g' | None => k s g end.
Proof. reflexivity. Qed.

Lemma run_star p s g k : run (Star p) s g k = rep p s (fun s' => k s' g).
Proof. reflexivity. Qed.

Lemma run_lit l s g k : run (Lit l) (l ++ s) g k = k s g.
Proof. simpl. now rewrite lit_append. Qed.

Lemma run_lit_fails a l c s g k :
  Ascii.eqb a c = false -> run (Lit (String a l)) (String c s) g k = None.
Proof. intros H. simpl. now rewrite H. Qed.

Lemma search_here r s g : match_here r s = Some g -> search r s = Some g.
Proof. intros H. destruct s; simpl; now rewrite H. Qed.

Lemma search_next r c s :
  match_here r (String c s) = None -> search r (String c s) = search r s.
Proof. intros H. simpl. now rewrite H. Qed.

End ReFacts.

(** *** The groups that take part in every match *)

Module GroupsFacts.
Import Str Groups.

Lemma bound_cons n m v g : bound n g -> bound n ((m, v) :: g).
Proof. unfold bound. simpl. now destruct (n =? m)%nat. Qed.

Lemma bound_here n v g : bound n ((n, v) :: g).
Proof. unfold bound. simpl. now rewrite Nat.eqb_refl. Qed.

Lemma rep_inv {R} p s (k : string -> option R) m :
  rep p s k = Some m -> exists s', k s' = Some m.
Proof.
  induction s as [|c s IH]; simpl; eauto.
  destruct (p c); eauto. destruct (rep p s k) eqn:E; eauto.
Qed.

(** A successful run reaches its continuation with every old binding and
    a binding for each sure group. *)
Lemma run_inv r : forall s g k m,
  run r s g k = Some m ->
  exists s' g', k s' g' = Some m
                /\ forall n, In n (sure r) \/ bound n g -> bound n g'.
Proof.
  induction r as [l|p|p|r IH|r1 IH1 r2 IH2|n r IH]; intros s g k m; simpl.
  - destruct (lit l s) as [s'|]; [|discriminate]. intros K.
    exists s', g. split; [assumption | tauto].
  - destruct s as [|c s]; [discriminate|]. destruct (p c); [|discriminate].
    intros H. apply rep_inv in H. destruct H as [s' K].
    exists s', g. split; [assumption | tauto].
  - intros H. apply rep_inv in H. destruct H as [s' K].
    exists s', g. split; [assumption | tauto].
  - destruct (run r s g k) eqn:E.
    + intros [= <-]. destruct (IH _ _ _ _ E) as [s' [g' [K B]]].
      exists s', g'. split; [assumption|]. intros n [[] | H]. apply B. tauto.
    + intros K. exists s, g. split; [assumption | tauto].
  - intros H. destruct (IH1 _ _ _ _ H) as [s1 [g1 [H1 B1]]].
    destruct (IH2 _ _ _ _ H1) as [s2 [g2 [H2 B2]]].
    exists s2, g2. split; [assumption|]. intros n [I | B].
    + apply in_app_or in I. destruct I as [I | I].
      * apply B2. right. apply B1. tauto.
      * apply B2. tauto.
    + apply B2. right. apply B1. tauto.
  - intros H. destruct (IH _ _ _ _ H) as [s' [g' [K B]]].
    exists s', ((n, consumed s s') :: g'). split; [assumption|].
    intros n' [[<- | I] | Bg].
    + apply bound_here.
    + apply bound_cons, B. tauto.
    + apply bound_cons, B. tauto.
Qed.

Lemma search_sure r s m n :
  search r s = Some m -> In n (sure r) -> bound n m.
Proof.
  induction s as [|c s IH]; simpl; unfold match_here.
  - destruct (run r EmptyString [] _) eqn:E; [|discriminate].
    intros [= <-] I. apply run_inv in E.
    destruct E as [s' [g' [[= <-] B]]]. apply B. tauto.
  - destruct (run r (String c s) [] _) eqn:E; [|exact IH].
    intros [= <-] I. apply run_inv in E.
    destruct E as [s' [g' [[= <-] B]]]. apply B. tauto.
Qed.

(** [chat_match] and [position_match] fail only when the search fails. *)
Lemma chat_match_none line :
  chat_match line = None <-> search chat_re line = None.
Proof.
  unfold chat_match. destruct (search chat_re line) as [m|] eqn:E; [|tauto].
  assert (B1 := search_sure _ _ _ 1%nat E).
  assert (B2 := search_sure _ _ _ 2%nat E). unfold bound in *.
  destruct (group 1 m); [|exfalso; apply B1; simpl; tauto].
  destruct (group 2 m); [|exfalso; apply B2; simpl; tauto].
  split; discriminate.
Qed.

Lemma position_match_none line :
  position_match line = None <-> search position_re line = None.
Proof.
  unfold position_match.
  destruct (search position_re line) as [m|] eqn:E; [|tauto].
  assert (B1 := search_sure _ _ _ 1%nat E).
  assert (B2 := search_sure _ _ _ 2%nat E).
  assert (B3 := search_sure _ _ _ 3%nat E).
  assert (B4 := search_sure _ _ _ 4%nat E). unfold bound in *.
  destruct (group 1 m); [|exfalso; apply B1; simpl; tauto].
  destruct (group 2 m); [|exfalso; apply B2; simpl; tauto].
  destruct (group 3 m); [|exfalso; apply B3; simpl; tauto].
  destruct (group 4 m); [|exfalso; apply B4; simpl; tauto].
  split; discriminate.
Qed.

End GroupsFacts.

(** *** What a group can hold *)

Module AlphabetFacts.
Import Str StrFacts Alphabet.

Lemma all_chars_append p w1 w2 :
  all_chars p (w1 ++ w2) = all_chars p w1 && all_chars p w2.
Proof. induction w1 as [|c w IH]; simpl; auto. now rewrite IH, andb_assoc. Qed.

Lemma all_chars_weaken (p q : ascii -> bool) w :
  (forall c, p c = true -> q c = true) ->
  all_chars p w = true -> all_chars q w = true.
Proof.
  intros PQ. induction w as [|c w IH]; simpl; auto.
  intros H. apply andb_true_iff in H. destruct H as [H1 H2].
  now rewrite (PQ _ H1), IH.
Qed.

Lemma lit_inv l s s' : lit l s = Some s' -> s = l ++ s'.
Proof.
  revert s. induction l as [|a l IH]; intros s; simpl.
  - now intros [= ->].
  - destruct s as [|b s]; [discriminate|].
    destruct (Ascii.eqb a b) eqn:E; [|discriminate].
    apply Ascii.eqb_eq in E. subst b. intros H. now rewrite (IH _ H).
Qed.

Lemma all_mem_char l l' : all_chars (fun c => mem_char c (l' ++ l)) l = true.
Proof.
  revert l'. induction l as [|a l IH]; intros l'; simpl; auto.
  rewrite andb_true_iff. split.
  - induction l' as [|b l' IH']; simpl.
    + now rewrite Ascii.eqb_refl.
    + now rewrite IH', orb_true_r.
  - specialize (IH (l' ++ String a EmptyString)).
    now rewrite append_assoc in IH.
Qed.

Lemma rep_split {R} p s (k : string -> option R) m :
  rep p s k = Some m ->
  exists w s', s = w ++ s' /\ all_chars p w = true /\ k s' = Some m.
Proof.
  induction s as [|c s IH]; simpl.
  - intros K. now exists EmptyString, EmptyString.
  - destruct (p c) eqn:P.
    + destruct (rep p s k) eqn:E.
      * intros [= <-]. destruct (IH eq_refl) as [w [s' [-> [A K]]]].
        exists (String c w), s'. simpl. now rewrite P, A.
      * intros K. now exists EmptyString, (String c s).
    + intros K. now exists EmptyString, (String c s).
Qed.

(** A successful run has consumed a text that fits the pattern, and has
    bound each group it went through to a text that fits the group. *)
Lemma run_sound R r :
  (forall x, In x (groups r) -> In x (groups R)) ->
  forall s g k m,
    good R g -> run r s g k = Some m ->
    exists w s' g', s = w ++ s' /\ fits r w /\ good R g' /\ k s' g' = Some m.
Proof.
  induction r as [l|p|p|r IH|r1 IH1 r2 IH2|n r IH]; intros Sub s g k m G; simpl.
  - destruct (lit l s) as [s'|] eqn:L; [|discriminate]. intros K.
    apply lit_inv in L. exists l, s', g. repeat split; auto.
    + apply (all_mem_char l EmptyString).
    + simpl. now destruct l.
  - destruct s as [|c s]; [discriminate|].
    destruct (p c) eqn:P; [|discriminate]. intros H.
    apply rep_split in H. destruct H as [w [s' [-> [A K]]]].
    exists (String c w), s', g. repeat split; auto.
    + simpl. rewrite P. exact A.
    + discriminate.
  - intros H. apply rep_split in H. destruct H as [w [s' [-> [A K]]]].
    exists w, s', g. repeat split; auto. discriminate.
  - destruct (run r s g k) eqn:E.
    + intros [= <-]. destruct (IH Sub _ _ _ _ G E) as [w [s' [g' [-> [[A _] [G' K]]]]]].
      exists w, s', g'. repeat split; auto. discriminate.
    + intros K. exists EmptyString, s, g. repeat split; auto. discriminate.
  - intros H.
    destruct (IH1 (fun x I => Sub x (in_or_app _ _ _ (or_introl I))) _ _ _ _ G H)
      as [w1 [s1 [g1 [-> [[A1 N1] [G1 H1]]]]]].
    destruct (IH2 (fun x I => Sub x (in_or_app _ _ _ (or_intror I))) _ _ _ _ G1 H1)
      as [w2 [s2 [g2 [-> [[A2 N2] [G2 H2]]]]]].
    exists (w1 ++ w2), s2, g2. repeat split; auto.
    + now rewrite append_assoc.
    + rewrite all_chars_append, andb_true_iff. split.
      * apply (all_chars_weaken (alphabet r1)); auto.
        intros c C. simpl. now rewrite C.
      * apply (all_chars_weaken (alphabet r2)); auto.
        intros c C. simpl. rewrite C. apply orb_true_r.
    + intros N E. apply orb_true_iff in N.
      destruct w1; [|discriminate]. simpl in E. subst w2.
      destruct N as [N | N]; [now apply N1 | now apply N2].
  - intros H.
    destruct (IH (fun x I => Sub x (or_intror I)) _ _ _ _ G H)
      as [w [s' [g' [-> [F [G' K]]]]]].
    rewrite consumed_append in K.
    exists w, s', ((n, w) :: g'). repeat split; auto; try apply F.
    intros n' v [[= <- <-] | I]; [|now apply G'].
    exists r. split; [|exact F]. apply Sub. now left.
Qed.

Lemma search_good R s m : search R s = Some m -> good R m.
Proof.
  assert (H : forall s, match_here R s = Some m -> good R m).
  { intros s0 E. unfold match_here in E.
    apply (run_sound R R (fun x I => I)) in E.
    - now destruct E as [w [s' [g' [_ [_ [G [= <-]]]]]]].
    - intros n v []. }
  induction s as [|c s IH]; simpl.
  - destruct (match_here R EmptyString) eqn:E; [|discriminate].
    intros [= <-]. now apply (H EmptyString).
  - destruct (match_here R (String c s)) eqn:E; [|exact IH].
    intros [= <-]. now apply (H (String c s)).
Qed.

Lemma group_In n v g : group n g = Some v -> In (n, v) g.
Proof.
  induction g as [|[m w] g IH]; simpl; [discriminate|].
  destruct (n =? m)%nat eqn:E; auto.
  apply Nat.eqb_eq in E. subst. intros [= ->]. now left.
Qed.

End AlphabetFacts.

Lemma number_is_token x :
  Alphabet.fits number_re x -> is_token x = true.
Proof.
  intros [A N]. unfold is_token. apply andb_true_iff. split.
  - destruct x; [now destruct N | reflexivity].
  - apply (AlphabetFacts.all_chars_weaken (Alphabet.alphabet number_re)); auto.
    intros c. destruct c as [[] [] [] [] [] [] [] []]; vm_compute;
      first [reflexivity | discriminate].
Qed.

(** The three numbers of a position match are tokens. *)
Lemma position_match_tokens line player x y z :
  position_match line = Some (player, x, y, z) ->
  is_token x = true /\ is_token y = true /\ is_token z = true.
Proof.
  unfold position_match.
  destruct (search position_re line) as [m|] eqn:E; [|discriminate].
  apply AlphabetFacts.search_good in E.
  destruct (group 1 m); [|discriminate].
  destruct (group 2 m) as [x'|] eqn:G2; [|discriminate].
  destruct (group 3 m) as [y'|] eqn:G3; [|discriminate].
  destruct (group 4 m) as [z'|] eqn:G4; [|discriminate].
  intros [= _ <- <- <-].
  apply AlphabetFacts.group_In in G2, G3, G4.
  destruct (E _ _ G2) as [r2 [I2 F2]].
  destruct (E _ _ G3) as [r3 [I3 F3]].
  destruct (E _ _ G4) as [r4 [I4 F4]].
  simpl in I2, I3, I4.
  repeat split; apply number_is_token.
  - repeat (destruct I2 as [I2 | I2]; [inversion I2; subst; assumption|]).
    destruct I2.
  - repeat (destruct I3 as [I3 | I3]; [inversion I3; subst; assumption|]).
    destruct I3.
  - repeat (destruct I4 as [I4 | I4]; [inversion I4; subst; assumption|]).
    destruct I4.
Qed.

(** *** The chat pattern on a chat line *)

Section ChatLine.
Import Str StrFacts ReFacts.

Variables pre player command tail : string.
Hypothesis pre_plain : all_chars not_lt pre = true.
Hypothesis player_some : player <> EmptyString.
Hypothesis player_plain : all_chars not_gt player = true.
Hypothesis command_some : command <> EmptyString.
Hypothesis command_word : all_chars is_word command = true.
Hypothesis tail_stops : stops is_word tail = true.

Lemma chat_re_skips s : search chat_re (pre ++ s) = search chat_re s.
Proof using pre_plain.
  induction pre as [|c p IH]; simpl append; auto.
  simpl in pre_plain. apply andb_true_iff in pre_plain.
  destruct pre_plain as [C P]. rewrite search_next; auto.
  unfold match_here, chat_re. rewrite run_cat. apply run_lit_fails.
  unfold not_lt in C. rewrite Ascii.eqb_sym in C.
  now destruct (Ascii.eqb "<" c).
Qed.

Lemma chat_re_tail g :
  run (Opt (Plus is_space ^^ Group 3 (Star is_dot))%re) tail g
      (fun _ g' => Some g')
  = Some match argument_text tail with
         | Some text => (3%nat, text) :: g
         | None => g
         end.
Proof using Type.
  clear tail_stops. unfold argument_text. rewrite run_opt, run_cat.
  destruct (stops is_space tail) eqn:S.
  - now rewrite plus_stops.
  - rewrite <- (span_append is_space tail) at 1.
    erewrite plus_run; [reflexivity | | apply take_while_all
                        | apply drop_while_stops | ].
    + destruct tail as [|c t]; [discriminate|]. simpl in *.
      destruct (is_space c); discriminate.
    + rewrite run_group, run_star. fold (lstrip tail).
      rewrite <- (span_append is_dot (lstrip tail)) at 1.
      erewrite rep_run; [reflexivity | apply take_while_all
                         | apply drop_while_stops | ].
      rewrite <- (span_append is_dot (lstrip tail)) at 1.
      now rewrite consumed_append.
Qed.

Lemma chat_re_here :
  match_here chat_re ("<" ++ player ++ "> ." ++ command ++ tail)
  = Some match argument_text tail with
         | Some text => [(3%nat, text); (2%nat, command); (1%nat, player)]
         | None => [(2%nat, command); (1%nat, player)]
         end.
Proof using player_some player_plain command_some command_word tail_stops.
  unfold match_here, chat_re.
  rewrite run_cat, run_lit, run_cat, run_group.
  erewrite plus_run; [reflexivity | assumption | assumption | reflexivity | ].
  rewrite consumed_append.
  rewrite run_cat, run_lit, run_cat, run_group.
  erewrite plus_run; [reflexivity | assumption | assumption | assumption | ].
  rewrite consumed_append. rewrite chat_re_tail.
  now destruct (argument_text tail).
Qed.

(** On a chat line the pattern finds the player, the command word and the
    argument text. *)
Lemma chat_match_line :
  chat_match (pre ++ "<" ++ player ++ "> ." ++ command ++ tail)
  = Some (player, command, argument_text tail).
Proof using pre_plain player_some player_plain command_some command_word
            tail_stops.
  unfold chat_match. rewrite chat_re_skips.
  rewrite (search_here _ _ _ chat_re_here).
  now destruct (argument_text tail).
Qed.

End ChatLine.

(** *** The events of a line *)

Lemma bind_ret_r (m : M unit) s : (m ;; ret tt) s = m s.
Proof. unfold bind, ret. now destruct (m s) as [[[]|e] s']. Qed.

Lemma bind_assoc {A B C} (m : M A) (f : A -> M B) (g : B -> M C) s :
  bind (bind m f) g s = bind m (fun a => bind (f a) g) s.
Proof. unfold bind. destruct (m s) as [[a|e] s']; reflexivity. Qed.

Lemma bind_ext {A B} (m : M A) (f g : A -> M B) s :
  (forall a s', f a s' = g a s') -> bind m f s = bind m g s.
Proof. intros E. unfold bind. destruct (m s) as [[a|e] s']; auto. Qed.

(** [handle_line] handles the events of the line one after the other. *)
Lemma handle_line_events raw s :
  handle_line raw s
  = (let line := Str.strip raw in
     if Str.is_empty line then ret tt
     else log INFO (ServerLine line) ;; for_each (classify line) handle_event) s.
Proof.
  unfold handle_line, classify. cbv zeta.
  destruct (Str.is_empty (Str.strip raw)); [reflexivity|].
  apply bind_ext. intros _ s1.
  destruct (chat_match (Str.strip raw)) as [[[player command] args_str]|];
    destruct (position_match (Str.strip raw)) as [[[[p x] y] z]|];
    simpl app; simpl for_each; simpl handle_event.
  - apply bind_ext. intros _ s2. now rewrite bind_ret_r.
  - reflexivity.
  - unfold bind at 1. unfold ret at 1. now rewrite bind_ret_r.
  - reflexivity.
Qed.

(** The loop of [handle_output], one read at a time: a line is handled, a
    read that fails ends the loop. *)
Lemma handle_output_line raw reads s :
  handle_output (Val raw :: reads) s
  = match handle_line raw s with
    | (Val _, s1) => handle_output reads s1
    | (Raise e, s1) => (Raise e, s1)
    end.
Proof. reflexivity. Qed.

Lemma handle_output_fails e reads s :
  handle_output (Raise e :: reads) s = (Raise e, s).
Proof. reflexivity. Qed.

(** What every line keeps, the loop keeps. *)
Lemma handle_output_invariant (P : state -> Prop) :
  (forall raw s, P s -> P (exec (handle_line raw) s)) ->
  forall reads s, P s -> P (exec (handle_output reads) s).
Proof.
  intros Step. unfold exec.
  induction reads as [|[raw|e] reads IH]; intros s H; [exact H| |exact H].
  rewrite handle_output_line. pose proof (Step raw s H) as H1.
  unfold exec in H1.
  destruct (handle_line raw s) as [[[]|e] s1]; [now apply IH | exact H1].
Qed.

(** C1, refuted as stated.  The line above matches both patterns, and both
    events are acted on: Bob, who waits for a home, is teleported to the
    spawn by the command and gets the home set by the report. *)
Lemma first_match_does_not_win :
  let line := chat_and_position_line in
  let s := with_pending_homes ["Bob"] (exec load_warps (init None None 0 [])) in
  let s' := exec (handle_line line) s in
  classify line
  = [ChatCommand "Bob" "warp"
       ["spawn"; "Bob"; "has"; "the"; "following"; "entity"; "data:";
        "[1d,"; "2d,"; "3d]"];
     PositionResponse "Bob" "1" "2" "3"]
  /\ ~ (List.length (classify line) <= 1)%nat
  /\ In (Exec "tp Bob 0 64 -3") (trace s')
  /\ Dict.get "Bob" (homes s') = Some "1 2 3".
Proof.
  cbv zeta. split; [vm_compute; reflexivity|].
  split; [vm_compute; lia|].
  split; [vm_compute; tauto | vm_compute; reflexivity].
Qed.

(** C1, as the code has it.  Both patterns are tried on every line: a line
    gives no event, the chat command alone, the position report alone, or
    the chat command followed by the position report; [handle_output] acts
    on them in that order. *)
Theorem both_patterns_are_tried (raw : string) (s : state) :
  let line := Str.strip raw in
  classify line
  = match chat_match line, position_match line with
    | None, None => []
    | Some (player, command, args_str), None =>
        [ChatCommand player command (split_args args_str)]
    | None, Some (player, x, y, z) => [PositionResponse player x y z]
    | Some (player, command, args_str), Some (player', x, y, z) =>
        [ChatCommand player command (split_args args_str);
         PositionResponse player' x y z]
    end
  /\ (List.length (classify line) <= 2)%nat
  /\ (List.length (filter is_chat_command (classify line)) <= 1)%nat
  /\ (List.length (filter (fun e => negb (is_chat_command e)) (classify line)) <= 1)%nat
  /\ handle_line raw s
     = (if Str.is_empty line then ret tt
        else log INFO (ServerLine line) ;; for_each (classify line) handle_event) s.
Proof.
  intros line. split; [|split; [|split; [|split]]].
  - unfold classify.
    destruct (chat_match line) as [[[player command] args_str]|];
      destruct (position_match line) as [[[[p x] y] z]|]; reflexivity.
  - unfold classify.
    destruct (chat_match line) as [[[player command] args_str]|];
      destruct (position_match line) as [[[[p x] y] z]|]; simpl; lia.
  - unfold classify.
    destruct (chat_match line) as [[[player command] args_str]|];
      destruct (position_match line) as [[[[p x] y] z]|]; simpl; lia.
  - unfold classify.
    destruct (chat_match line) as [[[player command] args_str]|];
      destruct (position_match line) as [[[[p x] y] z]|]; simpl; lia.
  - apply handle_line_events.
Qed.

(** C9. Every chat match is dispatched once, with the argument text split
    on white space, or no argument when there is no argument text.  And a
    line of the chat grammar does match: after a prefix without [<], the
    player between [<] and [>], a space, the dot, the command word, and then
    nothing or white space and arguments.  The command is dispatched once
    with that player, that word and the arguments [tail.split()]. *)
Theorem chat_command_extracted :
  (forall line player command args_str,
     chat_match line = Some (player, command, args_str) ->
     filter is_chat_command (classify line)
     = [ChatCommand player command
          match args_str with
          | Some text => if Str.is_empty text then [] else Str.split text
          | None => []
          end])
  /\ (forall raw pre player command tail s,
        Str.strip raw = pre ++ "<" ++ player ++ "> ." ++ command ++ tail ->
        Str.all_chars not_lt pre = true ->
        player <> EmptyString -> Str.all_chars Str.not_gt player = true ->
        command <> EmptyString -> Str.all_chars Str.is_word command = true ->
        tail = EmptyString \/ Str.stops Str.is_space tail = false ->
        Str.all_chars Str.is_dot tail = true ->
        let line := Str.strip raw in
        let args := Str.split tail in
        (tail = EmptyString -> args = [])
        /\ filter is_chat_command (classify line)
           = [ChatCommand player command args]
        /\ handle_line raw s
           = (log INFO (ServerLine line) ;;
              log INFO (ProcessingCommand player command args) ;;
              handle_command player command args ;;
              match position_match line with
              | Some (p, x, y, z) => handle_position p x y z
              | None => ret tt
              end) s).
Proof.
  split.
  - intros line player command args_str M. unfold classify. rewrite M.
    destruct (position_match line) as [[[[p x] y] z]|]; reflexivity.
  - intros raw pre player command tail s E Pre P1 P2 C1 C2 T D line args.
    assert (W : Str.stops Str.is_word tail = true).
    { destruct T as [-> | T]; [reflexivity|].
      destruct tail as [|c t]; [discriminate|]. simpl in *.
      apply negb_false_iff in T. now rewrite StrFacts.space_not_word. }
    assert (M : chat_match line = Some (player, command, argument_text tail)).
    { subst line. rewrite E. now apply chat_match_line. }
    assert (A : split_args (argument_text tail) = args).
    { subst args. unfold argument_text.
      destruct T as [-> | T]; [reflexivity|]. rewrite T.
      rewrite StrFacts.take_while_id by now apply StrFacts.all_chars_drop_while.
      unfold split_args. rewrite <- (StrFacts.split_lstrip tail).
      now destruct (Str.lstrip tail). }
    split; [now intros ->|]. split.
    + unfold classify. rewrite M, A.
      destruct (position_match line) as [[[[p x] y] z]|]; reflexivity.
    + unfold handle_line. fold line. rewrite M, A.
      assert (N : Str.is_empty line = false).
      { subst line. rewrite E. destruct pre; reflexivity. }
      rewrite N. apply bind_ext. intros _ s1. now rewrite bind_assoc.
Qed.

(* ================================================================= *)
(** ** The data model is kept

    The properties of the sweep and of the warp file are stated for dicts
    without a repeated key, lower-case warp names and coordinates of three
    parts.  The states of a run all are of that kind: the property holds at
    start-up and every step of the program keeps it. *)

Module TokenFacts.
Import Str StrFacts.

Lemma lower_char_idem c : lower_char (lower_char c) = lower_char c.
Proof.
  destruct c as [[] [] [] [] [] [] [] []]; vm_compute; reflexivity.
Qed.

Lemma lower_idem s : lower (lower s) = lower s.
Proof. induction s as [|c s IH]; simpl; [|rewrite lower_char_idem, IH]; auto. Qed.

Lemma token_cons c t :
  is_space c = false -> is_token t = true -> is_token (String c t) = true.
Proof.
  unfold is_token. simpl. intros -> H. apply andb_true_iff in H. tauto.
Qed.

Lemma token_char c : is_space c = false -> is_token (String c EmptyString) = true.
Proof. unfold is_token. simpl. now intros ->. Qed.

(** [split] returns tokens. *)
Lemma split_tokens s : Forall (fun t => is_token t = true) (split s).
Proof.
  induction s as [|c s IH]; simpl; [constructor|].
  destruct (is_space c) eqn:C; auto.
  destruct (stops _ s).
  - constructor; auto. now apply token_char.
  - destruct (split s) as [|t ts].
    + constructor; auto. now apply token_char.
    + inversion IH; subst. constructor; auto. now apply token_cons.
Qed.

(** A token followed by nothing or by white space is the first part. *)
Lemma split_token t rest :
  is_token t = true ->
  stops (fun c => negb (is_space c)) rest = true ->
  split (t ++ rest) = t :: split rest.
Proof.
  unfold is_token. induction t as [|c t IH]; [discriminate|].
  simpl. intros T R. apply andb_true_iff in T. destruct T as [C T].
  apply negb_true_iff in C. rewrite C.
  destruct t as [|c' t].
  - simpl. now rewrite R.
  - simpl in T |- *. apply andb_true_iff in T. destruct T as [C' T].
    rewrite C'. simpl in IH. rewrite C', T in IH.
    apply negb_true_iff in C'. rewrite C' in IH |- *.
    now rewrite (IH eq_refl R).
Qed.

Lemma split_space rest : split (" " ++ rest) = split rest.
Proof. reflexivity. Qed.

Lemma split_one t : is_token t = true -> split t = [t].
Proof.
  intros T. rewrite <- (append_nil_r t) at 1. now rewrite split_token.
Qed.

(** Three tokens joined by spaces make a coordinate string. *)
Lemma coords_is_coord x y z :
  is_token x = true -> is_token y = true -> is_token z = true ->
  Str.split (coords x y z) = [x; y; z] /\ is_coord (coords x y z) = true.
Proof.
  intros X Y Z.
  assert (S : Str.split (coords x y z) = [x; y; z]).
  { unfold coords. rewrite split_token, split_space; auto.
    rewrite split_token, split_space; auto. now rewrite split_one. }
  split; [exact S|]. unfold is_coord. rewrite S. apply String.eqb_refl.
Qed.

End TokenFacts.

Section DataModel.
Import Dict DictFacts.

Lemma In_set {V} k (v : V) d x :
  In x (set k v d) -> x = (k, v) \/ In x d.
Proof.
  induction d as [|[k' v'] d IH]; simpl.
  - intros [<- | []]. now left.
  - destruct (k =? k') eqn:E; simpl.
    + apply String.eqb_eq in E. subst k'. intros [<- | I]; auto.
    + intros [<- | I]; auto. destruct (IH I); auto.
Qed.

Lemma well_formed_set name pos w :
  well_formed_warps w -> Str.lower name = name -> is_coord pos = true ->
  well_formed_warps (set name pos w).
Proof.
  intros [W C] L P. split; [now apply wf_set|].
  intros n p I. apply In_set in I. destruct I as [[= -> ->] | I]; auto.
Qed.

Lemma read_warps_well_formed rows w :
  Forall good_row rows -> well_formed_warps w ->
  well_formed_warps (read_warps rows w).
Proof.
  intros G. revert w. induction G as [|r rows R G IH]; intros w W; simpl; auto.
  apply IH. destruct r as [|name [|x [|y [|z [|]]]]]; auto.
  destruct R as (X & Y & Z). apply well_formed_set; auto.
  - apply TokenFacts.lower_idem.
  - now apply TokenFacts.coords_is_coord.
Qed.

Lemma read_homes_wf rows h : wf h -> wf (read_homes rows h).
Proof.
  revert h. induction rows as [|r rows IH]; intros h W; simpl; auto.
  apply IH. destruct r as [|player [|x [|y [|z [|]]]]]; auto.
  now apply wf_set.
Qed.

(** [save_warps] writes rows that load into coordinates. *)
Lemma write_warps_good w : Forall good_row (fst (write_warps w)).
Proof.
  induction w as [|[name pos] w IH]; simpl; [constructor|].
  destruct ((name =? "spawn") && (pos =? spawn_point)); auto.
  pose proof (TokenFacts.split_tokens pos) as T.
  destruct (Str.split pos) as [|x [|y [|z [|]]]]; try constructor.
  destruct (write_warps w) as [rows e]. simpl in *. constructor; auto.
  inversion T as [|? ? X T1]; subst. inversion T1 as [|? ? Y T2]; subst.
  inversion T2 as [|? ? Z T3]; subst. simpl. auto.
Qed.

Lemma data_model_init homes_csv warps_csv now draws :
  data_model (init homes_csv warps_csv now draws).
Proof.
  unfold data_model, well_formed_warps, wf. simpl.
  repeat split; try constructor; intros; contradiction.
Qed.

Lemma data_model_said es s : data_model s -> data_model (said es s).
Proof. exact (fun H => H). Qed.

Ltac data_model_parts := split; [|split; [|split; [|split]]]; simpl; auto.

Lemma data_model_load_homes s : data_model s -> data_model (exec load_homes s).
Proof.
  intros D. unfold exec.
  destruct (load_homes_cases s) as [-> | (rows & es & _ & ->)]; [exact D|].
  destruct D as (H & W & P & L & T). data_model_parts.
  now apply read_homes_wf.
Qed.

Lemma token_no_cr t : is_token t = true -> no_cr t = true.
Proof.
  unfold is_token, no_cr. intros H. apply andb_true_iff in H.
  destruct H as [_ H]. induction t as [|c t IH]; simpl in *; auto.
  apply andb_true_iff in H. destruct H as [C H].
  apply negb_true_iff in C. now rewrite (not_space_not_cr c C), IH.
Qed.

(** Rows that load into coordinates still do when read in text mode. *)
Lemma good_text_mode rows : Forall good_row rows -> Forall good_row (text_mode rows).
Proof.
  unfold text_mode. induction 1 as [|r rows R G IH]; simpl; constructor; auto.
  destruct r as [|name [|x [|y [|z [|]]]]]; simpl; auto.
  destruct R as (X & Y & Z).
  now rewrite !universal_newlines_id by now apply token_no_cr.
Qed.

Lemma spawn_point_well_formed w :
  well_formed_warps w -> well_formed_warps (set "spawn" spawn_point w).
Proof. intros W. now apply well_formed_set. Qed.

Lemma data_model_load_warps s :
  match warps_file s with
  | Some rows => Forall good_row rows
  | None => True
  end ->
  data_model s -> data_model (exec load_warps s).
Proof.
  intros G (H & W & P & L & T). unfold exec.
  destruct (load_warps_cases s) as (w & es & -> & C).
  data_model_parts.
  destruct C as [-> | [-> | (rows & R & C)]]; auto.
  - now apply spawn_point_well_formed.
  - rewrite R in G.
    pose proof (read_warps_well_formed _ (warps s) (good_text_mode rows G) W) as RW.
    destruct C as [-> | ->]; auto. now apply spawn_point_well_formed.
Qed.

Lemma data_model_save_homes s : data_model s -> data_model (exec save_homes s).
Proof. intros D. unfold exec. now rewrite save_homes_run. Qed.

Lemma data_model_save_warps s :
  data_model s ->
  data_model (exec save_warps s)
  /\ match warps_file (exec save_warps s) with
     | Some rows => Forall good_row rows
     | None => True
     end.
Proof.
  intros D. unfold exec. rewrite save_warps_run_any. split; [exact D|].
  simpl. apply write_warps_good.
Qed.

Lemma data_model_sweep s :
  data_model s -> data_model (exec check_tpa_timeouts_turn s).
Proof.
  intros (H & W & P & L & T). unfold exec.
  rewrite check_tpa_timeouts_turn_run by assumption.
  data_model_parts. now apply wf_filter.
Qed.

Ltac open_matches :=
  repeat match goal with
         | |- context [match ?x with _ => _ end] => destruct x eqn:?; simpl
         | |- context [if ?x then _ else _] => destruct x eqn:?; simpl
         end.

Lemma data_model_cmd_tpa player args s :
  data_model s -> data_model (snd (cmd_tpa player args s)).
Proof.
  intros (H & W & P & L & T). unfold cmd_tpa. run_m.
  destruct args as [|target more]; [data_model_parts|].
  destruct (target =? player); [data_model_parts|].
  destruct (match get target (tpa_requests s) with
            | Some (existing_requester, _) => existing_requester =? player
            | None => false
            end); data_model_parts.
  now apply wf_set.
Qed.

Lemma data_model_cmd_tpaccept player s :
  data_model s -> data_model (snd (cmd_tpaccept player s)).
Proof.
  intros (H & W & P & L & T).
  destruct (get player (tpa_requests s)) as [[requester stamp]|] eqn:G.
  - rewrite (cmd_tpaccept_run player requester stamp) by assumption.
    data_model_parts. now apply wf_remove.
  - rewrite cmd_tpaccept_missing by assumption. data_model_parts.
Qed.

Lemma data_model_cmd_tpdeny player s :
  data_model s -> data_model (snd (cmd_tpdeny player s)).
Proof.
  intros (H & W & P & L & T).
  destruct (get player (tpa_requests s)) as [[requester stamp]|] eqn:G.
  - rewrite (cmd_tpdeny_run player requester stamp) by assumption.
    data_model_parts. now apply wf_remove.
  - rewrite cmd_tpdeny_missing by assumption. data_model_parts.
Qed.

Lemma data_model_cmd_setwarp player args s :
  data_model s -> data_model (snd (cmd_setwarp player args s)).
Proof.
  intros (H & W & P & L & T). unfold cmd_setwarp. run_m.
  destruct args as [|name more]; data_model_parts.
  - now apply wf_set.
  - intros p n I. apply In_set in I. destruct I as [[= -> ->] | I].
    + apply TokenFacts.lower_idem.
    + now apply (L p).
Qed.

Lemma data_model_cmd_warp player args s :
  data_model s -> data_model (snd (cmd_warp player args s)).
Proof.
  intros D. unfold cmd_warp. run_m.
  destruct args as [|name more]; [exact D|].
  destruct (get (Str.lower name) (warps s)); exact D.
Qed.

Lemma data_model_cmd_home player s :
  data_model s -> data_model (snd (cmd_home player s)).
Proof.
  intros D. unfold cmd_home. run_m. destruct (get player (homes s)); exact D.
Qed.

Lemma data_model_cmd_spawn player s :
  data_model s -> data_model (snd (cmd_spawn player s)).
Proof.
  intros D. unfold cmd_spawn. run_m. destruct (get "spawn" (warps s)); exact D.
Qed.

Lemma randint_run lo hi s :
  exists v ds, randint lo hi s = (Val v, with_dice ds s).
Proof.
  unfold randint. destruct (dice s) as [|d ds] eqn:E.
  - exists lo, []. unfold with_dice. rewrite <- E. now destruct s.
  - now exists (lo + d mod (hi - lo + 1))%Z, ds.
Qed.

Lemma data_model_cmd_rtp player s :
  data_model s -> data_model (snd (cmd_rtp player s)).
Proof.
  intros D. unfold cmd_rtp. unfold bind at 1.
  destruct (randint_run (- rtp_radius) rtp_radius s) as [x [ds1 ->]].
  unfold bind at 1.
  destruct (randint_run (- rtp_radius) rtp_radius (with_dice ds1 s))
    as [z [ds2 ->]].
  run_m. exact D.
Qed.

Lemma data_model_player_only name body player args s :
  (forall s, data_model s -> data_model (snd (body player s))) ->
  data_model s -> data_model (snd (player_only name body player args s)).
Proof.
  intros B D. unfold player_only. destruct args; [now apply B | exact D].
Qed.

(** Every method of the dispatcher keeps the data model, whether it returns
    or raises. *)
Lemma data_model_method name h player args s :
  In (name, h) cmd_methods ->
  data_model s -> data_model (snd (h player args s)).
Proof.
  intros I D. simpl in I.
  destruct I as [I|[I|[I|[I|[I|[I|[I|[I|[I|[I|[I|[]]]]]]]]]]]];
    injection I as _ <-.
  - now apply data_model_cmd_tpa.
  - apply data_model_player_only; [apply data_model_cmd_tpaccept | exact D].
  - apply data_model_player_only; [apply data_model_cmd_tpdeny | exact D].
  - apply data_model_player_only; [intros s0 D0; exact D0 | exact D].
  - apply data_model_player_only; [apply data_model_cmd_home | exact D].
  - now apply data_model_cmd_setwarp.
  - now apply data_model_cmd_warp.
  - apply data_model_player_only; [intros s0 D0; exact D0 | exact D].
  - apply data_model_player_only; [apply data_model_cmd_spawn | exact D].
  - apply data_model_player_only; [apply data_model_cmd_rtp | exact D].
  - apply data_model_player_only; [intros s0 D0; exact D0 | exact D].
Qed.

Lemma data_model_handle_command player command args s :
  data_model s -> data_model (exec (handle_command player command args) s).
Proof.
  intros D. unfold exec, handle_command.
  destruct (getattr_cmd ("cmd_" ++ command)) as [h|] eqn:G; [|exact D].
  apply get_In in G.
  pose proof (data_model_method _ h player args s G D) as D'.
  unfold try_except. destruct (h player args s) as [[[]|e] s1]; exact D'.
Qed.

Lemma data_model_handle_position player x y z s :
  is_token x = true -> is_token y = true -> is_token z = true ->
  data_model s -> data_model (exec (handle_position player x y z) s).
Proof.
  intros X Y Z (H & W & P & L & T). unfold exec.
  destruct (StrSet.mem player (pending_homes s)) eqn:M.
  - rewrite handle_position_home by assumption. data_model_parts.
    now apply wf_set.
  - destruct (get player (pending_warps s)) as [warp_name|] eqn:G.
    + rewrite (handle_position_warp player warp_name) by assumption.
      data_model_parts.
      * apply well_formed_set; auto.
        -- apply (L player). now apply get_In.
        -- now apply TokenFacts.coords_is_coord.
      * now apply wf_remove.
      * intros p n I. apply filter_In in I. now apply (L p).
    + unfold handle_position. run_m. rewrite M, G. data_model_parts.
Qed.

(** Whatever the server prints, [handle_output] keeps the data model. *)
Lemma data_model_handle_line raw s :
  data_model s -> data_model (exec (handle_line raw) s).
Proof.
  intros D. unfold exec. rewrite handle_line_events. cbv zeta.
  destruct (Str.is_empty (Str.strip raw)); [exact D|].
  unfold bind at 1. rewrite log_run.
  assert (E : forall events s0,
             Forall (fun e => match e with
                              | PositionResponse _ x y z =>
                                  is_token x = true /\ is_token y = true
                                  /\ is_token z = true
                              | ChatCommand _ _ _ => True
                              end) events ->
             data_model s0 ->
             data_model (snd (for_each events handle_event s0))).
  { induction events as [|e events IH]; intros s0 F D0; [exact D0|].
    inversion F as [|? ? Fe F']; subst. simpl for_each. unfold bind at 1.
    assert (De : data_model (snd (handle_event e s0))).
    { destruct e as [p c a | p x y z]; simpl.
      - unfold bind. rewrite log_run.
        now apply (data_model_handle_command p c a (said _ s0)).
      - destruct Fe as (X & Y & Z).
        now apply (data_model_handle_position p x y z s0). }
    destruct (handle_event e s0) as [[[]|err] s1]; [now apply IH | exact De]. }
  apply E; [|exact D]. unfold classify.
  destruct (chat_match (Str.strip raw)) as [[[p c] a]|];
    destruct (position_match (Str.strip raw)) as [[[[p' x] y] z]|] eqn:P;
    repeat constructor;
    now destruct (position_match_tokens _ _ _ _ _ P) as (X & Y & Z).
Qed.

Lemma data_model_handle_output reads s :
  data_model s -> data_model (exec (handle_output reads) s).
Proof. apply handle_output_invariant. exact data_model_handle_line. Qed.

(** A whole run: start-up with a warp file that [save_warps] could have
    written, then any output of the server, then the sweep. *)
Lemma data_model_session homes_csv warps_csv now draws reads :
  match warps_csv with
  | Some rows => Forall good_row rows
  | None => True
  end ->
  let started :=
    exec load_warps (exec load_homes (init homes_csv warps_csv now draws)) in
  let served := exec (handle_output reads) started in
  data_model started /\ data_model served
  /\ data_model (exec check_tpa_timeouts_turn served).
Proof.
  intros G started served.
  assert (D : data_model started).
  { apply data_model_load_warps.
    - unfold exec. rewrite load_homes_run by reflexivity.
      now destruct homes_csv.
    - apply data_model_load_homes, data_model_init. }
  split; [exact D|]. split.
  - now apply data_model_handle_output.
  - now apply data_model_sweep, data_model_handle_output.
Qed.

End DataModel.

(* ================================================================= *)
(** ** The home track, from the line to the file *)

Lemma write_homes_all h :
  homes_writable h -> write_homes h = (map row_of h, None).
Proof.
  induction h as [|[player pos] h IH]; intros C; simpl; auto.
  assert (L : List.length (Str.split pos) = 3%nat) by (apply (C player); now left).
  unfold row_of at 1. cbn [fst snd].
  destruct (Str.split pos) as [|x [|y [|z [|]]]]; try discriminate.
  rewrite IH; auto. intros n p I. apply (C n p). now right.
Qed.

Lemma homes_writable_set player x y z h :
  is_token x = true -> is_token y = true -> is_token z = true ->
  homes_writable h -> homes_writable (Dict.set player (coords x y z) h).
Proof.
  intros X Y Z C p c I. apply In_set in I. destruct I as [[= -> ->] | I].
  - now rewrite (proj1 (TokenFacts.coords_is_coord x y z X Y Z)).
  - now apply (C p c).
Qed.

(** A line that is a position report and no chat command is logged and
    handed to the position branch. *)
Lemma handle_line_position raw player x y z s :
  position_match (Str.strip raw) = Some (player, x, y, z) ->
  chat_match (Str.strip raw) = None ->
  handle_line raw s
  = handle_position player x y z (said [Log INFO (ServerLine (Str.strip raw))] s).
Proof.
  intros P C. unfold handle_line. cbv zeta. rewrite P, C.
  destruct (Str.strip raw) eqn:E; [discriminate|]. reflexivity.
Qed.

(** C2, as it does not hold.  First, the persisting: a homes.csv written by
    hand loads into a home of four parts for Amy; Bob then waits on both
    tracks, and the report for Bob sets the home in memory and tells Bob so,
    but [save_homes] stops at the home of Amy: the file is left empty, the
    row of Bob is not in it, and the error is logged.  Second, the pending
    warp: a line that is a position report for Bob and also a chat command
    of Bob is handled as a command first, and [setwarp] gives Bob another
    pending warp before the home track takes the report. *)
Theorem home_set_but_not_saved :
  let started := exec load_homes (init (Some hand_made_homes) None 0 []) in
  let s := exec (handle_output (as_read ["<Bob> .sethome"; "<Bob> .setwarp hub"]))
                started in
  let s' := exec (handle_line "Bob has the following entity data: [1d, 2d, 3d]") s in
  let s'' := exec (handle_line
                     "<Bob> .setwarp den Bob has the following entity data: [1d, 2d, 3d]")
                  s in
  homes s = [("Amy", "1 2 3 4")]
  /\ StrSet.mem "Bob" (pending_homes s) = true
  /\ Dict.get "Bob" (pending_warps s) = Some "hub"
  /\ homes s' = [("Amy", "1 2 3 4"); ("Bob", "1 2 3")]
  /\ In (Exec (notice "Bob" (msg_home_set "1" "2" "3"))) (trace s')
  /\ homes_file s' = Some []
  /\ In (Log ERROR (ErrorSavingHomes
                      (ValueError "too many values to unpack (expected 3)")))
        (trace s')
  /\ Dict.get "Bob" (homes s'') = Some "1 2 3"
  /\ Dict.get "Bob" (pending_warps s'') = Some "den".
Proof. vm_compute. intuition. Qed.

(** C2. A position report for a player who waits on both tracks.  The home
    track takes it: the home is written, the player leaves the pending-home
    set, the homes are saved and the player is told; the pending warp of
    the player, like the warps and their file, stays as it was.  Saving
    writes the homes in their order up to the first that does not split
    into three parts; when there is none, and the three numbers are what
    the position pattern lets through, the file holds every home, the row of
    the player among them, and no error is logged.  A line that matches the
    position pattern and not the chat pattern is handled in this way, its
    numbers being what the pattern lets through. *)
Theorem home_track_before_warp_track
        (player warp_name x y z : string) (s : state) :
  StrSet.mem player (pending_homes s) = true ->
  Dict.get player (pending_warps s) = Some warp_name ->
  let s' := exec (handle_position player x y z) s in
  handle_position player x y z s = (Val tt, s')
  /\ homes s' = Dict.set player (coords x y z) (homes s)
  /\ Dict.get player (homes s') = Some (coords x y z)
  /\ pending_homes s' = StrSet.remove player (pending_homes s)
  /\ StrSet.mem player (pending_homes s') = false
  /\ homes_file s' = Some (fst (write_homes (homes s')))
  /\ trace s'
     = (trace s ++ save_log ErrorSavingHomes (snd (write_homes (homes s')))
        ++ [Exec (notice player (msg_home_set x y z))])%list
  /\ (homes_writable (homes s) ->
      is_token x = true -> is_token y = true -> is_token z = true ->
      homes_file s' = Some (map row_of (homes s'))
      /\ In [player; x; y; z] (map row_of (homes s'))
      /\ trace s' = (trace s ++ [Exec (notice player (msg_home_set x y z))])%list)
  /\ (forall raw,
        position_match (Str.strip raw) = Some (player, x, y, z) ->
        chat_match (Str.strip raw) = None ->
        is_token x = true /\ is_token y = true /\ is_token z = true
        /\ handle_line raw s
           = handle_position player x y z
               (said [Log INFO (ServerLine (Str.strip raw))] s))
  /\ pending_warps s' = pending_warps s
  /\ Dict.get player (pending_warps s') = Some warp_name
  /\ warps s' = warps s
  /\ warps_file s' = warps_file s.
Proof.
  intros P G s'. subst s'. unfold exec.
  rewrite (handle_position_home player x y z s P). cbn [snd].
  cbn [homes pending_homes homes_file trace pending_warps warps warps_file
       said with_trace with_homes_file with_pending_homes with_homes].
  split; [reflexivity|]. split; [reflexivity|].
  split; [apply DictFacts.get_set_eq|].
  split; [reflexivity|]. split; [apply StrSetFacts.mem_remove_eq|].
  split; [reflexivity|]. split; [reflexivity|].
  split.
  { intros HW X Y Z.
    rewrite write_homes_all by now apply homes_writable_set.
    split; [reflexivity|]. split; [|reflexivity].
    apply in_map_iff. exists (player, coords x y z). split.
    - unfold row_of. cbn [fst snd].
      now rewrite (proj1 (TokenFacts.coords_is_coord x y z X Y Z)).
    - apply DictFacts.get_In. apply DictFacts.get_set_eq. }
  split.
  { intros raw PM CM.
    destruct (position_match_tokens _ _ _ _ _ PM) as (X & Y & Z).
    repeat split; auto. now apply handle_line_position. }
  repeat split; auto.
Qed.

(* ================================================================= *)
(** ** The theorems at work on concrete runs *)

(** *** The string functions and the two patterns *)

Example strip_line :
  Str.strip ("  <Bob> .home " ++ String (ascii_of_nat 10) EmptyString)
  = "<Bob> .home".
Proof. reflexivity. Qed.

Example split_runs : Str.split "  a bc   d " = ["a"; "bc"; "d"].
Proof. reflexivity. Qed.

Example lower_name : Str.lower "Town-2" = "town-2".
Proof. reflexivity. Qed.

Example chat_without_arguments :
  chat_match "[12:00:01] [Server thread/INFO]: <Bob> .sethome"
  = Some ("Bob", "sethome", None).
Proof. reflexivity. Qed.

Example chat_with_arguments :
  chat_match "<Bob> .tpa   Amy  now" = Some ("Bob", "tpa", Some "Amy  now").
Proof. reflexivity. Qed.

Example chat_not_a_command :
  chat_match "<Bob> hello there" = None
  /\ chat_match "[12:00:01] [Server thread/INFO]: Bob joined the game" = None.
Proof. split; reflexivity. Qed.

Example position_report :
  position_match
    "[12:00:02] [Server thread/INFO]: Bob has the following entity data: [1.5d, 64.0d, -3.25d]"
  = Some ("Bob", "1.5", "64.0", "-3.25").
Proof. reflexivity. Qed.

Example position_report_integers :
  position_match "Bob has the following entity data: [10d, 64.d, -3d]"
  = Some ("Bob", "10", "64.", "-3").
Proof. reflexivity. Qed.

Example position_not_a_report :
  position_match "Bob has the following entity data: [1.5d, 64.0d]" = None.
Proof. reflexivity. Qed.

(** *** A session *)

(** [sethome], the report that answers it, and [home]. *)
Example sethome_session :
  let s := exec (handle_output
                   (as_read ["<Bob> .sethome";
                    "Bob has the following entity data: [1.5d, 64.0d, -3.25d]";
                    "<Bob> .home"]))
                (init None None 0 []) in
  homes s = [("Bob", "1.5 64.0 -3.25")]
  /\ pending_homes s = []
  /\ homes_file s = Some [["Bob"; "1.5"; "64.0"; "-3.25"]]
  /\ console s
     = ["data get entity Bob Pos";
        tellraw "Bob" (sect ++ "aScanning your position...");
        tellraw "Bob" (msg_home_set "1.5" "64.0" "-3.25");
        "tp Bob 1.5 64.0 -3.25";
        tellraw "Bob" (sect ++ "aTeleported to home!")].
Proof. cbv zeta. repeat split; reflexivity. Qed.

(** Two [setwarp] in a row: the report commits the second name. *)
Example second_setwarp_wins :
  let s := exec (handle_output
                   (as_read ["<Bob> .setwarp First";
                    "<Bob> .setwarp Second";
                    "Bob has the following entity data: [1d, 2d, 3d]"]))
                (exec load_warps (init None None 0 [])) in
  warps s = [("spawn", "0 64 -3"); ("second", "1 2 3")]
  /\ pending_warps s = [].
Proof. cbv zeta. split; reflexivity. Qed.

(** A request replaced by another requester, then accepted. *)
Example tpa_session :
  let s := exec (handle_output
                   (as_read ["<Amy> .tpa Bob"; "<Cid> .tpa Bob"; "<Bob> .tpaccept";
                    "<Bob> .tpdeny"]))
                (init None None 0 []) in
  tpa_requests s = []
  /\ console s
     = [tellraw "Amy" (msg_sent "Bob");
        tellraw "Bob" (msg_requested "Amy");
        tellraw "Cid" (msg_sent "Bob");
        tellraw "Bob" (msg_requested "Cid");
        "tp Cid Bob";
        tellraw "Bob" (msg_accepted "Cid");
        tellraw "Cid" (msg_was_accepted "Bob");
        tellraw "Bob" msg_no_pending].
Proof. cbv zeta. split; reflexivity. Qed.

(** *** The claims on concrete inputs *)

Lemma home_track_before_warp_track_witness :
  let s' := exec (handle_position "Bob" "1.5" "64.0" "-3.25") bob_waits_twice in
  Dict.get "Bob" (homes s') = Some "1.5 64.0 -3.25"
  /\ StrSet.mem "Bob" (pending_homes s') = false
  /\ homes_file s' = Some [["Bob"; "1.5"; "64.0"; "-3.25"]]
  /\ trace s' = [Exec (notice "Bob" (msg_home_set "1.5" "64.0" "-3.25"))]
  /\ Dict.get "Bob" (pending_warps s') = Some "hub"
  /\ handle_line "Bob has the following entity data: [1.5d, 64.0d, -3.25d]"
                 bob_waits_twice
     = handle_position "Bob" "1.5" "64.0" "-3.25"
         (said [Log INFO (ServerLine
                            "Bob has the following entity data: [1.5d, 64.0d, -3.25d]")]
               bob_waits_twice).
Proof.
  pose proof (home_track_before_warp_track "Bob" "hub" "1.5" "64.0" "-3.25"
                bob_waits_twice eq_refl eq_refl) as H.
  cbv zeta in H.
  destruct H as (_ & _ & H1 & _ & H2 & _ & _ & H3 & H4 & _ & H5 & _).
  destruct H3 as (F & _ & T); try reflexivity.
  { intros player pos []. }
  destruct (H4 "Bob has the following entity data: [1.5d, 64.0d, -3.25d]"
               eq_refl eq_refl) as (_ & _ & _ & L).
  cbv zeta. repeat split; assumption.
Defined.

Lemma tpa_request_cases_witness :
  let s' := exec (cmd_tpa "Amy" ["Bob"]) cid_asked_bob in
  Dict.get "Bob" (tpa_requests s') = Some ("Amy", 100%Q)
  /\ exec (cmd_tpa "Cid" ["Bob"]) cid_asked_bob
     = said [Exec (notice "Cid" (msg_duplicate "Bob"))] cid_asked_bob
  /\ exec (cmd_tpa "Bob" ["Bob"]) cid_asked_bob
     = said [Exec (notice "Bob" msg_self)] cid_asked_bob.
Proof.
  cbv zeta. split; [|split].
  - destruct (tpa_request_cases "Amy" "Bob" [] cid_asked_bob) as (_ & _ & H).
    cbv zeta in H. destruct H as (R & G & _).
    + discriminate.
    + intros stamp. discriminate.
    + unfold exec. rewrite R. exact G.
  - destruct (tpa_request_cases "Cid" "Bob" [] cid_asked_bob) as (_ & H & _).
    unfold exec. rewrite (H ltac:(discriminate) 90%Q eq_refl). reflexivity.
  - destruct (tpa_request_cases "Bob" "Bob" [] cid_asked_bob) as (H & _).
    unfold exec. rewrite (H eq_refl). reflexivity.
Defined.

Lemma tpa_answer_cases_witness :
  exec (cmd_tpaccept "Bob") cid_asked_bob
  = said [Exec "tp Cid Bob";
          Exec (notice "Bob" (msg_accepted "Cid"));
          Exec (notice "Cid" (msg_was_accepted "Bob"))] fresh
  /\ exec (cmd_tpdeny "Amy") cid_asked_bob
     = said [Exec (notice "Amy" msg_no_pending)] cid_asked_bob.
Proof.
  pose proof (tpa_answer_cases "Bob" cid_asked_bob) as H.
  pose proof (tpa_answer_cases "Amy" cid_asked_bob) as H'.
  cbv zeta in H, H'. destruct H as (_ & H). destruct H' as (H' & _).
  destruct (H "Cid" 90%Q eq_refl) as (A & _).
  destruct (H' eq_refl) as (_ & D).
  unfold exec. rewrite A, D. split; reflexivity.
Defined.

Lemma two_requests_wf : Dict.wf (tpa_requests two_requests).
Proof.
  unfold Dict.wf. simpl. repeat constructor; simpl; intuition discriminate.
Defined.

Lemma sweep_removes_expired_witness :
  let s' := exec check_tpa_timeouts_turn two_requests in
  tpa_requests s' = [("Cid", ("Dan", 25%Q))]
  /\ trace s' = [Sleep 10;
                 Exec (notice "Amy" (msg_expired_to "Bob"));
                 Exec (notice "Bob" (msg_expired_from "Amy"))]
  /\ tpa_requests (exec (check_tpa_timeouts 3) two_requests)
     = [("Cid", ("Dan", 25%Q))]
  /\ tpa_requests (exec (check_tpa_timeouts 4) two_requests) = []
  /\ sleeps (trace (exec (check_tpa_timeouts 4) two_requests))
     = [10; 10; 10; 10]%Q.
Proof.
  pose proof (sweep_removes_expired two_requests two_requests_wf) as H.
  cbv zeta in H. destruct H as (R & _ & _ & _ & T).
  destruct (T 3%nat) as (R3 & R4 & _). destruct (T 4%nat) as (_ & _ & S4 & _).
  cbv zeta. unfold exec. rewrite R, R3, R4.
  split; [reflexivity|]. split; [reflexivity|].
  split; [vm_compute; reflexivity|]. split; [vm_compute; reflexivity|].
  exact S4.
Defined.

Lemma some_warps_well_formed : well_formed_warps some_warps.
Proof.
  split.
  - unfold Dict.wf. simpl. repeat constructor; simpl; intuition discriminate.
  - intros name pos [E | [E | []]]; injection E as <- <-; split; reflexivity.
Defined.

Lemma some_warps_storable : storable_warps some_warps.
Proof.
  split; [exact some_warps_well_formed|].
  intros name [<- | [<- | []]]; reflexivity.
Defined.

Lemma warps_round_trip_witness :
  let saved := exec save_warps (with_warps some_warps fresh) in
  let restarted := exec load_warps (restart saved) in
  warps_file saved = Some [["town"; "1.5"; "64.0"; "-3.25"]]
  /\ Dict.get "town" (warps restarted) = Some "1.5 64.0 -3.25"
  /\ Dict.get "spawn" (warps restarted) = Some "0 64 -3".
Proof.
  pose proof (warps_round_trip (with_warps some_warps fresh)
                some_warps_storable) as H.
  cbv zeta in H. destruct H as (_ & F & _ & N & S).
  cbv zeta. split; [exact F|]. split.
  - rewrite N by discriminate. reflexivity.
  - rewrite S. reflexivity.
Defined.

Lemma warp_names_ignore_case_witness :
  let s1 := exec (cmd_setwarp "Bob" ["Town"]) fresh in
  let s2 := exec (handle_position "Bob" "1" "2" "3") s1 in
  Dict.get "town" (warps s2) = Some "1 2 3"
  /\ cmd_warp "Amy" ["TOWN"] s2
     = (Val tt, said [Exec "tp Amy 1 2 3";
                      Exec (tellraw "Amy" (msg_warped "town"))] s2).
Proof.
  pose proof (warp_names_ignore_case "Bob" "Amy" "Town" "TOWN" "1" "2" "3"
                [] [] fresh eq_refl eq_refl) as H.
  cbv zeta in H. destruct H as (_ & G & W & _).
  cbv zeta. split; [exact G | exact W].
Defined.

Lemma handle_command_contains_failures_witness :
  handle_command "Bob" "fly" [] fresh
  = (Val tt, said [Exec (tellraw "Bob" (msg_unknown "fly"))] fresh)
  /\ handle_command "Bob" "spawn" [] fresh
     = (Val tt, said [Exec (tellraw "Bob" (msg_error (KeyError "spawn")));
                      Log ERROR (CommandError (KeyError "spawn"))] fresh).
Proof.
  split.
  - destruct (handle_command_contains_failures "Bob" "fly" [] fresh)
      as (_ & U & _).
    exact (U eq_refl).
  - destruct (handle_command_contains_failures "Bob" "spawn" [] fresh)
      as (_ & _ & R).
    exact (R (player_only "cmd_spawn" cmd_spawn) (KeyError "spawn") fresh
             eq_refl eq_refl).
Defined.

Lemma player_only_command_with_arguments_witness :
  handle_command "Bob" "home" ["now"] fresh
  = (Val tt,
     said [Exec (tellraw "Bob"
                   (sect ++ "cError: CommandHandler.cmd_home() takes 2 positional arguments but 3 were given"));
           Log ERROR (CommandError (too_many_arguments "home" ["now"]))] fresh).
Proof.
  pose proof (player_only_command_with_arguments "Bob" "home" ["now"] fresh) as H.
  cbv zeta in H. destruct H as (_ & H & _).
  - simpl. tauto.
  - discriminate.
  - exact H.
Defined.

Lemma chat_command_extracted_witness :
  filter is_chat_command (classify (Str.strip tpa_line))
  = [ChatCommand "Bob" "tpa" ["Amy"; "now"]].
Proof.
  destruct chat_command_extracted as (_ & H).
  pose proof (H tpa_line "[12:00:01] [Server thread/INFO]: " "Bob" "tpa"
                " Amy   now" fresh) as H'.
  cbv zeta in H'. destruct H' as (_ & C & _).
  - reflexivity.
  - reflexivity.
  - discriminate.
  - reflexivity.
  - discriminate.
  - reflexivity.
  - right. reflexivity.
  - reflexivity.
  - exact C.
Defined.

(* ================================================================= *)
(** ** Further properties of the program *)

(** *** The reading loop never stops on an exception *)

Lemma seq_total (m k : M unit) :
  (forall s, fst (m s) = Val tt) -> (forall s, fst (k s) = Val tt) ->
  forall s, fst ((m ;; k) s) = Val tt.
Proof.
  intros Hm Hk s. unfold bind. specialize (Hm s).
  destruct (m s) as [[[]|e] s1]; [apply Hk | discriminate].
Qed.

Lemma handle_position_total player x y z s :
  fst (handle_position player x y z s) = Val tt.
Proof.
  destruct (StrSet.mem player (pending_homes s)) eqn:M.
  - now rewrite handle_position_home.
  - destruct (Dict.get player (pending_warps s)) as [warp_name|] eqn:G.
    + now rewrite (handle_position_warp player warp_name).
    + unfold handle_position. run_m. now rewrite M, G.
Qed.

Lemma handle_event_total e s : fst (handle_event e s) = Val tt.
Proof.
  destruct e as [p c a | p x y z]; simpl.
  - apply seq_total; [reflexivity | intros s0; apply handle_command_total].
  - apply handle_position_total.
Qed.

Lemma for_each_total {A} (body : A -> M unit) xs :
  (forall x s, fst (body x s) = Val tt) ->
  forall s, fst (for_each xs body s) = Val tt.
Proof.
  intros B. induction xs as [|x xs IH]; [reflexivity|].
  simpl. apply seq_total; [apply B | exact IH].
Qed.

Lemma handle_line_total raw s : fst (handle_line raw s) = Val tt.
Proof.
  rewrite handle_line_events. cbv zeta.
  destruct (Str.is_empty (Str.strip raw)); [reflexivity|].
  apply seq_total; [reflexivity|].
  apply for_each_total. apply handle_event_total.
Qed.

(** X1. Only a read ends the loop of [handle_output] with an exception:
    whatever the server prints and whatever the state, the loop handles
    every line up to the first read that fails, raises the exception of that
    read, and returns when there is none; failing commands and failing saves
    are all caught on the way. *)
Theorem only_a_read_ends_the_loop (reads : list (result string)) (s : state) :
  handle_output reads s
  = (match first_failure reads with
     | Some e => Raise e
     | None => Val tt
     end,
     exec (handle_output (as_read (lines_read reads))) s).
Proof.
  unfold exec. revert s.
  induction reads as [|[raw|e] reads IH]; intros s; [reflexivity| |reflexivity].
  cbn [first_failure lines_read as_read map]. fold (as_read (lines_read reads)).
  rewrite !handle_output_line. pose proof (handle_line_total raw s) as T.
  destruct (handle_line raw s) as [[[]|e] s1]; [|discriminate].
  apply IH.
Qed.

(** *** What a command can touch *)

Lemma footprint_refl player s : footprint player s s.
Proof. unfold footprint. repeat split; auto. Qed.

Lemma footprint_said player es s s' :
  footprint player s s' -> footprint player s (said es s').
Proof. exact (fun H => H). Qed.

Ltac footprint_parts := unfold footprint; simpl; repeat split; auto.

Lemma footprint_cmd_tpa player args s :
  footprint player s (snd (cmd_tpa player args s)).
Proof.
  unfold cmd_tpa. run_m.
  destruct args as [|target more]; [footprint_parts|].
  destruct (target =? player) eqn:E; [footprint_parts|].
  destruct (match Dict.get target (tpa_requests s) with
            | Some (existing_requester, _) => existing_requester =? player
            | None => false
            end); [footprint_parts|].
  footprint_parts.
  right. right. exists target. split; [|reflexivity].
  now apply String.eqb_neq.
Qed.

Lemma footprint_cmd_tpaccept player s :
  footprint player s (snd (cmd_tpaccept player s)).
Proof.
  destruct (Dict.get player (tpa_requests s)) as [[requester stamp]|] eqn:G.
  - rewrite (cmd_tpaccept_run player requester stamp) by assumption.
    footprint_parts.
  - rewrite cmd_tpaccept_missing by assumption. footprint_parts.
Qed.

Lemma footprint_cmd_tpdeny player s :
  footprint player s (snd (cmd_tpdeny player s)).
Proof.
  destruct (Dict.get player (tpa_requests s)) as [[requester stamp]|] eqn:G.
  - rewrite (cmd_tpdeny_run player requester stamp) by assumption.
    footprint_parts.
  - rewrite cmd_tpdeny_missing by assumption. footprint_parts.
Qed.

Lemma footprint_cmd_sethome player s :
  footprint player s (snd (cmd_sethome player s)).
Proof. unfold cmd_sethome. run_m. footprint_parts. Qed.

Lemma footprint_cmd_setwarp player args s :
  footprint player s (snd (cmd_setwarp player args s)).
Proof.
  destruct args as [|name more]; [footprint_parts|].
  rewrite cmd_setwarp_run. footprint_parts.
  right. now exists name.
Qed.

Lemma footprint_cmd_home player s :
  footprint player s (snd (cmd_home player s)).
Proof.
  unfold cmd_home. run_m.
  destruct (Dict.get player (homes s)); footprint_parts.
Qed.

Lemma footprint_cmd_warp player args s :
  footprint player s (snd (cmd_warp player args s)).
Proof.
  unfold cmd_warp. run_m. destruct args as [|name more]; [footprint_parts|].
  destruct (Dict.get (Str.lower name) (warps s)); footprint_parts.
Qed.

Lemma footprint_cmd_spawn player s :
  footprint player s (snd (cmd_spawn player s)).
Proof.
  unfold cmd_spawn. run_m.
  destruct (Dict.get "spawn" (warps s)); footprint_parts.
Qed.

Lemma footprint_cmd_rtp player s :
  footprint player s (snd (cmd_rtp player s)).
Proof.
  unfold cmd_rtp. unfold bind at 1.
  destruct (randint_run (- rtp_radius) rtp_radius s) as [x [ds1 ->]].
  unfold bind at 1.
  destruct (randint_run (- rtp_radius) rtp_radius (with_dice ds1 s))
    as [z [ds2 ->]].
  run_m. footprint_parts.
Qed.

Lemma footprint_player_only name body player args s :
  (forall s, footprint player s (snd (body player s))) ->
  footprint player s (snd (player_only name body player args s)).
Proof.
  intros B. unfold player_only. destruct args; [apply B | apply footprint_refl].
Qed.

Lemma footprint_method name h player args s :
  In (name, h) cmd_methods -> footprint player s (snd (h player args s)).
Proof.
  intros I. simpl in I.
  destruct I as [I|[I|[I|[I|[I|[I|[I|[I|[I|[I|[I|[]]]]]]]]]]]];
    injection I as _ <-.
  - apply footprint_cmd_tpa.
  - apply footprint_player_only, footprint_cmd_tpaccept.
  - apply footprint_player_only, footprint_cmd_tpdeny.
  - apply footprint_player_only, footprint_cmd_sethome.
  - apply footprint_player_only, footprint_cmd_home.
  - apply footprint_cmd_setwarp.
  - apply footprint_cmd_warp.
  - apply footprint_player_only. intros s0. exact (footprint_refl player s0).
  - apply footprint_player_only, footprint_cmd_spawn.
  - apply footprint_player_only, footprint_cmd_rtp.
  - apply footprint_player_only. intros s0. exact (footprint_refl player s0).
Qed.

Lemma footprint_handle_command player command args s :
  footprint player s (exec (handle_command player command args) s).
Proof.
  unfold exec, handle_command.
  destruct (getattr_cmd ("cmd_" ++ command)) as [h|] eqn:G;
    [|exact (footprint_refl player s)].
  apply DictFacts.get_In in G.
  pose proof (footprint_method _ h player args s G) as F.
  unfold try_except. destruct (h player args s) as [[[]|e] s1]; exact F.
Qed.

(** X2. Whatever the command and its arguments, known or not, failing or
    not, the dispatcher leaves the homes, the warps, the two files and the
    clock alone, and changes the pending sets and the requests by at most
    one entry made in the name of the player who typed it. *)
Theorem commands_have_a_footprint
        (player command : string) (args : list string) (s : state) :
  footprint player s (exec (handle_command player command args) s).
Proof. apply footprint_handle_command. Qed.

(** *** The commands that only look things up *)

Lemma lookup_only_handle_command player command args s h :
  getattr_cmd ("cmd_" ++ command) = Some h ->
  (exists r es, h player args s = (r, said es s)) ->
  exists es, exec (handle_command player command args) s = said es s.
Proof.
  intros G [r [es R]]. unfold exec. destruct r as [[]|e].
  - rewrite (handle_command_returned _ _ _ _ _ _ G R). now exists es.
  - rewrite (handle_command_raised _ _ _ _ _ _ _ G R). simpl.
    rewrite said_said. eauto.
Qed.

Lemma lookup_only_player_only name body player args s :
  (exists r es, body player s = (r, said es s)) ->
  exists r es, player_only name body player args s = (r, said es s).
Proof.
  intros B. unfold player_only. destruct args as [|a args]; [exact B|].
  eexists _, []. unfold raise. now rewrite said_nil.
Qed.

Lemma lookup_only_cmd_home player s :
  exists r es, cmd_home player s = (r, said es s).
Proof.
  unfold cmd_home. run_m. destruct (Dict.get player (homes s)).
  - eexists _, [_; _]. f_equal. state_eq.
  - eexists _, _. reflexivity.
Qed.

Lemma lookup_only_cmd_warp player args s :
  exists r es, cmd_warp player args s = (r, said es s).
Proof.
  unfold cmd_warp. run_m. destruct args as [|name more].
  - eexists _, _. reflexivity.
  - destruct (Dict.get (Str.lower name) (warps s)).
    + eexists _, [_; _]. f_equal. state_eq.
    + eexists _, _. reflexivity.
Qed.

Lemma lookup_only_cmd_spawn player s :
  exists r es, cmd_spawn player s = (r, said es s).
Proof.
  unfold cmd_spawn. run_m. destruct (Dict.get "spawn" (warps s)).
  - eexists _, [_; _]. f_equal. state_eq.
  - eexists _, []. now rewrite said_nil.
Qed.

(** X3. The commands [home], [warp], [warps], [spawn] and [help], with any
    arguments, succeeding or not, add to what is sent and logged and change
    nothing else in the state. *)
Theorem lookup_commands_change_nothing
        (player command : string) (args : list string) (s : state) :
  In command lookup_commands ->
  exists es, exec (handle_command player command args) s = said es s.
Proof.
  intros I. simpl in I.
  destruct I as [<-|[<-|[<-|[<-|[<-|[]]]]]].
  - apply lookup_only_handle_command
      with (h := player_only "cmd_home" cmd_home); [reflexivity|].
    apply lookup_only_player_only, lookup_only_cmd_home.
  - apply lookup_only_handle_command with (h := cmd_warp); [reflexivity|].
    apply lookup_only_cmd_warp.
  - apply lookup_only_handle_command
      with (h := player_only "cmd_warps" cmd_warps); [reflexivity|].
    apply lookup_only_player_only. unfold cmd_warps. run_m.
    eexists _, _. reflexivity.
  - apply lookup_only_handle_command
      with (h := player_only "cmd_spawn" cmd_spawn); [reflexivity|].
    apply lookup_only_player_only, lookup_only_cmd_spawn.
  - apply lookup_only_handle_command
      with (h := player_only "cmd_help" cmd_help); [reflexivity|].
    apply lookup_only_player_only. unfold cmd_help. run_m.
    eexists _, _. reflexivity.
Qed.

Lemma lookup_commands_change_nothing_witness :
  exists es, exec (handle_command "Bob" "warp" ["nowhere"]) fresh = said es fresh.
Proof.
  apply (lookup_commands_change_nothing "Bob" "warp" ["nowhere"] fresh).
  simpl. tauto.
Defined.

(** *** No request to oneself *)

Lemma handle_position_requests player x y z s :
  tpa_requests (exec (handle_position player x y z) s) = tpa_requests s.
Proof.
  unfold exec. destruct (StrSet.mem player (pending_homes s)) eqn:M.
  - now rewrite handle_position_home.
  - destruct (Dict.get player (pending_warps s)) as [warp_name|] eqn:G.
    + now rewrite (handle_position_warp player warp_name).
    + unfold handle_position. run_m. now rewrite M, G.
Qed.

Lemma no_self_request_command player command args s :
  no_self_request s ->
  no_self_request (exec (handle_command player command args) s).
Proof.
  intros N.
  destruct (footprint_handle_command player command args s)
    as (_ & _ & _ & _ & _ & _ & _ & [E | [E | [target [T E]]]]);
    unfold no_self_request; rewrite E; intros t r stamp I.
  - now apply (N t r stamp).
  - apply filter_In in I. now apply (N t r stamp).
  - apply In_set in I. destruct I as [[= -> -> _] | I].
    + congruence.
    + now apply (N t r stamp).
Qed.

Lemma no_self_request_event e s :
  no_self_request s -> no_self_request (snd (handle_event e s)).
Proof.
  intros N. destruct e as [p c a | p x y z]; simpl.
  - unfold bind. rewrite log_run.
    now apply (no_self_request_command p c a (said _ s)).
  - unfold no_self_request.
    change (snd (handle_position p x y z s))
      with (exec (handle_position p x y z) s).
    now rewrite handle_position_requests.
Qed.

Lemma no_self_request_line raw s :
  no_self_request s -> no_self_request (exec (handle_line raw) s).
Proof.
  intros N. unfold exec. rewrite handle_line_events. cbv zeta.
  destruct (Str.is_empty (Str.strip raw)); [exact N|].
  unfold bind at 1. rewrite log_run.
  generalize (said [Log INFO (ServerLine (Str.strip raw))] s),
    (N : no_self_request (said [Log INFO (ServerLine (Str.strip raw))] s)).
  induction (classify (Str.strip raw)) as [|e events IH]; intros s0 N0;
    [exact N0|].
  simpl for_each. unfold bind at 1.
  pose proof (no_self_request_event e s0 N0) as Ne.
  destruct (handle_event e s0) as [[[]|err] s1]; [now apply IH | exact Ne].
Qed.

(** The sweep only removes requests, even if it were to stop half-way. *)
Lemma expire_only_removes (targets : list string) (s : state) x :
  In x (tpa_requests (snd (for_each targets (fun target =>
    '(requester, _) <- pop_tpa_request target ;;
    send_message requester (sect ++ "cYour TPA request to " ++ target ++ " has expired.") ;;
    send_message target (sect ++ "cTPA request from " ++ requester ++ " has expired.")) s))) ->
  In x (tpa_requests s).
Proof.
  revert s. induction targets as [|target targets IH]; intros s; [auto|].
  simpl for_each. unfold bind at 1. unfold bind at 1.
  destruct (Dict.get target (tpa_requests s)) as [[requester stamp]|] eqn:G.
  - rewrite (pop_tpa_request_run target (requester, stamp) s G).
    run_m. cbv beta iota. intros I. apply IH in I. simpl in I.
    apply filter_In in I. tauto.
  - unfold pop_tpa_request. run_m. rewrite G. auto.
Qed.

Lemma sweep_only_removes s x :
  In x (tpa_requests (exec check_tpa_timeouts_turn s)) -> In x (tpa_requests s).
Proof.
  unfold exec, check_tpa_timeouts_turn. run_m. cbv beta iota.
  intros I. apply expire_only_removes in I. exact I.
Qed.

(** X4. The consent map never holds a request that a player made to the
    same player: if it holds none, it holds none after any output of the
    server has been handled, and none after any number of sweeps. *)
Theorem never_a_request_to_oneself
        (reads : list (result string)) (turns : nat) (s : state) :
  no_self_request s ->
  no_self_request (exec (handle_output reads) s)
  /\ no_self_request (exec (check_tpa_timeouts turns) s).
Proof.
  intros N. split.
  - revert N. apply handle_output_invariant. exact no_self_request_line.
  - unfold exec. revert s N.
    induction turns as [|n IH]; intros s N; [exact N|].
    simpl. unfold bind.
    assert (N1 : no_self_request (exec check_tpa_timeouts_turn s)).
    { intros t r stamp I. apply sweep_only_removes in I. now apply (N t r stamp). }
    unfold exec in N1.
    destruct (check_tpa_timeouts_turn s) as [[[]|e] s1]; [now apply IH | exact N1].
Qed.

Lemma never_a_request_to_oneself_witness :
  no_self_request
    (exec (handle_output (as_read ["<Amy> .tpa Amy"; "<Amy> .tpa Bob"; "<Bob> .tpa Bob"]))
          fresh).
Proof.
  apply (never_a_request_to_oneself _ 0 fresh).
  intros t r stamp [].
Defined.

(** *** Setting a home *)

Lemma cmd_sethome_run player s :
  cmd_sethome player s
  = (Val tt,
     said [Exec ("data get entity " ++ player ++ " Pos");
           Exec (tellraw player (sect ++ "aScanning your position..."))]
          (with_pending_homes (StrSet.add player (pending_homes s)) s)).
Proof. unfold cmd_sethome. run_m. f_equal. state_eq. Qed.

Lemma cmd_home_found player pos s :
  Dict.get player (homes s) = Some pos ->
  cmd_home player s
  = (Val tt, said [Exec ("tp " ++ player ++ " " ++ pos);
                   Exec (tellraw player (sect ++ "aTeleported to home!"))] s).
Proof. intros G. unfold cmd_home. run_m. rewrite G. f_equal. state_eq. Qed.

(** X5. [sethome], then the position report of the player, in any state,
    whatever else the player waits for: the player is pending in between;
    afterwards the home is the reported position, the player is no longer
    pending, the homes file holds the homes, a pending warp is untouched, and
    [home] teleports the player to the reported position. *)
Theorem sethome_then_report (player x y z : string) (s : state) :
  let s1 := exec (cmd_sethome player) s in
  let s2 := exec (handle_position player x y z) s1 in
  StrSet.mem player (pending_homes s1) = true
  /\ homes s2 = Dict.set player (coords x y z) (homes s)
  /\ Dict.get player (homes s2) = Some (coords x y z)
  /\ StrSet.mem player (pending_homes s2) = false
  /\ homes_file s2 = Some (fst (write_homes (homes s2)))
  /\ pending_warps s2 = pending_warps s
  /\ warps s2 = warps s
  /\ cmd_home player s2
     = (Val tt, said [Exec ("tp " ++ player ++ " " ++ coords x y z);
                      Exec (tellraw player (sect ++ "aTeleported to home!"))] s2).
Proof.
  intros s1 s2.
  assert (P : StrSet.mem player (pending_homes s1) = true).
  { subst s1. unfold exec. rewrite cmd_sethome_run. simpl.
    apply StrSetFacts.mem_add_eq. }
  assert (E : s2 = snd (handle_position player x y z s1)) by reflexivity.
  rewrite (handle_position_home player x y z s1 P) in E. simpl in E.
  assert (G : Dict.get player (homes s2) = Some (coords x y z)).
  { rewrite E. simpl. apply DictFacts.get_set_eq. }
  split; [exact P|]. split; [now rewrite E|]. split; [exact G|].
  split; [rewrite E; simpl; apply StrSetFacts.mem_remove_eq|].
  split; [now rewrite E|]. split; [now rewrite E|]. split; [now rewrite E|].
  now apply cmd_home_found.
Qed.

(** *** The warp track *)

(** X6. A position report for a player who waits for a warp and for no
    home: the coordinate is stored under the pending name, the pending entry
    is gone, the warps are saved and the player is told; homes, pending
    homes and the homes file stay as they were. *)
Theorem warp_track_resolves (player warp_name x y z : string) (s : state) :
  StrSet.mem player (pending_homes s) = false ->
  Dict.get player (pending_warps s) = Some warp_name ->
  let s' := exec (handle_position player x y z) s in
  handle_position player x y z s = (Val tt, s')
  /\ warps s' = Dict.set warp_name (coords x y z) (warps s)
  /\ Dict.get warp_name (warps s') = Some (coords x y z)
  /\ pending_warps s' = Dict.remove player (pending_warps s)
  /\ Dict.get player (pending_warps s') = None
  /\ warps_file s' = Some (fst (write_warps (warps s')))
  /\ trace s'
     = (trace s ++ save_log ErrorSavingWarps (snd (write_warps (warps s')))
        ++ [Exec (tellraw player (msg_warp_set warp_name x y z))])%list
  /\ homes s' = homes s
  /\ pending_homes s' = pending_homes s
  /\ homes_file s' = homes_file s.
Proof.
  intros P G s'. subst s'. unfold exec.
  rewrite (handle_position_warp player warp_name x y z s P G). simpl.
  repeat split; auto.
  - apply DictFacts.get_set_eq.
  - apply DictFacts.get_remove_eq.
Qed.

Lemma warp_track_resolves_witness :
  let s := with_pending_warps [("Bob", "hub")] fresh in
  let s' := exec (handle_position "Bob" "1" "2" "3") s in
  warps s' = [("hub", "1 2 3")]
  /\ pending_warps s' = []
  /\ warps_file s' = Some [["hub"; "1"; "2"; "3"]].
Proof.
  pose proof (warp_track_resolves "Bob" "hub" "1" "2" "3"
                (with_pending_warps [("Bob", "hub")] fresh) eq_refl eq_refl) as H.
  cbv zeta in H. destruct H as (_ & W & _ & P & _ & F & _).
  cbv zeta. split; [exact W|]. split; [exact P | exact F].
Defined.

(** X7. Two [setwarp] of a player in a row, then the position report: the
    coordinate goes under the second name, nothing is left pending, and the
    first name, when it differs, resolves to what it did before. *)
Theorem later_setwarp_wins
        (player first second x y z : string) (more more' : list string)
        (s : state) :
  StrSet.mem player (pending_homes s) = false ->
  let s1 := exec (cmd_setwarp player (first :: more)) s in
  let s2 := exec (cmd_setwarp player (second :: more')) s1 in
  let s3 := exec (handle_position player x y z) s2 in
  Dict.get (Str.lower second) (warps s3) = Some (coords x y z)
  /\ Dict.get player (pending_warps s3) = None
  /\ (Str.lower first <> Str.lower second ->
      Dict.get (Str.lower first) (warps s3)
      = Dict.get (Str.lower first) (warps s)).
Proof.
  intros P s1 s2 s3.
  assert (E2 : s2 = said [Exec ("data get entity " ++ player ++ " Pos");
                          Exec (tellraw player (sect ++ "aScanning position for warp '"
                                                ++ Str.lower second ++ "'..."))]
                      (with_pending_warps
                         (Dict.set player (Str.lower second) (pending_warps s1)) s1)).
  { subst s2. unfold exec. now rewrite cmd_setwarp_run. }
  assert (P2 : StrSet.mem player (pending_homes s2) = false).
  { rewrite E2. subst s1. unfold exec. now rewrite cmd_setwarp_run. }
  assert (G2 : Dict.get player (pending_warps s2) = Some (Str.lower second)).
  { rewrite E2. simpl. apply DictFacts.get_set_eq. }
  assert (W2 : warps s2 = warps s).
  { rewrite E2. subst s1. unfold exec. now rewrite cmd_setwarp_run. }
  assert (E3 : s3 = snd (handle_position player x y z s2)) by reflexivity.
  rewrite (handle_position_warp player (Str.lower second) x y z s2 P2 G2) in E3.
  clearbody s3 s2 s1. subst s3. simpl. rewrite W2. split; [|split].
  - apply DictFacts.get_set_eq.
  - apply DictFacts.get_remove_eq.
  - intros N. apply DictFacts.get_set_neq. congruence.
Qed.

Lemma later_setwarp_wins_witness :
  let s1 := exec (cmd_setwarp "Bob" ["First"]) fresh in
  let s2 := exec (cmd_setwarp "Bob" ["Second"]) s1 in
  let s3 := exec (handle_position "Bob" "1" "2" "3") s2 in
  Dict.get "second" (warps s3) = Some "1 2 3"
  /\ Dict.get "first" (warps s3) = None.
Proof.
  pose proof (later_setwarp_wins "Bob" "First" "Second" "1" "2" "3" [] []
                fresh eq_refl) as H.
  cbv zeta in H. destruct H as (G & _ & F).
  cbv zeta. split; [exact G|].
  assert (N : Str.lower "First" <> Str.lower "Second") by discriminate.
  exact (F N).
Defined.

(** *** A report concerns one player *)

(** X8. A position report for [player] leaves every other player as they
    were: their home, their place in the pending-home set, their pending
    warp; and it leaves the teleport requests alone. *)
Theorem position_report_concerns_one_player
        (player other x y z : string) (s : state) :
  other <> player ->
  let s' := exec (handle_position player x y z) s in
  Dict.get other (homes s') = Dict.get other (homes s)
  /\ StrSet.mem other (pending_homes s') = StrSet.mem other (pending_homes s)
  /\ Dict.get other (pending_warps s') = Dict.get other (pending_warps s)
  /\ tpa_requests s' = tpa_requests s.
Proof.
  intros N s'. subst s'. unfold exec.
  destruct (StrSet.mem player (pending_homes s)) eqn:M.
  - rewrite handle_position_home by assumption. simpl. repeat split.
    + apply DictFacts.get_set_neq. congruence.
    + apply StrSetFacts.mem_remove_neq. congruence.
  - destruct (Dict.get player (pending_warps s)) as [warp_name|] eqn:G.
    + rewrite (handle_position_warp player warp_name) by assumption. simpl.
      repeat split. apply DictFacts.get_remove_neq. congruence.
    + unfold handle_position. run_m. rewrite M, G. repeat split.
Qed.

Lemma position_report_concerns_one_player_witness :
  let s := with_pending_homes ["Amy"; "Bob"] fresh in
  StrSet.mem "Amy" (pending_homes (exec (handle_position "Bob" "1" "2" "3") s))
  = true.
Proof.
  pose proof (position_report_concerns_one_player "Bob" "Amy" "1" "2" "3"
                (with_pending_homes ["Amy"; "Bob"] fresh)) as H.
  cbv zeta in H. destruct H as (_ & H & _); [discriminate|].
  cbv zeta. rewrite H. reflexivity.
Defined.

(** *** What the patterns let through *)

Lemma number_chars c :
  Alphabet.alphabet number_re c = true -> is_number_char c = true.
Proof.
  destruct c as [[] [] [] [] [] [] [] []]; vm_compute;
    first [reflexivity | discriminate].
Qed.

Lemma fits_group R n r m v :
  Alphabet.good R m -> group n m = Some v ->
  (forall r', In (n, r') (Alphabet.groups R) -> r' = r) ->
  Alphabet.fits r v.
Proof.
  intros G E U. apply AlphabetFacts.group_In in E.
  destruct (G _ _ E) as [r' [I F]]. now rewrite <- (U r' I).
Qed.

Ltac only_group :=
  let r' := fresh "r" in
  let I := fresh "I" in
  intros r' I; simpl in I;
  repeat (destruct I as [I | I]; [now inversion I|]); destruct I.

Lemma position_match_fits line player x y z :
  position_match line = Some (player, x, y, z) ->
  Alphabet.fits (Plus Str.is_word) player
  /\ Alphabet.fits number_re x /\ Alphabet.fits number_re y
  /\ Alphabet.fits number_re z.
Proof.
  unfold position_match.
  destruct (search position_re line) as [m|] eqn:E; [|discriminate].
  apply AlphabetFacts.search_good in E.
  destruct (group 1 m) as [p'|] eqn:G1; [|discriminate].
  destruct (group 2 m) as [x'|] eqn:G2; [|discriminate].
  destruct (group 3 m) as [y'|] eqn:G3; [|discriminate].
  destruct (group 4 m) as [z'|] eqn:G4; [|discriminate].
  intros [= <- <- <- <-].
  repeat split;
    first [ apply (fits_group position_re 1 _ m _ E G1)
          | apply (fits_group position_re 2 _ m _ E G2)
          | apply (fits_group position_re 3 _ m _ E G3)
          | apply (fits_group position_re 4 _ m _ E G4) ];
    only_group.
Qed.

(** X9. What a position match hands on: the player is a non-empty run of
    word characters; each of the three numbers is non-empty and made of
    digits, minus signs and dots only; and the string stored for them,
    [f"{x} {y} {z}"], splits back into exactly these three parts. *)
Theorem position_match_sound (line player x y z : string) :
  position_match line = Some (player, x, y, z) ->
  player <> EmptyString /\ Str.all_chars Str.is_word player = true
  /\ (forall n, In n [x; y; z] ->
        n <> EmptyString /\ Str.all_chars is_number_char n = true)
  /\ Str.split (coords x y z) = [x; y; z].
Proof.
  intros M. destruct (position_match_fits _ _ _ _ _ M) as (P & X & Y & Z).
  destruct (position_match_tokens _ _ _ _ _ M) as (TX & TY & TZ).
  split; [now apply P|]. split; [apply P|]. split.
  - assert (N : forall n, Alphabet.fits number_re n ->
                  n <> EmptyString /\ Str.all_chars is_number_char n = true).
    { intros n [A E]. split; [now apply E|].
      apply (AlphabetFacts.all_chars_weaken (Alphabet.alphabet number_re)); auto.
      apply number_chars. }
    intros n [<- | [<- | [<- | []]]]; now apply N.
  - now apply TokenFacts.coords_is_coord.
Qed.

Lemma position_match_sound_witness :
  Str.split (coords "1.5" "64.0" "-3.25") = ["1.5"; "64.0"; "-3.25"].
Proof.
  apply (position_match_sound
           "Bob has the following entity data: [1.5d, 64.0d, -3.25d]" "Bob").
  reflexivity.
Defined.

Lemma chat_match_fits line player command args_str :
  chat_match line = Some (player, command, args_str) ->
  Alphabet.fits (Plus Str.not_gt) player
  /\ Alphabet.fits (Plus Str.is_word) command
  /\ forall text, args_str = Some text -> Alphabet.fits (Star Str.is_dot) text.
Proof.
  unfold chat_match.
  destruct (search chat_re line) as [m|] eqn:E; [|discriminate].
  apply AlphabetFacts.search_good in E.
  destruct (group 1 m) as [p'|] eqn:G1; [|discriminate].
  destruct (group 2 m) as [c'|] eqn:G2; [|discriminate].
  intros [= <- <- <-]. split; [|split].
  - apply (fits_group chat_re 1 _ m _ E G1). only_group.
  - apply (fits_group chat_re 2 _ m _ E G2). only_group.
  - intros text G3.
    apply (fits_group chat_re 3 _ m _ E G3). only_group.
Qed.

(** X10. What a chat match hands to the dispatcher: a non-empty player
    name without [>], a non-empty command made of word characters, an
    argument text without line feed, and arguments that are each non-empty
    and free of white space. *)
Theorem chat_match_sound (line player command : string) (args_str : option string) :
  chat_match line = Some (player, command, args_str) ->
  player <> EmptyString /\ Str.all_chars Str.not_gt player = true
  /\ command <> EmptyString /\ Str.all_chars Str.is_word command = true
  /\ (forall text, args_str = Some text -> Str.all_chars Str.is_dot text = true)
  /\ Forall (fun a => is_token a = true) (split_args args_str).
Proof.
  intros M. destruct (chat_match_fits _ _ _ _ M) as (P & C & A).
  split; [now apply P|]. split; [apply P|].
  split; [now apply C|]. split; [apply C|]. split.
  - intros text E. apply (A text E).
  - unfold split_args. destruct args_str as [text|]; [|constructor].
    destruct (Str.is_empty text); [constructor|].
    apply TokenFacts.split_tokens.
Qed.

Lemma chat_match_sound_witness :
  Forall (fun a => is_token a = true) (split_args (Some "Amy  now")).
Proof.
  apply (chat_match_sound "<Bob> .tpa   Amy  now" "Bob" "tpa" (Some "Amy  now")).
  reflexivity.
Defined.

(** *** Blank lines *)

Lemma strip_blank raw :
  Str.all_chars Str.is_space raw = true -> Str.strip raw = EmptyString.
Proof.
  unfold Str.strip, Str.lstrip. induction raw as [|c raw IH]; simpl; auto.
  intros H. apply andb_true_iff in H. destruct H as [C H]. rewrite C. auto.
Qed.

Lemma handle_line_blank raw s :
  Str.all_chars Str.is_space raw = true -> handle_line raw s = (Val tt, s).
Proof. intros B. unfold handle_line. now rewrite (strip_blank raw B). Qed.

(** X11. Lines made of white space only are no input: [handle_output]
    does on any reads what it does on those of them that do not give such a
    line. *)
Theorem blank_lines_are_skipped (reads : list (result string)) (s : state) :
  handle_output reads s
  = handle_output (filter (fun read => negb (blank_read read)) reads) s.
Proof.
  revert s. induction reads as [|[raw|e] reads IH]; intros s; try reflexivity.
  cbn [filter blank_read]. destruct (Str.all_chars Str.is_space raw) eqn:B.
  - cbn [negb]. rewrite handle_output_line, (handle_line_blank raw s B).
    apply IH.
  - cbn [negb]. rewrite !handle_output_line.
    destruct (handle_line raw s) as [[[]|e] s1]; [apply IH | reflexivity].
Qed.

(** *** Saving and loading the homes *)

Lemma write_homes_rows h :
  (forall player pos, In (player, pos) h -> is_coord pos = true) ->
  write_homes h = (map row_of h, None).
Proof.
  induction h as [|[player pos] h IH]; intros C; simpl; auto.
  destruct (is_coord_split pos) as [x [y [z [S _]]]].
  { apply (C player pos). now left. }
  unfold row_of at 1. simpl fst. simpl snd. rewrite S.
  rewrite IH; auto. intros n p I. apply (C n p). now right.
Qed.

Lemma set_new {V} k (v : V) d :
  Dict.get k d = None -> Dict.set k v d = (d ++ [(k, v)])%list.
Proof.
  induction d as [|[k' v'] d IH]; simpl; auto.
  destruct (k =? k'); [discriminate|]. intros G. now rewrite IH.
Qed.

(** Rows written from a dict load, into a dict without their keys, as the
    same entries in the same order. *)
Lemma read_homes_rows (l acc : Dict.t string) :
  (forall player pos, In (player, pos) l -> is_coord pos = true) ->
  NoDup (Dict.keys acc ++ Dict.keys l) ->
  read_homes (map row_of l) acc = (acc ++ l)%list.
Proof.
  revert acc. induction l as [|[player pos] l IH]; intros acc C N; simpl.
  - now rewrite app_nil_r.
  - destruct (is_coord_split pos) as [x [y [z [S E]]]].
    { apply (C player pos). now left. }
    unfold row_of at 1. simpl fst. simpl snd. rewrite S, <- E.
    assert (G : Dict.get player acc = None).
    { apply DictFacts.get_None_notin. intros I.
      apply NoDup_remove_2 in N. apply N. apply in_or_app. now left. }
    rewrite (set_new _ _ _ G). rewrite IH.
    + now rewrite <- app_assoc.
    + intros n p I. apply (C n p). now right.
    + unfold Dict.keys in *. rewrite map_app. simpl.
      rewrite <- app_assoc. exact N.
Qed.

(** X12. Saving the homes and loading them at the next start, for homes
    without a repeated player, with no carriage return in a player's name
    and with coordinates of three parts without white space joined by
    single spaces: the file holds one row for each home, and the homes loaded
    are the homes saved, in the same order. *)
Theorem homes_round_trip (s : state) :
  Dict.wf (homes s) ->
  (forall player pos, In (player, pos) (homes s) ->
     no_cr player = true /\ is_coord pos = true) ->
  let saved := exec save_homes s in
  let restarted := exec load_homes (restart saved) in
  save_homes s = (Val tt, saved)
  /\ homes_file saved = Some (map row_of (homes s))
  /\ trace saved = trace s
  /\ homes restarted = homes s.
Proof.
  intros W C saved restarted.
  assert (C1 : forall player pos, In (player, pos) (homes s) -> is_coord pos = true).
  { intros player pos I. now apply (C player pos). }
  assert (C2 : forall player, In player (Dict.keys (homes s)) -> no_cr player = true).
  { intros player I. apply in_map_iff in I. destruct I as [[p c] [<- I]].
    now apply (C p c). }
  assert (S : save_homes s
              = (Val tt, with_homes_file (Some (map row_of (homes s))) s)).
  { rewrite save_homes_run. rewrite (write_homes_rows _ C1). simpl.
    now rewrite said_nil. }
  subst restarted saved. unfold exec. rewrite S. cbn [snd].
  split; [reflexivity|]. split; [reflexivity|]. split; [reflexivity|].
  rewrite load_homes_run by reflexivity.
  cbn [homes_file restart with_homes_file snd homes].
  rewrite (text_mode_rows _ C2). cbv zeta. cbn [homes said with_trace with_homes].
  now rewrite (read_homes_rows (homes s) [] C1 W).
Qed.

Lemma homes_round_trip_witness :
  let s := with_homes [("Bob", "1.5 64.0 -3.25"); ("Amy", "0 0 0")] fresh in
  let saved := exec save_homes s in
  homes (exec load_homes (restart saved))
  = [("Bob", "1.5 64.0 -3.25"); ("Amy", "0 0 0")].
Proof.
  pose proof (homes_round_trip
                (with_homes [("Bob", "1.5 64.0 -3.25"); ("Amy", "0 0 0")] fresh)) as H.
  cbv zeta in H. destruct H as (_ & _ & _ & H).
  - unfold Dict.wf. simpl. repeat constructor; simpl; intuition discriminate.
  - intros player pos [E | [E | []]]; injection E as <- <-; split; reflexivity.
  - exact H.
Defined.

Lemma write_homes_app (before rest : Dict.t string) :
  (forall player pos, In (player, pos) before -> is_coord pos = true) ->
  write_homes (before ++ rest)%list
  = ((map row_of before ++ fst (write_homes rest))%list, snd (write_homes rest)).
Proof.
  induction before as [|[player pos] before IH]; intros C; simpl.
  - now destruct (write_homes rest).
  - destruct (is_coord_split pos) as [x [y [z [S _]]]].
    { apply (C player pos). now left. }
    unfold row_of at 1. simpl fst. simpl snd. rewrite S.
    rewrite IH; auto. intros n p I. apply (C n p). now right.
Qed.

(** X13. A home whose string does not split into three parts stops
    [save_homes] where it stands: the homes before it are in the file, this
    one and all that follow are not, the error is logged, and nothing is
    raised; the homes in memory are untouched. *)
Theorem save_homes_stops_at_a_bad_home
        (before after : Dict.t string) (player pos : string) (s : state) :
  homes s = (before ++ (player, pos) :: after)%list ->
  (forall p c, In (p, c) before -> is_coord c = true) ->
  List.length (Str.split pos) <> 3%nat ->
  save_homes s
  = (Val tt,
     said [Log ERROR (ErrorSavingHomes
                        (unpack3_error (List.length (Str.split pos))))]
          (with_homes_file (Some (map row_of before)) s)).
Proof.
  intros E C L. rewrite save_homes_run, E, (write_homes_app _ _ C).
  simpl fst. simpl snd. cbn [write_homes].
  destruct (Str.split pos) as [|x [|y [|z [|w parts]]]]; simpl in L;
    try congruence; simpl; now rewrite app_nil_r.
Qed.

Lemma save_homes_stops_at_a_bad_home_witness :
  let s := with_homes homes_with_a_bad_one fresh in
  homes_file (exec save_homes s) = Some [["Amy"; "1"; "2"; "3"]]
  /\ trace (exec save_homes s)
     = [Log ERROR (ErrorSavingHomes
                     (ValueError "not enough values to unpack (expected 3, got 2)"))].
Proof.
  pose proof (save_homes_stops_at_a_bad_home
                [("Amy", "1 2 3")] [("Cid", "4 5 6")] "Bob" "1 2"
                (with_homes homes_with_a_bad_one fresh) eq_refl) as H.
  cbv zeta. unfold exec. rewrite H.
  - split; reflexivity.
  - intros p c [E | []]. injection E as <- <-. reflexivity.
  - discriminate.
Defined.

(** *** Loading the warps *)

Lemma read_warps_four rows w :
  read_warps rows w = read_warps (filter four_fields rows) w.
Proof.
  revert w. induction rows as [|r rows IH]; intros w; simpl; auto.
  destruct r as [|a [|b [|c [|d [|e r]]]]]; simpl; auto.
Qed.

Lemma read_warps_names rows w :
  Dict.wf w ->
  (forall name, In name (Dict.keys w) -> Str.lower name = name) ->
  Dict.wf (read_warps rows w)
  /\ forall name, In name (Dict.keys (read_warps rows w)) -> Str.lower name = name.
Proof.
  revert w. induction rows as [|r rows IH]; intros w W L; simpl; auto.
  apply IH.
  - destruct r as [|a [|b [|c [|d [|e r]]]]]; auto. now apply DictFacts.wf_set.
  - destruct r as [|a [|b [|c [|d [|e r]]]]]; auto.
    intros name I. unfold Dict.keys in I. apply in_map_iff in I.
    destruct I as [[k v] [<- I]]. apply In_set in I.
    destruct I as [[= -> ->] | I].
    + apply TokenFacts.lower_idem.
    + apply L. change k with (fst (k, v)). now apply in_map.
Qed.

Lemma text_mode_four rows :
  text_mode (filter four_fields rows) = filter four_fields (text_mode rows).
Proof.
  assert (F : forall r, four_fields (map Str.universal_newlines r) = four_fields r).
  { intros r. unfold four_fields. now rewrite length_map. }
  unfold text_mode. induction rows as [|r rows IH]; auto.
  cbn [filter map]. rewrite F.
  destruct (four_fields r); cbn [map]; now rewrite IH.
Qed.

(** X14. What [load_warps] makes of a file at start-up, whatever its rows
    and whether the reading fails or not: it does not raise, and leaves a
    dict without a repeated name, all names in lower case; rows that have
    not four fields count for nothing.  When the file reads to its end the
    dict has an entry for [spawn]; when the reading meets an exception, the
    exception is logged and the dict holds what the rows gave and nothing
    else: no [spawn] is added. *)
Theorem load_warps_at_start
        (homes_csv : option (list row)) (rows : list row) (fault : option exn)
        (now : Q) (draws : list Z) :
  let world rows := with_warps_fault fault (init homes_csv (Some rows) now draws) in
  let s := exec load_warps (world rows) in
  load_warps (world rows) = (Val tt, s)
  /\ Dict.wf (warps s)
  /\ (forall name, In name (Dict.keys (warps s)) -> Str.lower name = name)
  /\ (fault = None -> Dict.mem "spawn" (warps s) = true)
  /\ (forall e, fault = Some e ->
        warps s = read_warps (text_mode rows) []
        /\ trace s = [Log ERROR (ErrorLoadingWarps e)])
  /\ warps s = warps (exec load_warps (world (filter four_fields rows))).
Proof.
  intros world s.
  destruct (read_warps_names (text_mode rows) []) as [W L].
  { constructor. } { intros name []. }
  set (w := read_warps (text_mode rows) []) in *.
  assert (F4 : read_warps (text_mode (filter four_fields rows)) [] = w).
  { rewrite text_mode_four. symmetry. apply read_warps_four. }
  destruct fault as [e|].
  - assert (R : forall rows',
               load_warps (world rows')
               = (Val tt, said [Log ERROR (ErrorLoadingWarps e)]
                               (with_warps (read_warps (text_mode rows') [])
                                           (world rows')))).
    { intros rows'. now apply (load_warps_fault (world rows') rows' e). }
    subst s. unfold exec. rewrite !R. cbn [snd warps said with_trace with_warps].
    fold w. rewrite F4.
    split; [reflexivity|]. split; [exact W|]. split; [exact L|].
    split; [discriminate|]. split; [|reflexivity].
    intros e' [= <-]. split; reflexivity.
  - assert (R : forall rows',
               load_warps (world rows')
               = (Val tt,
                  let w' := read_warps (text_mode rows') [] in
                  said [Log INFO (LoadedWarps (List.length w'))]
                       (with_warps (if Dict.mem "spawn" w' then w'
                                    else Dict.set "spawn" spawn_point w')
                                   (world rows')))).
    { intros rows'. now rewrite (load_warps_run (world rows')). }
    subst s. unfold exec. rewrite !R. cbv zeta.
    cbn [snd warps said with_trace with_warps]. fold w. rewrite F4.
    split; [reflexivity|]. split; [|split; [|split; [|split]]].
    + destruct (Dict.mem "spawn" w); auto. now apply DictFacts.wf_set.
    + destruct (Dict.mem "spawn" w); auto.
      intros name I. unfold Dict.keys in I. apply in_map_iff in I.
      destruct I as [[k v] [<- I]]. apply In_set in I.
      destruct I as [[= -> ->] | I]; [reflexivity|].
      apply L. change k with (fst (k, v)). now apply in_map.
    + intros _. destruct (Dict.mem "spawn" w) eqn:M; auto.
      unfold Dict.mem. now rewrite DictFacts.get_set_eq.
    + discriminate.
    + reflexivity.
Qed.

Lemma cmd_spawn_found player pos s :
  Dict.get "spawn" (warps s) = Some pos ->
  cmd_spawn player s
  = (Val tt, said [Exec ("tp " ++ player ++ " " ++ pos);
                   Exec (tellraw player (sect ++ "aTeleported to spawn!"))] s).
Proof. intros G. unfold cmd_spawn. run_m. rewrite G. f_equal. state_eq. Qed.

Lemma spawn_missing player s :
  Dict.get "spawn" (warps s) = None ->
  handle_command player "spawn" [] s
  = (Val tt, said [Exec (tellraw player (msg_error (KeyError "spawn")));
                   Log ERROR (CommandError (KeyError "spawn"))] s).
Proof.
  intros G.
  apply handle_command_raised
    with (h := player_only "cmd_spawn" cmd_spawn); [reflexivity|].
  unfold player_only, cmd_spawn. run_m. now rewrite G.
Qed.

(** X15. [spawn] needs a [load_warps] that came to its end.  As long as
    the warps hold no [spawn], the command raises [KeyError] and the player
    is sent the error text.  After a [load_warps] whose file, if any, read
    to its end, in any state, [spawn] teleports the player: to the spawn
    that the dict or a row of the file gave, and to the configured default
    when none did.  After a [load_warps] whose reading met an exception
    before any [spawn] was there, the command still fails. *)
Theorem spawn_needs_load_warps (player : string) (s : state) :
  let loaded :=
    match warps_file s with
    | Some rows => read_warps (text_mode rows) (warps s)
    | None => warps s
    end in
  let s1 := exec load_warps s in
  (Dict.get "spawn" (warps s) = None ->
   handle_command player "spawn" [] s
   = (Val tt, said [Exec (notice player (msg_error (KeyError "spawn")));
                    Log ERROR (CommandError (KeyError "spawn"))] s))
  /\ (warps_fault s = None ->
      let pos := match Dict.get "spawn" loaded with
                 | Some pos => pos
                 | None => spawn_point
                 end in
      handle_command player "spawn" [] s1
      = (Val tt, said [Exec ("tp " ++ player ++ " " ++ pos);
                       Exec (notice player (sect ++ "aTeleported to spawn!"))] s1))
  /\ (forall e, warps_fault s = Some e -> warps_file s <> None ->
      Dict.get "spawn" loaded = None ->
      handle_command player "spawn" [] s1
      = (Val tt, said [Exec (notice player (msg_error (KeyError "spawn")));
                       Log ERROR (CommandError (KeyError "spawn"))] s1)).
Proof.
  intros loaded s1. split; [apply spawn_missing|]. split.
  - intros F pos.
    apply handle_command_returned
      with (h := player_only "cmd_spawn" cmd_spawn); [reflexivity|].
    apply cmd_spawn_found. subst s1 pos loaded. unfold exec.
    rewrite load_warps_run by assumption. cbn [snd]. unfold Dict.mem.
    destruct (warps_file s) as [rows|]; cbv zeta.
    + destruct (Dict.get "spawn" (read_warps (text_mode rows) (warps s))) eqn:G;
        cbn [warps said with_trace with_warps]; [exact G|].
      apply DictFacts.get_set_eq.
    + destruct (Dict.get "spawn" (warps s)) eqn:G;
        cbn [warps said with_trace with_warps]; [exact G|].
      apply DictFacts.get_set_eq.
  - intros e F R G. apply spawn_missing. subst s1 loaded. unfold exec.
    destruct (warps_file s) as [rows|] eqn:E; [|congruence].
    rewrite (load_warps_fault s rows e E F). exact G.
Qed.

Lemma spawn_needs_load_warps_witness :
  handle_command "Bob" "spawn" [] fresh
  = (Val tt, said [Exec (notice "Bob" (msg_error (KeyError "spawn")));
                   Log ERROR (CommandError (KeyError "spawn"))] fresh)
  /\ handle_command "Bob" "spawn" [] (exec load_warps fresh)
     = (Val tt, said [Exec "tp Bob 0 64 -3";
                      Exec (notice "Bob" (sect ++ "aTeleported to spawn!"))]
                     (exec load_warps fresh))
  /\ (let broken :=
        with_warps_fault (Some (UnicodeDecodeError "invalid start byte"))
          (init None (Some [["hub"; "1"; "2"; "3"]]) 0 []) in
      handle_command "Bob" "spawn" [] (exec load_warps broken)
      = (Val tt, said [Exec (notice "Bob" (msg_error (KeyError "spawn")));
                       Log ERROR (CommandError (KeyError "spawn"))]
                      (exec load_warps broken))).
Proof.
  split; [|split].
  - destruct (spawn_needs_load_warps "Bob" fresh) as (H & _).
    exact (H eq_refl).
  - destruct (spawn_needs_load_warps "Bob" fresh) as (_ & H & _).
    exact (H eq_refl).
  - cbv zeta.
    destruct (spawn_needs_load_warps "Bob"
                (with_warps_fault (Some (UnicodeDecodeError "invalid start byte"))
                   (init None (Some [["hub"; "1"; "2"; "3"]]) 0 [])))
      as (_ & _ & H).
    exact (H _ eq_refl ltac:(discriminate) eq_refl).
Defined.

(** *** How long a request lives *)












(** With sweeps that wake up a hundredth late, the third one reads the
    clock 30.03 after the request and takes it. *)
Example a_late_sweep_takes_the_request :
  let s := with_lags [1 # 100; 1 # 100; 1 # 100]%Q fresh in
  let s1 := exec (cmd_tpa "Amy" ["Bob"]) s in
  Dict.get "Bob" (tpa_requests (exec (check_tpa_timeouts 2) s1))
  = Some ("Amy", 100%Q)
  /\ Dict.get "Bob" (tpa_requests (exec (check_tpa_timeouts 3) s1)) = None.
Proof. vm_compute. split; reflexivity. Qed.

(** *** Random teleport *)

Lemma randint_range lo hi s :
  (lo <= hi)%Z ->
  exists v, randint lo hi s = (Val v, with_dice (tl (dice s)) s)
            /\ (lo <= v <= hi)%Z.
Proof.
  intros L. unfold randint. destruct (dice s) as [|d ds] eqn:E.
  - exists lo. split; [|lia]. unfold with_dice. simpl. rewrite <- E.
    now destruct s.
  - exists (lo + d mod (hi - lo + 1))%Z. split; [reflexivity|].
    pose proof (Z.mod_pos_bound d (hi - lo + 1)). lia.
Qed.

(** X17. [rtp] sends one [spreadplayers] command whose two coordinates lie
    within the configured radius, both ends included, tells the player the
    same two numbers, and uses up two draws of the random source. *)
Theorem rtp_stays_within_radius (player : string) (s : state) :
  exists x z,
    (- rtp_radius <= x <= rtp_radius)%Z
    /\ (- rtp_radius <= z <= rtp_radius)%Z
    /\ cmd_rtp player s
       = (Val tt,
          said [Exec ("spreadplayers " ++ Str.of_Z x ++ " " ++ Str.of_Z z
                      ++ " 0 100 false " ++ player);
                Exec (tellraw player
                        (sect ++ "aRandom teleported! " ++ sect ++ "e(X: "
                         ++ Str.of_Z x ++ ", Z: " ++ Str.of_Z z ++ ")"))]
               (with_dice (tl (tl (dice s))) s)).
Proof.
  assert (R : (- rtp_radius <= rtp_radius)%Z) by (unfold rtp_radius; lia).
  destruct (randint_range (- rtp_radius) rtp_radius s R) as [x [Ex Bx]].
  destruct (randint_range (- rtp_radius) rtp_radius
                          (with_dice (tl (dice s)) s) R) as [z [Ez Bz]].
  exists x, z. split; [exact Bx|]. split; [exact Bz|].
  unfold cmd_rtp. unfold bind at 1. rewrite Ex.
  unfold bind at 1. rewrite Ez. run_m. f_equal. state_eq.
Qed.

(** *** The data model along a run *)

(** X18. The dicts stay dicts of the data model along any run: if no dict
    has a key twice, the warp names, stored or pending, are in lower case
    and the warp coordinates have three parts, then the same holds after
    any output of the server has been handled, and after a sweep, a save of
    the homes or a save of the warps that follows. *)
Theorem data_model_is_kept (reads : list (result string)) (s : state) :
  data_model s ->
  let s' := exec (handle_output reads) s in
  data_model s'
  /\ data_model (exec check_tpa_timeouts_turn s')
  /\ data_model (exec save_homes s')
  /\ data_model (exec save_warps s').
Proof.
  intros D s'.
  assert (D' : data_model s') by now apply data_model_handle_output.
  split; [exact D'|]. split; [now apply data_model_sweep|].
  split; [now apply data_model_save_homes | now apply data_model_save_warps].
Qed.

Lemma data_model_is_kept_witness :
  data_model
    (exec (handle_output
             (as_read ["<Bob> .setwarp Town";
              "Bob has the following entity data: [1d, 2d, 3d]";
              "<Amy> .tpa Bob"]))
          fresh).
Proof.
  pose proof (data_model_is_kept
                (as_read ["<Bob> .setwarp Town";
                          "Bob has the following entity data: [1d, 2d, 3d]";
                          "<Amy> .tpa Bob"])
                fresh (data_model_init None None 100 [])) as H.
  cbv zeta in H. destruct H as (H & _). exact H.
Defined.

(** *** Nothing is ever deleted *)

Lemma mem_set_mono {V} k k' (v : V) d :
  Dict.mem k d = true -> Dict.mem k (Dict.set k' v d) = true.
Proof.
  unfold Dict.mem. destruct (String.eqb_spec k' k) as [-> | N].
  - now rewrite DictFacts.get_set_eq.
  - now rewrite DictFacts.get_set_neq.
Qed.

Lemma keeps_records_refl s : keeps_records s s.
Proof. split; auto. Qed.

Lemma keeps_records_trans s1 s2 s3 :
  keeps_records s1 s2 -> keeps_records s2 s3 -> keeps_records s1 s3.
Proof. intros [H1 W1] [H2 W2]. split; auto. Qed.

Lemma keeps_records_position player x y z s :
  keeps_records s (exec (handle_position player x y z) s).
Proof.
  unfold exec. destruct (StrSet.mem player (pending_homes s)) eqn:M.
  - rewrite handle_position_home by assumption. split; simpl; auto.
    intros p. apply mem_set_mono.
  - destruct (Dict.get player (pending_warps s)) as [warp_name|] eqn:G.
    + rewrite (handle_position_warp player warp_name) by assumption.
      split; simpl; auto. intros n. apply mem_set_mono.
    + unfold handle_position. run_m. rewrite M, G. exact (keeps_records_refl s).
Qed.

Lemma keeps_records_event e s : keeps_records s (snd (handle_event e s)).
Proof.
  destruct e as [p c a | p x y z]; simpl.
  - unfold bind. rewrite log_run.
    destruct (footprint_handle_command p c a (said [Log INFO (ProcessingCommand p c a)] s))
      as (H & W & _).
    unfold exec in H, W. split; intros k; [rewrite H | rewrite W]; auto.
  - apply keeps_records_position.
Qed.

Lemma keeps_records_line raw s : keeps_records s (exec (handle_line raw) s).
Proof.
  unfold exec. rewrite handle_line_events. cbv zeta.
  destruct (Str.is_empty (Str.strip raw)); [exact (keeps_records_refl s)|].
  unfold bind at 1. rewrite log_run.
  apply keeps_records_trans
    with (s2 := said [Log INFO (ServerLine (Str.strip raw))] s);
    [exact (keeps_records_refl s)|].
  generalize (said [Log INFO (ServerLine (Str.strip raw))] s).
  induction (classify (Str.strip raw)) as [|e events IH]; intros s0;
    [exact (keeps_records_refl s0)|].
  simpl for_each. unfold bind at 1.
  pose proof (keeps_records_event e s0) as Ke.
  destruct (handle_event e s0) as [[[]|err] s1]; [|exact Ke].
  now apply keeps_records_trans with (s2 := s1).
Qed.

(** X19. The program never deletes a home or a warp: whatever the server
    prints, every player who had a home has one afterwards, and every warp
    name that resolved still resolves. *)
Theorem records_are_never_deleted (reads : list (result string)) (s : state) :
  keeps_records s (exec (handle_output reads) s).
Proof.
  apply (handle_output_invariant (keeps_records s)).
  - intros raw s1 K. apply keeps_records_trans with (s2 := s1); [exact K|].
    apply keeps_records_line.
  - exact (keeps_records_refl s).
Qed.

(** *** A request and its answer *)

Lemma cmd_tpa_stored requester target more s :
  target <> requester ->
  (forall stamp, Dict.get target (tpa_requests s) <> Some (requester, stamp)) ->
  cmd_tpa requester (target :: more) s
  = (Val tt,
     said [Exec (tellraw requester (msg_sent target));
           Exec (tellraw target (msg_requested requester))]
          (with_tpa_requests
             (Dict.set target (requester, clock s) (tpa_requests s)) s)).
Proof.
  intros N Fresh. unfold cmd_tpa.
  apply String.eqb_neq in N. rewrite N. unfold bind, gets.
  assert (D : match Dict.get target (tpa_requests s) with
              | Some (existing_requester, _) => existing_requester =? requester
              | None => false
              end = false).
  { destruct (Dict.get target (tpa_requests s)) as [[r t]|] eqn:G; auto.
    apply String.eqb_neq. intros ->. now apply (Fresh t). }
  rewrite D. run_m. f_equal. state_eq.
Qed.

(** X20. A request replaced and then accepted.  When [first] and then
    [second], two different players, ask to teleport to [target], the
    target owes an answer to [second] only: [tpaccept] teleports [second],
    tells the target and [second], and leaves no request for the target;
    [first] is not teleported. *)
Theorem replaced_request_then_accept
        (first second target : string) (s : state) :
  first <> target -> second <> target -> second <> first ->
  (forall stamp, Dict.get target (tpa_requests s) <> Some (first, stamp)) ->
  let s1 := exec (cmd_tpa first [target]) s in
  let s2 := exec (cmd_tpa second [target]) s1 in
  let s3 := exec (cmd_tpaccept target) s2 in
  Dict.get target (tpa_requests s2) = Some (second, clock s)
  /\ s3 = said [Exec ("tp " ++ second ++ " " ++ target);
                Exec (tellraw target (msg_accepted second));
                Exec (tellraw second (msg_was_accepted target))]
            (with_tpa_requests (Dict.remove target (tpa_requests s2)) s2)
  /\ Dict.get target (tpa_requests s3) = None
  /\ (forall other, other <> target ->
        Dict.get other (tpa_requests s3) = Dict.get other (tpa_requests s)).
Proof.
  intros N1 N2 N12 Fresh s1 s2 s3.
  assert (E1 : s1 = said [Exec (tellraw first (msg_sent target));
                          Exec (tellraw target (msg_requested first))]
                      (with_tpa_requests
                         (Dict.set target (first, clock s) (tpa_requests s)) s)).
  { subst s1. unfold exec. rewrite cmd_tpa_stored; auto. }
  assert (G1 : Dict.get target (tpa_requests s1) = Some (first, clock s)).
  { rewrite E1. simpl. apply DictFacts.get_set_eq. }
  assert (E2 : s2 = said [Exec (tellraw second (msg_sent target));
                          Exec (tellraw target (msg_requested second))]
                      (with_tpa_requests
                         (Dict.set target (second, clock s1) (tpa_requests s1)) s1)).
  { subst s2. unfold exec. rewrite cmd_tpa_stored; auto.
    intros stamp. rewrite G1. congruence. }
  assert (C1 : clock s1 = clock s) by now rewrite E1.
  assert (G2 : Dict.get target (tpa_requests s2) = Some (second, clock s)).
  { rewrite E2. simpl. rewrite C1. apply DictFacts.get_set_eq. }
  assert (E3 : s3 = snd (cmd_tpaccept target s2)) by reflexivity.
  rewrite (cmd_tpaccept_run target second (clock s) s2 G2) in E3. simpl in E3.
  split; [exact G2|]. split; [exact E3|]. split.
  - rewrite E3. simpl. apply DictFacts.get_remove_eq.
  - intros other O. rewrite E3. simpl.
    rewrite DictFacts.get_remove_neq by congruence.
    rewrite E2. simpl. rewrite DictFacts.get_set_neq by congruence.
    rewrite E1. simpl. apply DictFacts.get_set_neq. congruence.
Qed.

Lemma replaced_request_then_accept_witness :
  let s1 := exec (cmd_tpa "Amy" ["Bob"]) fresh in
  let s2 := exec (cmd_tpa "Cid" ["Bob"]) s1 in
  console (exec (cmd_tpaccept "Bob") s2)
  = (console s2 ++ ["tp Cid Bob";
                    tellraw "Bob" (msg_accepted "Cid");
                    tellraw "Cid" (msg_was_accepted "Bob")])%list.
Proof.
  assert (N1 : "Amy" <> "Bob") by discriminate.
  assert (N2 : "Cid" <> "Bob") by discriminate.
  assert (N3 : "Cid" <> "Amy") by discriminate.
  assert (F : forall stamp : Q,
             Dict.get "Bob" (tpa_requests fresh) <> Some ("Amy", stamp))
    by discriminate.
  pose proof (replaced_request_then_accept "Amy" "Cid" "Bob" fresh N1 N2 N3 F) as H.
  cbv zeta in H. destruct H as (_ & E & _).
  cbv zeta. rewrite E. reflexivity.
Defined.

(** *** The journal of a run *)

Section Quiet.

Lemma quiet_ret {A} (a : A) : quiet (ret a).
Proof. intros s. exists []. simpl. now rewrite app_nil_r. Qed.

Lemma quiet_raise {A} e : quiet (@raise A e).
Proof. intros s. exists []. simpl. now rewrite app_nil_r. Qed.

Lemma quiet_gets {A} (f : state -> A) : quiet (gets f).
Proof. intros s. exists []. simpl. now rewrite app_nil_r. Qed.

Lemma quiet_modify f : (forall s, trace (f s) = trace s) -> quiet (modify f).
Proof. intros T s. exists []. simpl. now rewrite T, app_nil_r. Qed.

Lemma quiet_emit e : unmarked e -> quiet (emit e).
Proof. intros U s. exists [e]. simpl. split; [reflexivity | now constructor]. Qed.

Lemma quiet_bind {A B} (m : M A) (k : A -> M B) :
  quiet m -> (forall a, quiet (k a)) -> quiet (bind m k).
Proof.
  intros Qm Qk s. unfold bind. destruct (Qm s) as [es1 [T1 U1]].
  destruct (m s) as [[a|e] s1]; simpl in *.
  - destruct (Qk a s1) as [es2 [T2 U2]]. exists (es1 ++ es2)%list.
    rewrite T2, T1, app_assoc. split; [reflexivity|].
    apply Forall_app. now split.
  - now exists es1.
Qed.

Lemma quiet_try {A} (m : M A) (h : exn -> M A) :
  quiet m -> (forall e, quiet (h e)) -> quiet (try_except m h).
Proof.
  intros Qm Qh s. unfold try_except. destruct (Qm s) as [es1 [T1 U1]].
  destruct (m s) as [[a|e] s1]; simpl in *.
  - now exists es1.
  - destruct (Qh e s1) as [es2 [T2 U2]]. exists (es1 ++ es2)%list.
    rewrite T2, T1, app_assoc. split; [reflexivity|].
    apply Forall_app. now split.
Qed.

Lemma quiet_execute command : quiet (execute command).
Proof. now apply quiet_emit. Qed.

Lemma quiet_send player message : quiet (send_message player message).
Proof. apply quiet_execute. Qed.

Lemma quiet_randint lo hi : quiet (randint lo hi).
Proof.
  intros s. exists []. destruct (randint_run lo hi s) as [v [ds ->]].
  simpl. now rewrite app_nil_r.
Qed.

End Quiet.

Ltac quiet_step :=
  first [ apply quiet_ret | apply quiet_raise | apply quiet_gets
        | apply quiet_send | apply quiet_execute | apply quiet_randint
        | apply quiet_modify; intros ?; reflexivity
        | apply quiet_emit; exact I
        | apply quiet_bind; [|intros ?]
        | match goal with
          | |- quiet (match ?x with _ => _ end) => destruct x
          | |- quiet (if ?x then _ else _) => destruct x
          | |- quiet (let (_, _) := ?x in _) => destruct x
          end ].

Ltac quiet_all := repeat quiet_step.

Lemma quiet_save_homes : quiet save_homes.
Proof. unfold save_homes, log. quiet_all. Qed.

Lemma quiet_save_warps : quiet save_warps.
Proof. unfold save_warps, log. quiet_all. Qed.

Lemma quiet_handle_position player x y z :
  quiet (handle_position player x y z).
Proof.
  unfold handle_position. quiet_all;
    first [apply quiet_save_homes | apply quiet_save_warps].
Qed.

Lemma quiet_pop target : quiet (pop_tpa_request target).
Proof. unfold pop_tpa_request. quiet_all. Qed.

Lemma quiet_player_only name body player args :
  quiet (body player) -> quiet (player_only name body player args).
Proof. intros B. unfold player_only. destruct args; [exact B | apply quiet_raise]. Qed.

Lemma quiet_method name h player args :
  In (name, h) cmd_methods -> quiet (h player args).
Proof.
  intros I. simpl in I.
  destruct I as [I|[I|[I|[I|[I|[I|[I|[I|[I|[I|[I|[]]]]]]]]]]]];
    injection I as _ <-; try apply quiet_player_only.
  - unfold cmd_tpa, time. quiet_all.
  - unfold cmd_tpaccept. quiet_all; apply quiet_pop.
  - unfold cmd_tpdeny. quiet_all; apply quiet_pop.
  - unfold cmd_sethome. quiet_all.
  - unfold cmd_home. quiet_all.
  - unfold cmd_setwarp. quiet_all.
  - unfold cmd_warp. quiet_all.
  - unfold cmd_warps. apply quiet_bind; [apply quiet_gets|].
    intros w. cbv zeta. apply quiet_send.
  - unfold cmd_spawn. quiet_all.
  - unfold cmd_rtp. quiet_all.
  - unfold cmd_help. quiet_all.
Qed.

Lemma quiet_handle_command player command args :
  quiet (handle_command player command args).
Proof.
  unfold handle_command.
  destruct (getattr_cmd ("cmd_" ++ command)) as [h|] eqn:G;
    [|apply quiet_send].
  apply DictFacts.get_In in G. apply quiet_try.
  - now apply (quiet_method ("cmd_" ++ command)).
  - intros e. unfold log. quiet_all.
Qed.

Lemma journal_app es1 es2 :
  journal (es1 ++ es2) = (journal es1 ++ journal es2)%list.
Proof. unfold journal. apply flat_map_app. Qed.

Lemma journal_unmarked es : Forall unmarked es -> journal es = [].
Proof.
  induction 1 as [|e es U F IH]; [reflexivity|]. simpl.
  destruct e as [c | lvl [] | d]; simpl in *; auto; contradiction.
Qed.

Lemma journal_quiet {A} (m : M A) s :
  quiet m -> journal (trace (snd (m s))) = journal (trace s).
Proof.
  intros Q. destruct (Q s) as [es [-> U]].
  now rewrite journal_app, (journal_unmarked es U), app_nil_r.
Qed.

Lemma journal_line raw s :
  journal (trace (exec (handle_line raw) s))
  = (journal (trace s) ++ line_journal raw)%list.
Proof.
  unfold exec, handle_line, line_journal. cbv zeta.
  destruct (Str.is_empty (Str.strip raw)); [simpl; now rewrite app_nil_r|].
  unfold bind at 1. rewrite log_run.
  set (s0 := said [Log INFO (ServerLine (Str.strip raw))] s).
  assert (J0 : journal (trace s0)
               = (journal (trace s) ++ [ServerLine (Str.strip raw)])%list).
  { subst s0. simpl. now rewrite journal_app. }
  clearbody s0.
  destruct (chat_match (Str.strip raw)) as [[[player command] args_str]|].
  - unfold bind at 1. unfold bind at 1. rewrite log_run.
    set (s1 := said _ s0).
    assert (J1 : journal (trace s1)
                 = (journal (trace s0)
                    ++ [ProcessingCommand player command (split_args args_str)])%list).
    { subst s1. simpl. now rewrite journal_app. }
    clearbody s1.
    pose proof (journal_quiet (handle_command player command (split_args args_str))
                  s1 (quiet_handle_command _ _ _)) as J2.
    pose proof (handle_command_total player command (split_args args_str) s1) as T.
    destruct (handle_command player command (split_args args_str) s1)
      as [[[]|e] s2]; [|discriminate]. simpl in J2.
    assert (J3 : journal (trace (snd
                   (match position_match (Str.strip raw) with
                    | Some (p, x, y, z) => handle_position p x y z
                    | None => ret tt
                    end s2))) = journal (trace s2)).
    { apply journal_quiet.
      destruct (position_match (Str.strip raw)) as [[[[p x] y] z]|];
        [apply quiet_handle_position | apply quiet_ret]. }
    rewrite J3, J2, J1, J0. now rewrite <- app_assoc.
  - unfold bind at 1. unfold ret at 1.
    assert (J3 : journal (trace (snd
                   (match position_match (Str.strip raw) with
                    | Some (p, x, y, z) => handle_position p x y z
                    | None => ret tt
                    end s0))) = journal (trace s0)).
    { apply journal_quiet.
      destruct (position_match (Str.strip raw)) as [[[[p x] y] z]|];
        [apply quiet_handle_position | apply quiet_ret]. }
    now rewrite J3, J0.
Qed.

(** X21. The journal of a run.  Of all the records logged, those of the
    lines and of the commands found are, in order, exactly: for each line
    read before the first read that fails, if it is not blank, the stripped
    line, followed, when the chat pattern matches it, by the command with
    its player and its arguments.  No command, no save and no position
    report ever adds one, and no line read is recorded twice or skipped;
    nothing is recorded of a read that fails, nor after it. *)
Theorem journal_of_a_run (reads : list (result string)) (s : state) :
  journal (trace (exec (handle_output reads) s))
  = (journal (trace s) ++ flat_map line_journal (lines_read reads))%list.
Proof.
  unfold exec. revert s.
  induction reads as [|[raw|e] reads IH]; intros s;
    try (cbn [lines_read flat_map]; now rewrite app_nil_r).
  rewrite handle_output_line. pose proof (journal_line raw s) as J.
  pose proof (handle_line_total raw s) as T. unfold exec in J.
  destruct (handle_line raw s) as [[[]|e] s1]; [|discriminate].
  cbn [snd] in J. cbn [lines_read flat_map]. now rewrite IH, J, <- app_assoc.
Qed.
